(** * FGCM chi-squared, gray-residual and repeatability engines

    A shallow embedding of [fgcm/fgcmChisq.py], [fgcm/fgcmGray.py] and
    [fgcm/fgcmSigFgcm.py].

    Conventions of the embedding.
    - numpy [f8]/[f4] values are idealised as exact rationals ([Q]); rounding,
      infinities and NaN are outside the model.  Numerical results are
      compared with [==] ([Qeq]) where a sum is re-associated.  Division is
      [Qdiv] (total, [x / 0 == 0]); theorems that rely on a quotient say
      where the divisor is non-zero.
    - [sqrt] and [log10] are not rational functions: they are the two
      operations of the class [Libm], and every definition is parametric in
      them.
    - a numpy array is a total function on its index ([nat] for one axis,
      [nat * nat] for two) together with the extents kept in the owning
      record; the star and parameter stores guarantee that the index columns
      stay inside the extents, so Python's [IndexError] on such a column is
      not modelled.
    - an index selection ([np.where], the second output of
      [esutil.numpy_util.match]) is the ascending list of selected indices.
    - the collaborators that live outside the three files (look-up table,
      parameter container methods, SED-slope fit, Gaussian histogram fit)
      are the operations of type classes. *)

From Stdlib Require Import QArith Qabs Qround ZArith List Bool Arith Lia Lqa PeanoNat.
From Stdlib Require Import Setoid Morphisms Permutation Sorted.
Import ListNotations.

Set Implicit Arguments.
Open Scope Q_scope.

(* ================================================================== *)
(** ** numpy and esutil primitives *)
(* ================================================================== *)

Module Np.

(** Index types with a boolean equality. *)
Class Key (K : Type) := { key_eqb : K -> K -> bool }.

#[export] Instance nat_Key : Key nat := {| key_eqb := Nat.eqb |}.

Definition pair_eqb (a b : nat * nat) : bool :=
  Nat.eqb (fst a) (fst b) && Nat.eqb (snd a) (snd b).

#[export] Instance pair_Key : Key (nat * nat) := {| key_eqb := pair_eqb |}.

(** Comparisons on floats, as booleans. *)
Definition Qltb (x y : Q) : bool := negb (Qle_bool y x).
Definition Qleb (x y : Q) : bool := Qle_bool x y.
Definition Qgtb (x y : Q) : bool := Qltb y x.
Definition Qneqb (x y : Q) : bool := negb (Qeq_bool x y).

(** [x ** 2.] *)
Definition sq (x : Q) : Q := x * x.

(** [np.sum]. *)
Definition sum (l : list Q) : Q := fold_left Qplus l 0.

Section Arrays.
Context {K : Type} `{Key K} {V : Type}.

(** [a[k] = v] for one index. *)
Definition put_one (a : K -> V) (k : K) (v : V) : K -> V :=
  fun j => if key_eqb j k then v else a j.

(** [a[ks] = vs]: the assignments are done in order, the last one wins. *)
Definition put (a : K -> V) (ks : list K) (vs : list V) : K -> V :=
  fold_left (fun b kv => put_one b (fst kv) (snd kv)) (combine ks vs) a.

(** [ufunc.at(a, ks, vs)]: unbuffered, a repeated index is updated once per
    occurrence. *)
Definition ufunc_at (op : V -> V -> V) (a : K -> V) (ks : list K)
  (vs : list V) : K -> V :=
  fold_left (fun b kv => put_one b (fst kv) (op (b (fst kv)) (snd kv)))
            (combine ks vs) a.

(** [a[ks] op= v] with a fancy index: buffered, every selected index is
    updated once whatever its multiplicity. *)
Definition inplace (op : V -> V -> V) (a : K -> V) (ks : list K) (v : V)
  : K -> V :=
  fun j => if existsb (key_eqb j) ks then op (a j) v else a j.

(** [a[ks]]. *)
Definition take (a : K -> V) (ks : list K) : list V := map a ks.

End Arrays.

Definition add_at {K} `{Key K} := ufunc_at (K:=K) Qplus.
Definition multiply_at {K} `{Key K} := ufunc_at (K:=K) Qmult.
Definition count_at {K} `{Key K} (a : K -> nat) (ks : list K) (vs : list nat) :=
  ufunc_at (K:=K) Nat.add a ks vs.

(** [np.zeros]. *)
Definition zeros {K} : K -> Q := fun _ => 0.
Definition zerosN {K} : K -> nat := fun _ => O.

(** [np.where(cond)] over an array of [n] entries. *)
Definition np_where (n : nat) (cond : nat -> bool) : list nat :=
  filter cond (seq 0 n).

(** [np.where(cond)] over an [n * m] array, row-major. *)
Definition np_where2 (n m : nat) (cond : nat * nat -> bool) : list (nat * nat) :=
  filter cond (list_prod (seq 0 n) (seq 0 m)).

(** Position of the first occurrence of [x] in [l]. *)
Fixpoint index_of (x : nat) (l : list nat) : option nat :=
  match l with
  | [] => None
  | y :: l' => if Nat.eqb x y then Some O
               else option_map S (index_of x l')
  end.

(** The pairs [(sub1, sub2)] with [arr1[sub1] == arr2[sub2]], in ascending
    [sub2]; [arr1] holds distinct values and [arr2] is the column
    [arr2 0 .. arr2 (n-1)]. *)
Definition match_pairs (arr1 : list nat) (arr2 : nat -> nat) (n : nat)
  : list (nat * nat) :=
  flat_map (fun j => match index_of (arr2 j) arr1 with
                     | Some i => [(i, j)]
                     | None => []
                     end) (seq 0 n).

(** [esutil.numpy_util.match(arr1, arr2)]: [None] stands for the
    [ValueError] the library raises when one of the two arrays is empty
    ("arr1 and arr2 must each be non-zero length"). *)
Definition esutil_match (arr1 : list nat) (arr2 : nat -> nat) (n : nat)
  : option (list (nat * nat)) :=
  match arr1, n with
  | [], _ | _, O => None
  | _ :: _, S _ => Some (match_pairs arr1 arr2 n)
  end.

(** The second output of [esutil.numpy_util.match(arr1, col[sel])], taken
    through [sel]: the selected indices whose value is in [arr1]. *)
Definition esutil_match_in (arr1 : list nat) (col : nat -> nat) (sel : list nat)
  : option (list nat) :=
  match arr1, sel with
  | [], _ | _, [] => None
  | _ :: _, _ :: _ => Some (filter (fun o => existsb (Nat.eqb (col o)) arr1) sel)
  end.

Definition memb (x : nat) (l : list nat) : bool := existsb (Nat.eqb x) l.

(** A signed integer of [bits] bits: what an [i2] or [i4] array holds
    after the exact value [z] was added up in it (numpy integer
    arithmetic wraps around). *)
Definition wrap_int (bits : Z) (z : Z) : Z :=
  ((z + 2 ^ (bits - 1)) mod 2 ^ bits - 2 ^ (bits - 1))%Z.

(** [np.unique] of a column of small indices: ascending, no repeats. *)
Definition unique (l : list nat) : list nat :=
  filter (fun i => memb i l) (seq 0 (S (fold_right Nat.max O l))).

End Np.
Import Np.

(** [math.h]: the two irrational functions the code calls. *)
Class Libm := {
  sqrt : Q -> Q;
  log10 : Q -> Q
}.

(** What a method returns: a value, or the exception it raises. *)
Inductive result (E A : Type) : Type :=
| Ok (a : A)
| Raise (e : E).
Arguments Ok {E A} a.
Arguments Raise {E A} e.

(* ================================================================== *)
(** ** The stores the engines work on *)
(* ================================================================== *)

(** The star store [FgcmStars] (the shared-memory arrays behind its
    [...Handle] attributes).  The columns the three files only read form
    the catalog; the others are written by the chi-squared engine. *)
Record StarCatalog := {
  nStars : nat;                       (* objFlag.size *)
  nStarObs : nat;                     (* obsObjIDIndex.size *)
  nBands : nat;
  bandRequiredIndex : list nat;
  bandExtraIndex : list nat;
  minObsPerBand : nat;
  objFlag : nat -> Z;
  objNGoodObs : nat * nat -> nat;
  obsObjIDIndex : nat -> nat;
  obsExpIndex : nat -> nat;
  obsBandIndex : nat -> nat;
  obsLUTFilterIndex : nat -> nat;
  obsCCD : nat -> nat;
  obsFlag : nat -> Z;
  obsSecZenith : nat -> Q;
  obsMagADU : nat -> Q;
  obsMagADUModelErr : nat -> Q
}.

Record FgcmStars := {
  catalog : StarCatalog;
  objMagStdMean : nat * nat -> Q;
  objMagStdMeanNoChrom : nat * nat -> Q;
  objMagStdMeanErr : nat * nat -> Q;
  objSEDSlope : nat * nat -> Q;
  obsMagStd : nat -> Q;
  magStdComputed : bool;
  allMagStdComputed : bool
}.

(** [objNGoodObs[:,bandRequiredIndex].min(axis=1)] for one object. *)
Definition minObs (cat : StarCatalog) (i : nat) : nat :=
  match bandRequiredIndex cat with
  | [] => O
  | b :: bs => fold_left Nat.min (map (fun b' => objNGoodObs cat (i, b')) bs)
                         (objNGoodObs cat (i, b))
  end.

(** The attributes of [FgcmParameters] the three files use, grouped:
    the layout of the fit-parameter vector, the configured fit modes, the
    per-exposure state, and the computed ("comp") quantities. *)
Record ParLayout := {
  nFitPars : nat;
  nCampaignNights : nat;
  nFitBands : nat;
  nWashIntervals : nat;
  parO3Loc : nat;
  parAlphaLoc : nat;
  parExternalPWVOffsetLoc : nat;
  parExternalPWVScaleLoc : nat;
  parRetrievedPWVScaleLoc : nat;
  parRetrievedPWVNightlyOffsetLoc : nat;
  parRetrievedPWVOffsetLoc : nat;
  parPWVInterceptLoc : nat;
  parPWVPerSlopeLoc : nat;
  parExternalTauOffsetLoc : nat;
  parExternalTauScaleLoc : nat;
  parLnTauInterceptLoc : nat;
  parLnTauSlopeLoc : nat;
  parQESysInterceptLoc : nat;
  parQESysSlopeLoc : nat
}.

Record ParModes := {
  hasExternalPWV : bool;
  useRetrievedPWV : bool;
  useNightlyRetrievedPWV : bool;
  hasExternalTau : bool
}.

Record ExpState := {
  expFlag : nat -> Z;
  expPWV : nat -> Q;
  expO3 : nat -> Q;
  expLnTau : nat -> Q;
  expTau : nat -> Q;
  expAlpha : nat -> Q;
  expPmb : nat -> Q;
  expQESys : nat -> Q;
  expDeltaUT : nat -> Q;
  expMJD : nat -> Q;
  expNightIndex : nat -> nat;
  expWashIndex : nat -> nat;
  washMJDs : nat -> Q;
  externalPWVFlag : nat -> bool;
  externalTauFlag : nat -> bool;
  compRetrievedPWVFlag : nat -> Z
}.

Record CompState := {
  compExpGray : nat -> Q;
  compVarGray : nat -> Q;
  compNGoodStarPerExp : nat -> nat;
  compSigFgcm : nat -> Q
}.

Record FgcmParameters := {
  nExp : nat;
  nCCD : nat;
  fitBandIndex : list nat;
  layout : ParLayout;
  modes : ParModes;
  exps : ExpState;
  comp : CompState
}.

Definition set_comp (p : FgcmParameters) (c : CompState) : FgcmParameters :=
  {| nExp := nExp p; nCCD := nCCD p; fitBandIndex := fitBandIndex p;
     layout := layout p; modes := modes p; exps := exps p; comp := c |}.

(* ================================================================== *)
(** ** fgcmGray.py: [FgcmGray.computeCCDAndExpGray] *)
(* ================================================================== *)

Module Gray.

Record Config := {
  minStarPerCCD : nat;
  maxCCDGrayErr : Q;
  ccdGrayMaxStarErr : Q;
  ccdStartIndex : nat;
  illegalValue : Q
}.

(** The shared arrays created by [_prepareGrayArrays] that
    [computeCCDAndExpGray] fills. *)
Record GrayArrays := {
  ccdGray : nat * nat -> Q;
  ccdGrayRMS : nat * nat -> Q;
  ccdGrayErr : nat * nat -> Q;
  ccdNGoodObs : nat * nat -> nat;
  ccdNGoodStars : nat * nat -> nat;
  ccdNGoodTilings : nat * nat -> Q;
  expGray : nat -> Q;
  expGrayRMS : nat -> Q;
  expGrayErr : nat -> Q;
  expNGoodStars : nat -> nat;
  expNGoodCCDs : nat -> nat;
  expNGoodTilings : nat -> Q
}.

Inductive error : Type :=
| MagStdNotComputed    (* "Must run FgcmChisq to compute magStd before ..." *)
| EmptyMatch.          (* ValueError of [esutil.numpy_util.match] on an empty array *)

(** The five per-(exposure, CCD) accumulators filled with [np.add.at]. *)
Record CcdSums := {
  sGrayWt : nat * nat -> Q;
  sGray : nat * nat -> Q;
  sGrayRMS : nat * nat -> Q;
  sNGoodStars : nat * nat -> nat;
  sNGoodObs : nat * nat -> nat
}.

Section Model.
Context {M : Libm}.
Variable cfg : Config.
Variable onlyObsErr : bool.
Variable st : FgcmStars.
Variable pars : FgcmParameters.

(** [obsCCDIndex = obsCCD - ccdStartIndex]. *)
Definition obsCCDIndex (o : nat) : nat := (obsCCD (catalog st) o - ccdStartIndex cfg)%nat.

Definition goodStars : list nat :=
  np_where (nStars (catalog st))
    (fun i => (minObsPerBand (catalog st) <=? minObs (catalog st) i)%nat && Z.eqb (objFlag (catalog st) i) 0).

(** [goodObs] after the match and the cut on [obsFlag]. *)
Definition goodObsFlagged : list nat :=
  filter (fun o => Z.eqb (obsFlag (catalog st) o) 0)
         (map snd (match_pairs goodStars (obsObjIDIndex (catalog st)) (nStarObs (catalog st)))).

(** [EGrayGO] and [EGrayErr2GO], as functions of the observation they
    belong to: [EGrayGO[k]] is [EGray (goodObs[k])]. *)
Definition EGray (o : nat) : Q :=
  objMagStdMean st (obsObjIDIndex (catalog st) o, obsBandIndex (catalog st) o) - obsMagStd st o.

Definition EGrayErr2 (o : nat) : Q :=
  if onlyObsErr then sq (obsMagADUModelErr (catalog st) o)
  else sq (obsMagADUModelErr (catalog st) o)
       - sq (objMagStdMeanErr st (obsObjIDIndex (catalog st) o, obsBandIndex (catalog st) o)).

(** "one more cut on the maximum error". *)
Definition goodObs : list nat :=
  filter (fun o => Qltb (EGrayErr2 o) (ccdGrayMaxStarErr cfg)) goodObsFlagged.

(** [goodObs[reqBandUse]]. *)
Definition reqBandObs : list nat :=
  filter (fun o => memb (obsBandIndex (catalog st) o) (bandRequiredIndex (catalog st))) goodObs.

(** [goodObs[extraBandUse]] for one extra band. *)
Definition extraBandObs (extraBandIndex : nat) : list nat :=
  filter (fun o => Nat.eqb (obsBandIndex (catalog st) o) extraBandIndex
                   && (minObsPerBand (catalog st)
                       <=? objNGoodObs (catalog st) (obsObjIDIndex (catalog st) o, extraBandIndex))%nat)
         goodObs.

Definition cell (o : nat) : nat * nat := (obsExpIndex (catalog st) o, obsCCDIndex o).

(** The block of five [np.add.at] calls, for one selection of observations. *)
Definition accumulate (s : CcdSums) (sel : list nat) : CcdSums :=
  {| sGrayWt := add_at (sGrayWt s) (map cell sel)
                       (map (fun o => 1 / EGrayErr2 o) sel);
     sGray := add_at (sGray s) (map cell sel)
                     (map (fun o => EGray o / EGrayErr2 o) sel);
     sGrayRMS := add_at (sGrayRMS s) (map cell sel)
                        (map (fun o => sq (EGray o) / EGrayErr2 o) sel);
     sNGoodStars := count_at (sNGoodStars s) (map cell sel)
                             (map (fun _ => 1%nat) sel);
     sNGoodObs := count_at (sNGoodObs s) (map cell sel)
                   (map (fun o => objNGoodObs (catalog st) (obsObjIDIndex (catalog st) o,
                                                  obsBandIndex (catalog st) o)) sel) |}.

Definition sums0 : CcdSums :=
  {| sGrayWt := zeros; sGray := zeros; sGrayRMS := zeros;
     sNGoodStars := zerosN; sNGoodObs := zerosN |}.

(** Required bands first, then the loop over the extra bands. *)
Definition ccdSums : CcdSums :=
  fold_left (fun s eb => accumulate s (extraBandObs eb))
            (bandExtraIndex (catalog st)) (accumulate sums0 reqBandObs).

(** [gd = np.where((ccdNGoodStars > 2) & (ccdGrayWt > 0.0) & (ccdGrayRMS > 0.0))] *)
Definition gdCCD (c : nat * nat) : bool :=
  (2 <? sNGoodStars ccdSums c)%nat
  && Qgtb (sGrayWt ccdSums c) 0 && Qgtb (sGrayRMS ccdSums c) 0.

(** [ccdGray[gd] /= ccdGrayWt[gd]] *)
Definition ccdGrayDiv (c : nat * nat) : Q :=
  if gdCCD c then sGray ccdSums c / sGrayWt ccdSums c else sGray ccdSums c.

Definition tempRMS2 (c : nat * nat) : Q :=
  if gdCCD c then sGrayRMS ccdSums c / sGrayWt ccdSums c - sq (ccdGrayDiv c)
  else 0.

(** [bad = np.where((ccdNGoodStars <= 2) | (ccdGrayWt <= 0.0) | (tempRMS2 <= 0.0))] *)
Definition badCCD (c : nat * nat) : bool :=
  (sNGoodStars ccdSums c <=? 2)%nat
  || Qleb (sGrayWt ccdSums c) 0 || Qleb (tempRMS2 c) 0.

Definition ccdGray' (c : nat * nat) : Q :=
  if badCCD c then illegalValue cfg else ccdGrayDiv c.

Definition ccdGrayRMS' (c : nat * nat) : Q :=
  if badCCD c then illegalValue cfg
  else if Qgtb (tempRMS2 c) 0 then sqrt (tempRMS2 c) else sGrayRMS ccdSums c.

Definition ccdGrayErr' (c : nat * nat) : Q :=
  if badCCD c then illegalValue cfg
  else if gdCCD c then sqrt (1 / sGrayWt ccdSums c) else 0.

Definition ccdNGoodTilings' (c : nat * nat) : Q :=
  if gdCCD c
  then inject_Z (Z.of_nat (sNGoodObs ccdSums c))
       / inject_Z (Z.of_nat (sNGoodStars ccdSums c))
  else 0.

(** [goodCCD = np.where((ccdNGoodStars >= minStarPerCCD) & (ccdGrayErr > 0.0)
                        & (ccdGrayErr < maxCCDGrayErr))] *)
Definition isGoodCCD (c : nat * nat) : bool :=
  (minStarPerCCD cfg <=? sNGoodStars ccdSums c)%nat
  && Qgtb (ccdGrayErr' c) 0 && Qltb (ccdGrayErr' c) (maxCCDGrayErr cfg).

Definition goodCCD : list (nat * nat) :=
  np_where2 (nExp pars) (nCCD pars) isGoodCCD.

Definition expGrayWt : nat -> Q :=
  add_at zeros (map fst goodCCD) (map (fun c => 1 / sq (ccdGrayErr' c)) goodCCD).

Definition expGraySum : nat -> Q :=
  add_at zeros (map fst goodCCD)
         (map (fun c => ccdGray' c / sq (ccdGrayErr' c)) goodCCD).

Definition expGrayRMSSum : nat -> Q :=
  add_at zeros (map fst goodCCD)
         (map (fun c => sq (ccdGray' c) / sq (ccdGrayErr' c)) goodCCD).

Definition expNGoodCCDs' : nat -> nat :=
  count_at zerosN (map fst goodCCD) (map (fun _ => 1%nat) goodCCD).

Definition expNGoodTilingsSum : nat -> Q :=
  add_at zeros (map fst goodCCD) (map ccdNGoodTilings' goodCCD).

Definition expNGoodStars' : nat -> nat :=
  count_at zerosN (map fst goodCCD) (map (sNGoodStars ccdSums) goodCCD).

(** [gd, = np.where(expNGoodCCDs > 2)] and [bad, = np.where(expNGoodCCDs <= 2)] *)
Definition gdExp (e : nat) : bool := (2 <? expNGoodCCDs' e)%nat.
Definition badExp (e : nat) : bool := (expNGoodCCDs' e <=? 2)%nat.

Definition expGrayDiv (e : nat) : Q :=
  if gdExp e then expGraySum e / expGrayWt e else expGraySum e.

Definition expGray' (e : nat) : Q :=
  if badExp e then illegalValue cfg else expGrayDiv e.

Definition expGrayRMS' (e : nat) : Q :=
  if badExp e then illegalValue cfg
  else if gdExp e
       then sqrt (expGrayRMSSum e / expGrayWt e - sq (expGrayDiv e))
       else expGrayRMSSum e.

Definition expGrayErr' (e : nat) : Q :=
  if badExp e then illegalValue cfg
  else if gdExp e then sqrt (1 / expGrayWt e) else 0.

Definition expNGoodTilings' (e : nat) : Q :=
  if badExp e then illegalValue cfg
  else if gdExp e
       then expNGoodTilingsSum e / inject_Z (Z.of_nat (expNGoodCCDs' e))
       else expNGoodTilingsSum e.

(** The arrays as the method leaves them. *)
Definition grayArrays : GrayArrays :=
  {| ccdGray := ccdGray'; ccdGrayRMS := ccdGrayRMS'; ccdGrayErr := ccdGrayErr';
     ccdNGoodObs := sNGoodObs ccdSums; ccdNGoodStars := sNGoodStars ccdSums;
     ccdNGoodTilings := ccdNGoodTilings';
     expGray := expGray'; expGrayRMS := expGrayRMS'; expGrayErr := expGrayErr';
     expNGoodStars := expNGoodStars'; expNGoodCCDs := expNGoodCCDs';
     expNGoodTilings := expNGoodTilings' |}.

(** [compExpGray[:] = expGray], [compVarGray[gd] = expGrayRMS[gd]**2.],
    [compNGoodStarPerExp = expNGoodStars]. *)
Definition parsAfter : FgcmParameters :=
  set_comp pars
    {| compExpGray := expGray';
       compVarGray := fun e => if gdExp e then sq (expGrayRMS' e)
                               else compVarGray (comp pars) e;
       compNGoodStarPerExp := expNGoodStars';
       compSigFgcm := compSigFgcm (comp pars) |}.

(** [computeCCDAndExpGray(doPlots, onlyObsErr)]; the plots are left out.
    The two calls of [esutil.numpy_util.match] (good stars against the
    observation table, required bands against the bands of the good
    observations) raise on an empty array. *)
Definition computeCCDAndExpGray : result error (GrayArrays * FgcmParameters) :=
  if negb (allMagStdComputed st) then Raise MagStdNotComputed
  else
    match esutil_match goodStars (obsObjIDIndex (catalog st))
                       (nStarObs (catalog st)) with
    | None => Raise EmptyMatch
    | Some _ =>
        match esutil_match_in (bandRequiredIndex (catalog st))
                              (obsBandIndex (catalog st)) goodObs with
        | None => Raise EmptyMatch
        | Some _ => Ok (grayArrays, parsAfter)
        end
    end.

(** *** The statistics in the words of the specification

    The observations that contribute to a cell, and the
    inverse-variance-weighted moments of their residuals. *)
Definition contributing : list nat :=
  reqBandObs ++ flat_map extraBandObs (bandExtraIndex (catalog st)).

Definition inCell (c : nat * nat) : list nat :=
  filter (fun o => key_eqb c (cell o)) contributing.

Definition totalWeight (c : nat * nat) : Q :=
  sum (map (fun o => 1 / EGrayErr2 o) (inCell c)).

Definition weightedMean (c : nat * nat) : Q :=
  sum (map (fun o => EGray o / EGrayErr2 o) (inCell c)) / totalWeight c.

Definition weightedMeanSquare (c : nat * nat) : Q :=
  sum (map (fun o => sq (EGray o) / EGrayErr2 o) (inCell c)) / totalWeight c.

(** [E[x^2] - E[x]^2], the quantity under the square root of the RMS. *)
Definition rmsArgument (c : nat * nat) : Q :=
  weightedMeanSquare c - sq (weightedMean c).

(** The good CCDs of one exposure. *)
Definition goodCCDsOf (e : nat) : list (nat * nat) :=
  filter (fun c => Nat.eqb e (fst c)) goodCCD.

End Model.
End Gray.

(* ================================================================== *)
(** ** fgcmSigFgcm.py: [FgcmSigFgcm.computeSigFgcm] *)
(* ================================================================== *)

Module SigFgcm.

Record Config := {
  sigFgcmMaxEGray : Q;
  sigFgcmMaxErr : Q;
  colorSplitIndices : nat * nat;
  flagRESERVED : Z                    (* objFlagDict['RESERVED'] *)
}.

(** A float as [np.isfinite] sees it. *)
Inductive xfloat : Type :=
| Finite (x : Q)
| NonFinite.                          (* inf or nan *)

(** [fgcmUtilities.histoGauss(ax, sample)]: the fitted
    [(norm, mean, sigma)], or [None] when it raises. *)
Class HistoGauss := {
  histoGauss : list Q -> option (xfloat * xfloat * xfloat)
}.

Inductive error : Type :=
| MagStdNotComputed     (* "Must run FgcmChisq to compute magStd before ..." *)
| EmptyMatch            (* ValueError of [esutil.numpy_util.match] on an empty array *)
| EmptyIndex.           (* IndexError: gmiGO[st[0]] on an empty selection *)

(** What ends the method early: one of the errors above, or the
    [UnboundLocalError] of [extraName] at [fig.savefig]. *)
Inductive failure : Type :=
| Raised (e : error)
| ExtraNameUnbound.

(** One line of the log,
    [fgcmLog.info("sigFgcm (%s) (%s) = %.4f" % (band, cut, sigFgcm[band]))]:
    the band, the colour cut and the value. *)
Definition logLine : Type := (nat * nat * Q)%type.

(** The local array [sigFgcm], the array [fgcmPars.compSigFgcm] and the
    log. *)
Record loopState := {
  sigFgcm : nat -> Q;
  saved : nat -> Q;
  logged : list logLine
}.

(** Insertion into an ascending list, and [np.sort]. *)
Fixpoint insert (x : Q) (l : list Q) : list Q :=
  match l with
  | [] => [x]
  | y :: l' => if Qle_bool x y then x :: l else y :: insert x l'
  end.

Definition sort (l : list Q) : list Q := fold_right insert [] l.

(** [np.median]: the middle of the sorted sample, the mean of the two
    middle values for an even size. *)
Definition median (l : list Q) : Q :=
  let s := sort l in
  let n := length s in
  if Nat.even n
  then (nth (n / 2 - 1) s 0 + nth (n / 2) s 0) / 2
  else nth (n / 2) s 0.

(** Which of the three branches sets [sigFgcm[bandIndex]]; [Scatter a]
    is the branch that calls [np.sqrt(a)]. *)
Inductive branch : Type :=
| FitFailed
| ErrorTooLarge
| Scatter (a : Q).

(** The [if not np.isfinite(coeff[2]) / elif / else] cascade. *)
Definition chooseBranch (coeff2 : xfloat) (errs : list Q) : branch :=
  match coeff2 with
  | NonFinite => FitFailed
  | Finite s =>
      if Qgtb (median errs) (sq s) then ErrorTooLarge
      else Scatter (sq s - median errs)
  end.

Section Model.
Context {M : Libm} {H : HistoGauss}.
Variable cfg : Config.
Variable reserved : bool.
Variable save : bool.
Variable st : FgcmStars.
Variable pars : FgcmParameters.

Definition branchValue (b : branch) : Q :=
  match b with
  | FitFailed => 5 # 100
  | ErrorTooLarge => 1 # 1000
  | Scatter a => sqrt a
  end.

(** [try: coeff = histoGauss(...) except: coeff = [inf, inf, inf]]; only
    [coeff[2]] is used. *)
Definition fittedWidth (sample : list Q) : xfloat :=
  match histoGauss sample with
  | Some (_, _, sigma) => sigma
  | None => NonFinite
  end.

Definition goodStars : list nat :=
  np_where (nStars (catalog st))
    (fun i => (minObsPerBand (catalog st) <=? minObs (catalog st) i)%nat
              && (if reserved
                  then Z.ltb 0 (Z.land (objFlag (catalog st) i) (flagRESERVED cfg))
                  else Z.eqb (objFlag (catalog st) i) 0)).

Definition goodObs : list nat :=
  filter (fun o => Z.eqb (expFlag (exps pars) (obsExpIndex (catalog st) o)) 0
                   && Z.eqb (obsFlag (catalog st) o) 0)
         (map snd (match_pairs goodStars (obsObjIDIndex (catalog st)) (nStarObs (catalog st)))).

Definition EGray (o : nat) : Q :=
  objMagStdMean st (obsObjIDIndex (catalog st) o, obsBandIndex (catalog st) o) - obsMagStd st o.

Definition EGrayErr2 (o : nat) : Q :=
  sq (obsMagADUModelErr (catalog st) o)
  - sq (objMagStdMeanErr st (obsObjIDIndex (catalog st) o, obsBandIndex (catalog st) o)).

Definition gmi (o : nat) : Q :=
  objMagStdMean st (obsObjIDIndex (catalog st) o, fst (colorSplitIndices cfg))
  - objMagStdMean st (obsObjIDIndex (catalog st) o, snd (colorSplitIndices cfg)).

(** [gmiGO[st[k]]] with [st = np.argsort(gmiGO)]. *)
Definition gmiSorted : list Q := sort (map gmi goodObs).

Definition quarter (k : nat) : Q :=
  nth (k * length gmiSorted / 4) gmiSorted 0.

(** [gmiCutLow[c]] and [gmiCutHigh[c]] for
    [c = 0 (All), 1 (Blue25), 2 (Middle50), 3 (Red25)]. *)
Definition gmiCutLow (c : nat) : Q :=
  match c with
  | 0%nat | 1%nat => nth 0 gmiSorted 0
  | 2%nat => quarter 1
  | _ => quarter 3
  end.

Definition gmiCutHigh (c : nat) : Q :=
  match c with
  | 1%nat => quarter 1
  | 2%nat => quarter 3
  | _ => last gmiSorted 0
  end.

(** [goodObs[sigUse]] for one band and one colour cut. *)
Definition sigUse (bandIndex c : nat) : list nat :=
  filter (fun o =>
            Qltb (Qabs (EGray o)) (sigFgcmMaxEGray cfg)
            && Qgtb (EGrayErr2 o) 0
            && Qltb (EGrayErr2 o) (sq (sigFgcmMaxErr cfg))
            && Qneqb (EGray o) 0
            && Nat.eqb (obsBandIndex (catalog st) o) bandIndex
            && (if memb bandIndex (bandRequiredIndex (catalog st)) then true
                else (minObsPerBand (catalog st)
                      <=? objNGoodObs (catalog st) (obsObjIDIndex (catalog st) o, bandIndex))%nat)
            && Qgtb (gmi o) (gmiCutLow c)
            && Qltb (gmi o) (gmiCutHigh c))
         goodObs.

(** What the selection asks of an observation besides its colour. *)
Definition eligible (bandIndex o : nat) : bool :=
  Qltb (Qabs (EGray o)) (sigFgcmMaxEGray cfg)
  && Qgtb (EGrayErr2 o) 0
  && Qltb (EGrayErr2 o) (sq (sigFgcmMaxErr cfg))
  && Qneqb (EGray o) 0
  && Nat.eqb (obsBandIndex (catalog st) o) bandIndex
  && (if memb bandIndex (bandRequiredIndex (catalog st)) then true
      else (minObsPerBand (catalog st)
            <=? objNGoodObs (catalog st) (obsObjIDIndex (catalog st) o, bandIndex))%nat).

(** The body of the loop over the colour cuts: a cut with an empty
    selection is skipped; otherwise the cascade sets [sigFgcm[bandIndex]],
    the value is logged, and saved for the first cut when [save] is
    set. *)
Definition cutBody (bandIndex : nat) (s : loopState) (c : nat) : loopState :=
  match sigUse bandIndex c with
  | [] => s                                    (* continue *)
  | _ :: _ =>
      let sel := sigUse bandIndex c in
      let v := branchValue (chooseBranch (fittedWidth (map EGray sel))
                                         (map EGrayErr2 sel)) in
      {| sigFgcm := put_one (sigFgcm s) bandIndex v;
         saved := if save && Nat.eqb c 0 then put_one (saved s) bandIndex v
                  else saved s;
         logged := logged s ++ [(bandIndex, c, v)] |}
  end.

Definition bandBody (s : loopState) (bandIndex : nat) : loopState :=
  fold_left (cutBody bandIndex) (seq 0 4) s.

(** [sigFgcm = np.zeros(nBands)], the parameter container as it is, an
    empty log. *)
Definition init : loopState :=
  {| sigFgcm := zeros; saved := compSigFgcm (comp pars); logged := [] |}.

Definition withSaved (s : loopState) : FgcmParameters :=
  set_comp pars
    {| compExpGray := compExpGray (comp pars);
       compVarGray := compVarGray (comp pars);
       compNGoodStarPerExp := compNGoodStarPerExp (comp pars);
       compSigFgcm := saved s |}.

(** The loop over the bands when nothing ends it: the local [sigFgcm]
    and the parameters it leaves. *)
Definition completedRun : result error ((nat -> Q) * FgcmParameters) :=
  if negb (magStdComputed st) then Raise MagStdNotComputed
  else match esutil_match goodStars (obsObjIDIndex (catalog st))
                          (nStarObs (catalog st)) with
       | None => Raise EmptyMatch
       | Some _ =>
           match goodObs with
           | [] => Raise EmptyIndex
           | _ :: _ =>
               let s := fold_left bandBody (seq 0 (nBands (catalog st))) init in
               Ok (sigFgcm s, withSaved s)
           end
       end.

(** *** The name of the plot file

    [extraName] is assigned only in the plot part of a colour cut, which
    is reached when the cut is not skipped and [doPlots] is set; it is
    read by [fig.savefig] at the end of every band, whatever [doPlots]
    is.  The matplotlib calls themselves are taken to succeed. *)

(** Whether some colour cut of the band reaches [extraName = ...]. *)
Definition plotted (doPlots : bool) (bandIndex : nat) : bool :=
  doPlots
  && existsb (fun c => match sigUse bandIndex c with
                       | [] => false
                       | _ :: _ => true
                       end)
             (seq 0 4).

(** The loop over the bands; [bound] tells whether [extraName] has been
    assigned.  An exception leaves the values written so far. *)
Fixpoint bandsWithPlots (doPlots : bool) (bands : list nat) (bound : bool)
         (s : loopState) : loopState * option failure :=
  match bands with
  | [] => (s, None)
  | bandIndex :: rest =>
      let s' := bandBody s bandIndex in
      let bound' := bound || plotted doPlots bandIndex in
      if bound' then bandsWithPlots doPlots rest bound' s'
      else (s', Some ExtraNameUnbound)
  end.

(** The run of [computeSigFgcm(reserved, doPlots, save, crunch)]: the loop
    state it ends with, and the exception, if any. *)
Definition run (doPlots : bool) : loopState * option failure :=
  if negb (magStdComputed st) then (init, Some (Raised MagStdNotComputed))
  else match esutil_match goodStars (obsObjIDIndex (catalog st))
                          (nStarObs (catalog st)) with
       | None => (init, Some (Raised EmptyMatch))
       | Some _ =>
           match goodObs with
           | [] => (init, Some (Raised EmptyIndex))
           | _ :: _ =>
               bandsWithPlots doPlots (seq 0 (nBands (catalog st))) false init
           end
       end.

(** [computeSigFgcm(reserved, doPlots, save, crunch)]: the parameters as
    the call leaves them, and the exception, if any; [sigFgcmLog] is what
    the same run has logged. *)
Definition computeSigFgcm (doPlots : bool) : FgcmParameters * option failure :=
  (withSaved (fst (run doPlots)), snd (run doPlots)).

Definition sigFgcmLog (doPlots : bool) : list logLine :=
  logged (fst (run doPlots)).

End Model.
End SigFgcm.

(* ================================================================== *)
(** ** fgcmGray.py: the exposure grays of the initial selection and of
       the colour split *)
(* ================================================================== *)

Module ExpGray.

(** The attributes [FgcmGray.__init__] records for these two methods. *)
Record Config := {
  minStarPerExp : nat;
  colorSplitIndices : nat * nat;
  illegalValue : Q
}.

Inductive error : Type :=
| MagStdNotComputed     (* RuntimeError("Must run FgcmChisq to compute magStd ...") *)
| EmptyMatch            (* ValueError of [esutil.numpy_util.match] on an empty array *)
| EmptyIndex.           (* IndexError: gmiGO[st[0]] on an empty selection *)

(** [np.sqrt]: [nan] on a negative argument. *)
Definition np_sqrt {M : Libm} (x : Q) : SigFgcm.xfloat :=
  if Qltb x 0 then SigFgcm.NonFinite else SigFgcm.Finite (sqrt x).

(** Division of a float by an integer count: [inf] or [nan] on 0. *)
Definition np_divide (x : Q) (n : Z) : SigFgcm.xfloat :=
  if Z.eqb n 0 then SigFgcm.NonFinite else SigFgcm.Finite (x / inject_Z n).

(** The three sums kept per exposure. *)
Record ExpSums := {
  sGray : nat -> Q;
  sGraySq : nat -> Q;
  sNGood : nat -> nat
}.

(** What [computeExpGrayForInitialSelection] leaves in its arrays; the
    count array is [i4]. *)
Record InitialArrays := {
  expGrayForInitialSelection : nat -> Q;
  expGrayRMSForInitialSelection : nat -> SigFgcm.xfloat;
  expNGoodStarForInitialSelection : nat -> Z
}.

(** What [computeExpGrayColorSplit] leaves in its arrays, indexed by
    (exposure, colour cut); the count array is [i2]. *)
Record ColorSplitArrays := {
  expGrayColorSplit : nat * nat -> SigFgcm.xfloat;
  expGrayRMSColorSplit : nat * nat -> SigFgcm.xfloat;
  expGrayNGoodStarsColorSplit : nat * nat -> Z
}.

Section Model.
Context {M : Libm}.
Variable cfg : Config.
Variable st : FgcmStars.
Variable obsIndex : list nat.         (* fgcmStars.obsIndex *)

#[local] Abbreviation cat := (catalog st).

(** [EGray = np.zeros(nStarObs)], then
    [EGray[obsIndex] = objMagStdMean[...] - obsMagStd[obsIndex]]. *)
Definition EGray : nat -> Q :=
  put zeros obsIndex (map (Gray.EGray st) obsIndex).

(** [goodObs]: the observations of the good stars, cut on [obsFlag]. *)
Definition goodObs : list nat := Gray.goodObsFlagged st.

Definition expOf (o : nat) : nat := obsExpIndex cat o.

(** The block of three [np.add.at] calls for one selection. *)
Definition accumulate (s : ExpSums) (sel : list nat) : ExpSums :=
  {| sGray := add_at (sGray s) (map expOf sel) (map EGray sel);
     sGraySq := add_at (sGraySq s) (map expOf sel)
                       (map (fun o => sq (EGray o)) sel);
     sNGood := count_at (sNGood s) (map expOf sel) (map (fun _ => 1%nat) sel) |}.

Definition sums0 : ExpSums :=
  {| sGray := zeros; sGraySq := zeros; sNGood := zerosN |}.

(** *** [computeExpGrayForInitialSelection] *)

(** [goodObs[reqBandUse]] and [goodObs[extraBandUse]]. *)
Definition reqBandObs : list nat :=
  filter (fun o => memb (obsBandIndex cat o) (bandRequiredIndex cat)) goodObs.

Definition extraBandObs (extraBandIndex : nat) : list nat :=
  filter (fun o => Nat.eqb (obsBandIndex cat o) extraBandIndex
                   && (minObsPerBand cat
                       <=? objNGoodObs cat (obsObjIDIndex cat o, extraBandIndex))%nat)
         goodObs.

(** Required bands first, then the loop over the extra bands. *)
Definition initialSums : ExpSums :=
  fold_left (fun s eb => accumulate s (extraBandObs eb))
            (bandExtraIndex cat) (accumulate sums0 reqBandObs).

(** The [i4] array [expNGoodStarForInitialSelection] after the
    [np.add.at] calls. *)
Definition initialNGood (e : nat) : Z :=
  wrap_int 32 (Z.of_nat (sNGood initialSums e)).

(** [gd, = np.where(expNGoodStarForInitialSelection > 0)] *)
Definition gdInitial (e : nat) : bool := (0 <? initialNGood e)%Z.

Definition initialGray (e : nat) : Q :=
  if gdInitial e
  then sGray initialSums e / inject_Z (initialNGood e)
  else sGray initialSums e.

(** [np.sqrt((rms[gd] / n[gd]) - gray[gd]**2.)]: no guard on the sign. *)
Definition initialGrayRMS (e : nat) : SigFgcm.xfloat :=
  if gdInitial e
  then np_sqrt (sGraySq initialSums e / inject_Z (initialNGood e)
                - sq (initialGray e))
  else SigFgcm.Finite (sGraySq initialSums e).

(** [computeExpGrayForInitialSelection(doPlots)]; the plots are left
    out.  The two calls of [esutil.numpy_util.match] raise on an empty
    array, before the arrays are zeroed. *)
Definition computeExpGrayForInitialSelection : result error InitialArrays :=
  if negb (magStdComputed st) then Raise MagStdNotComputed
  else
    match esutil_match (Gray.goodStars st) (obsObjIDIndex cat) (nStarObs cat) with
    | None => Raise EmptyMatch
    | Some _ =>
        match esutil_match_in (bandRequiredIndex cat) (obsBandIndex cat) goodObs with
        | None => Raise EmptyMatch
        | Some _ =>
            Ok {| expGrayForInitialSelection := initialGray;
                  expGrayRMSForInitialSelection := initialGrayRMS;
                  expNGoodStarForInitialSelection := initialNGood |}
        end
    end.

(** *** [computeExpGrayColorSplit] *)

Definition gmi (o : nat) : Q :=
  objMagStdMean st (obsObjIDIndex cat o, fst (colorSplitIndices cfg))
  - objMagStdMean st (obsObjIDIndex cat o, snd (colorSplitIndices cfg)).

(** [gmiGO[st[k]]] with [st = np.argsort(gmiGO)]. *)
Definition gmiSorted : list Q := SigFgcm.sort (map gmi goodObs).

Definition quarter (k : nat) : Q :=
  nth (k * length gmiSorted / 4) gmiSorted 0.

(** [gmiCutLow[c]] and [gmiCutHigh[c]] for
    [c = 0 (Blue25), 1 (Middle50), 2 (Red25)]. *)
Definition gmiCutLow (c : nat) : Q :=
  match c with
  | 0%nat => nth 0 gmiSorted 0
  | 1%nat => quarter 1
  | _ => quarter 3
  end.

Definition gmiCutHigh (c : nat) : Q :=
  match c with
  | 0%nat => quarter 1
  | 1%nat => quarter 3
  | _ => last gmiSorted 0
  end.

(** [goodObs[use]] for one colour cut: every band is taken
    ([reqBandUse] is computed and not used). *)
Definition useObs (c : nat) : list nat :=
  filter (fun o => Qgtb (gmi o) (gmiCutLow c) && Qltb (gmi o) (gmiCutHigh c))
         goodObs.

Definition splitSums (c : nat) : ExpSums := accumulate sums0 (useObs c).

(** The arrays have the three columns [c = 0, 1, 2]; the count array
    [expGrayNGoodStarsColorSplit] is [i2]. *)
Definition splitNGood (ec : nat * nat) : Z :=
  let (e, c) := ec in wrap_int 16 (Z.of_nat (sNGood (splitSums c) e)).

(** [gd] and [bd] of one cut. *)
Definition gdSplit (c e : nat) : bool :=
  (Z.of_nat (minStarPerExp cfg) <=? splitNGood (e, c))%Z.
Definition bdSplit (c e : nat) : bool :=
  (splitNGood (e, c) <? Z.of_nat (minStarPerExp cfg))%Z.

(** [expGrayColorSplit[gd, c] /= expGrayNGoodStarsColorSplit[gd, c]]: a
    count of 0 passes [gd] when [minStarPerExp] is 0. *)
Definition splitMean (c e : nat) : SigFgcm.xfloat :=
  if gdSplit c e
  then np_divide (sGray (splitSums c) e) (splitNGood (e, c))
  else SigFgcm.Finite (sGray (splitSums c) e).

Definition splitGray (ec : nat * nat) : SigFgcm.xfloat :=
  let (e, c) := ec in
  if bdSplit c e then SigFgcm.Finite (illegalValue cfg) else splitMean c e.

(** [np.sqrt((rms[gd, c] / n[gd, c]) - gray[gd, c]**2.)]: no guard on the
    sign. *)
Definition splitGrayRMS (ec : nat * nat) : SigFgcm.xfloat :=
  let (e, c) := ec in
  if bdSplit c e then SigFgcm.Finite (illegalValue cfg)
  else if gdSplit c e
       then match splitMean c e with
            | SigFgcm.Finite mean =>
                np_sqrt (sGraySq (splitSums c) e / inject_Z (splitNGood (e, c))
                         - sq mean)
            | SigFgcm.NonFinite => SigFgcm.NonFinite
            end
       else SigFgcm.Finite (sGraySq (splitSums c) e).

(** [computeExpGrayColorSplit(doPlots)]; the plots are left out.  The
    match of the good stars raises on an empty array, [gmiGO[st[0]]] on an
    empty selection, the match of the required bands on an empty list of
    required bands. *)
Definition computeExpGrayColorSplit : result error ColorSplitArrays :=
  if negb (magStdComputed st) then Raise MagStdNotComputed
  else
    match esutil_match (Gray.goodStars st) (obsObjIDIndex cat) (nStarObs cat) with
    | None => Raise EmptyMatch
    | Some _ =>
        match goodObs with
        | [] => Raise EmptyIndex
        | _ :: _ =>
            match esutil_match_in (bandRequiredIndex cat) (obsBandIndex cat)
                                  goodObs with
            | None => Raise EmptyMatch
            | Some _ =>
                Ok {| expGrayColorSplit := splitGray;
                      expGrayRMSColorSplit := splitGrayRMS;
                      expGrayNGoodStarsColorSplit := splitNGood |}
            end
        end
    end.

(** *** The selections in the words of the properties *)

(** The observations that enter the initial exposure gray, and those of
    one exposure. *)
Definition initialObs : list nat :=
  reqBandObs ++ flat_map extraBandObs (bandExtraIndex cat).

Definition onExposure (e : nat) (sel : list nat) : list nat :=
  filter (fun o => Nat.eqb e (expOf o)) sel.

End Model.
End ExpGray.

(* ================================================================== *)
(** ** fgcmApertureCorrection.py: [FgcmApertureCorrection] *)
(* ================================================================== *)

Module ApertureCorrection.
Import SigFgcm.

Record Config := {
  aperCorrFitNBins : nat;
  illegalValue : Q
}.

(** The attributes of [FgcmParameters] that only this file uses: the
    band and the seeing variable of every exposure, and the computed
    aperture-correction arrays ([compAperCorrRange[k, band]] is held at
    [(k, band)]). *)
Record AperPars := {
  nBands : nat;
  expBandIndex : nat -> nat;
  expSeeingVariable : nat -> xfloat;
  compAperCorrRange : nat * nat -> Q;
  compAperCorrPivot : nat -> Q;
  compAperCorrSlope : nat -> Q;
  compAperCorrSlopeErr : nat -> Q
}.

(** A row of the structure [dataBinner] returns. *)
Record Bin := {
  X_BIN : Q;
  Y : Q;
  Y_ERR : Q
}.

(** [fgcmUtilities.dataBinner(x, y, binSize, range)] and the weighted
    straight-line fit [np.polyfit(x, y, 1, w=w, cov=True)], of which the
    slope [fit[0]] and its variance [cov[0,0]] are used. *)
Class Fitting := {
  dataBinner : list Q -> list Q -> Q -> Q * Q -> list Bin;
  polyfit : list Q -> list Q -> list Q -> Q * xfloat
}.

Inductive error : Type :=
| EmptyReduction        (* ValueError: np.max / np.min of an empty array *)
| EmptyIndex.           (* IndexError: use[int(0.02*use.size)] on an empty selection *)

(** [np.max] and [np.min] of a non-empty array. *)
Definition maxOf (x : Q) (l : list Q) : Q :=
  fold_left (fun m y => if Qltb m y then y else m) l x.
Definition minOf (x : Q) (l : list Q) : Q :=
  fold_left (fun m y => if Qltb y m then y else m) l x.

(** [np.clip(x, lo, hi)]: [minimum(maximum(x, lo), hi)]. *)
Definition clip (x lo hi : Q) : Q :=
  let y := if Qltb x lo then lo else x in
  if Qltb hi y then hi else y.

(** [l[np.argsort(key[l])]]: the indices ordered by their key. *)
Fixpoint insertBy (key : nat -> Q) (e : nat) (l : list nat) : list nat :=
  match l with
  | [] => [e]
  | e' :: l' => if Qle_bool (key e) (key e') then e :: l
                else e' :: insertBy key e l'
  end.

Definition orderBy (key : nat -> Q) (l : list nat) : list nat :=
  fold_right (insertBy key) [] l.

(** The entries of band [j] in the four computed arrays. *)
Definition entries (a : AperPars) (j : nat) : Q * Q * Q * Q * Q :=
  (compAperCorrRange a (0%nat, j), compAperCorrRange a (1%nat, j),
   compAperCorrPivot a j, compAperCorrSlope a j, compAperCorrSlopeErr a j).

Section Model.
Context {M : Libm} {F : Fitting}.
Variable cfg : Config.
Variable pars : FgcmParameters.
Variable expGray : nat -> Q.          (* fgcmGray.expGray *)

(** The seeing variable of an exposure where it is finite. *)
Definition seeing (ap : AperPars) (e : nat) : Q :=
  match expSeeingVariable ap e with
  | Finite x => x
  | NonFinite => 0
  end.

(** [np.max(compAperCorrRange[1,:]) > np.min(compAperCorrRange[0,:])]:
    whether an old correction is removed; [None] on an empty array. *)
Definition hasOldCorrection (ap : AperPars) : option bool :=
  match seq 0 (nBands ap) with
  | [] => None
  | b :: bs =>
      Some (Qgtb (maxOf (compAperCorrRange ap (1%nat, b))
                        (map (fun b' => compAperCorrRange ap (1%nat, b')) bs))
                 (minOf (compAperCorrRange ap (0%nat, b))
                        (map (fun b' => compAperCorrRange ap (0%nat, b')) bs)))
  end.

Definition oldAperCorr (ap : AperPars) (e : nat) : Q :=
  let b := expBandIndex ap e in
  compAperCorrSlope ap b
  * (clip (seeing ap e) (compAperCorrRange ap (0%nat, b))
          (compAperCorrRange ap (1%nat, b))
     - compAperCorrPivot ap b).

(** [expGrayTemp], read at the exposures whose seeing is finite only. *)
Definition expGrayTemp (ap : AperPars) (remove : bool) (e : nat) : Q :=
  if remove then expGray e - oldAperCorr ap e else expGray e.

(** [expIndexUse[use]] for band [i], before the sort. *)
Definition bandExposures (ap : AperPars) (i : nat) : list nat :=
  filter (fun e => Nat.eqb (expBandIndex ap e) i
                   && match expSeeingVariable ap e with
                      | Finite x => Qgtb x (illegalValue cfg)
                      | NonFinite => false
                      end)
         (np_where (nExp pars) (fun e => Z.eqb (expFlag (exps pars) e) 0)).

(** The same exposures ordered by their seeing. *)
Definition bandUse (ap : AperPars) (i : nat) : list nat :=
  orderBy (seeing ap) (bandExposures ap i).

(** [expSeeingVariable[expIndexUse[use[int(0.02*use.size)]]]] and the same
    at [int(0.98*use.size)]; the truncated products are [2n/100] and
    [98n/100]. *)
Definition bandRangeLow (ap : AperPars) (i : nat) : Q :=
  let use := bandUse ap i in
  seeing ap (nth (2 * length use / 100) use O).

Definition bandRangeHigh (ap : AperPars) (i : nat) : Q :=
  let use := bandUse ap i in
  seeing ap (nth (98 * length use / 100) use O).

(** [np.floor(np.median(...) * 1000) / 1000.] *)
Definition bandPivot (ap : AperPars) (i : nat) : Q :=
  inject_Z (Qfloor (median (map (seeing ap) (bandUse ap i)) * 1000)) / 1000.

(** The bins with a positive error; the range is read back from the
    container. *)
Definition goodBins (ap : AperPars) (temp : nat -> Q) (i : nat) : list Bin :=
  let use := bandUse ap i in
  let lo := compAperCorrRange ap (0%nat, i) in
  let hi := compAperCorrRange ap (1%nat, i) in
  let binSize := (hi - lo) / inject_Z (Z.of_nat (aperCorrFitNBins cfg)) in
  filter (fun r => Qgtb (Y_ERR r) 0)
         (dataBinner (map (seeing ap) use) (map temp use) binSize (lo, hi)).

(** [np.sqrt(binStruct['Y_ERR']**2. + 0.001**2.)] *)
Definition inflated (r : Bin) : Q := sqrt (sq (Y_ERR r) + sq (1 # 1000)).

Definition bandFit (ap : AperPars) (temp : nat -> Q) (i : nat) : Q * xfloat :=
  let bins := goodBins ap temp i in
  polyfit (map (fun r => X_BIN r - compAperCorrPivot ap i) bins)
          (map Y bins)
          (map (fun r => sq (1 / inflated r)) bins).

(** The slope and its error for band [i]: 0 and 0 with fewer than three
    bins or a negative or non-finite variance. *)
Definition bandSlope (ap : AperPars) (temp : nat -> Q) (i : nat) : Q * Q :=
  if (length (goodBins ap temp i) <? 3)%nat then (0, 0)
  else match bandFit ap temp i with
       | (slope, Finite v) => if Qltb v 0 then (0, 0) else (slope, sqrt v)
       | (_, NonFinite) => (0, 0)
       end.

(** The body of the loop over the bands: the range and the pivot are
    written first, the fit reads them back. *)
Definition bandStep (temp : nat -> Q) (ap : AperPars) (i : nat)
  : result error AperPars :=
  match bandUse ap i with
  | [] => Raise EmptyIndex
  | _ :: _ =>
      let range' := put_one (put_one (compAperCorrRange ap) (0%nat, i)
                                     (bandRangeLow ap i))
                            (1%nat, i) (bandRangeHigh ap i) in
      let pivot' := put_one (compAperCorrPivot ap) i (bandPivot ap i) in
      let ap1 := {| nBands := nBands ap; expBandIndex := expBandIndex ap;
                    expSeeingVariable := expSeeingVariable ap;
                    compAperCorrRange := range';
                    compAperCorrPivot := pivot';
                    compAperCorrSlope := compAperCorrSlope ap;
                    compAperCorrSlopeErr := compAperCorrSlopeErr ap |} in
      let fit := bandSlope ap1 temp i in
      Ok {| nBands := nBands ap; expBandIndex := expBandIndex ap;
            expSeeingVariable := expSeeingVariable ap;
            compAperCorrRange := range';
            compAperCorrPivot := pivot';
            compAperCorrSlope := put_one (compAperCorrSlope ap) i (fst fit);
            compAperCorrSlopeErr := put_one (compAperCorrSlopeErr ap) i (snd fit) |}
  end.

(** The loop: the container it leaves, and the exception that ended it
    if one did. *)
Fixpoint bandLoop (temp : nat -> Q) (ap : AperPars) (bands : list nat)
  : AperPars * option error :=
  match bands with
  | [] => (ap, None)
  | i :: rest =>
      match bandStep temp ap i with
      | Raise err => (ap, Some err)
      | Ok ap' => bandLoop temp ap' rest
      end
  end.

(** [computeApertureCorrections(doPlots)]; the plots are left out. *)
Definition computeApertureCorrections (ap : AperPars) : AperPars * option error :=
  match hasOldCorrection ap with
  | None => (ap, Some EmptyReduction)
  | Some remove => bandLoop (expGrayTemp ap remove) ap (seq 0 (nBands ap))
  end.

End Model.
End ApertureCorrection.

(* ================================================================== *)
(** ** fgcmChisq.py: [FgcmChisq] *)
(* ================================================================== *)

Module Chisq.

(** Attributes fixed by [__init__] from the configuration, and the two
    flag constants imported from [fgcmUtilities]. *)
Record Config := {
  nCore : nat;
  ccdStartIndex : nat;
  nStarPerRun : nat;
  noChromaticCorrections : bool;
  I10StdBand : nat -> Q;
  illegalValue : Q;
  useSedLUT : bool;
  flagRESERVED : Z;                   (* objFlagDict['RESERVED'] *)
  flagEXPOSURE_RETRIEVED : Z          (* retrievalFlagDict['EXPOSURE_RETRIEVED'] *)
}.

(** The keyword arguments of [__call__]; [fgcmGray] is the [ccdGray] array
    of the [FgcmGray] object when one is passed. *)
Record Options := {
  fitterUnits : bool;
  computeDerivatives : bool;
  computeSEDSlopes : bool;
  useMatchCache : bool;
  debug : bool;
  allExposures : bool;
  includeReserve : bool;
  fgcmGray : option (nat * nat -> Q)
}.

(** What [computeLogDerivatives] returns for one observation. *)
Record LogDerivs := {
  dLdPWV : Q;
  dLdO3 : Q;
  dLdTau : Q;
  dLdAlpha : Q
}.

Definition addLogDerivs (a b : LogDerivs) : LogDerivs :=
  {| dLdPWV := dLdPWV a + dLdPWV b; dLdO3 := dLdO3 a + dLdO3 b;
     dLdTau := dLdTau a + dLdTau b; dLdAlpha := dLdAlpha a + dLdAlpha b |}.

(** The look-up table collaborator ([FgcmLUT]), one observation at a time. *)
Class FgcmLUT := {
  lutIndices : Type;
  getIndices : nat -> Q -> Q -> Q -> Q -> Q -> nat -> Q -> lutIndices;
  computeI0 : Q -> Q -> Q -> Q -> Q -> Q -> lutIndices -> Q;
  computeI1 : Q -> Q -> Q -> Q -> Q -> Q -> lutIndices -> Q;
  computeLogDerivatives : lutIndices -> Q -> LogDerivs;
  computeLogDerivativesI1 : lutIndices -> Q -> Q -> Q -> LogDerivs;
  hasI1Derivatives : bool
}.

(** [fgcmPars.getUnitDict(fitterUnits)]. *)
Record UnitDict := {
  o3Unit : Q;
  alphaUnit : Q;
  pwvUnit : Q;
  pwvGlobalUnit : Q;
  pwvPerSlopeUnit : Q;
  tauUnit : Q;
  lnTauUnit : Q;
  lnTauSlopeUnit : Q;
  qeSysUnit : Q;
  qeSysSlopeUnit : Q
}.

(** The methods of [FgcmParameters] and [FgcmStars] that [FgcmChisq]
    calls. *)
Class ParsMethods := {
  reloadParArray : FgcmParameters -> list Q -> bool -> FgcmParameters;
  parsToExposures : FgcmParameters -> FgcmParameters;
  getUnitDict : FgcmParameters -> bool -> UnitDict
}.

Class StarsMethods := {
  computeObjectSEDSlopes : FgcmStars -> list nat -> FgcmStars;
  computeObjectSEDSlopesLUT : FgcmStars -> list nat -> FgcmStars
}.

(** The attributes of the [FgcmChisq] object that outlive a call. *)
Record Engine := {
  fitChisqs : list Q;
  nActualFitPars : nat;
  matchCache : option (list nat * list nat)   (* goodStarsSub, goodObs *)
}.

Record State := {
  engine : Engine;
  fgcmPars : FgcmParameters;
  fgcmStars : FgcmStars
}.

(** What [__call__] returns: [fitChisq], and [dChisqdP] when derivatives
    were asked for. *)
Record Output := {
  fitChisq : Q;
  dChisqdP : option (list Q)
}.

Inductive error : Type :=
| CannotSetAllExposures   (* ValueError("Cannot set allExposures and ...") *)
| NoGoodStars             (* ValueError("No good stars to fit!") *)
| StrangeFirstMatch       (* ValueError("Very strange that the goodStarsSub ...") *)
| TooManyParameters       (* ValueError("Number of parameters fitted is more ...") *)
| IndexError              (* [...][0] on an empty array *)
| EmptyMatch              (* ValueError of [esutil.numpy_util.match] at line 204 *)
| ZeroDivision            (* ZeroDivisionError of [goodStars.size // nStarPerRun] *)
| WorkerEmptyMatch        (* ValueError of [esutil.numpy_util.match] in [_worker] *)
| WorkerIndexError.       (* IndexError of [np.add.at] on a derivative accumulator *)

(** The exceptions [__call__] raises with a [raise] statement of its own. *)
Definition isOwnValueError (e : error) : bool :=
  match e with
  | CannotSetAllExposures | NoGoodStars | StrangeFirstMatch | TooManyParameters =>
      true
  | IndexError | EmptyMatch | ZeroDivision | WorkerEmptyMatch | WorkerIndexError =>
      false
  end.

(** Writes to the star store. *)
Definition set_objMeans (st : FgcmStars) (mean noChrom err : nat * nat -> Q)
  : FgcmStars :=
  {| catalog := catalog st;
     objMagStdMean := mean; objMagStdMeanNoChrom := noChrom;
     objMagStdMeanErr := err; objSEDSlope := objSEDSlope st;
     obsMagStd := obsMagStd st; magStdComputed := magStdComputed st;
     allMagStdComputed := allMagStdComputed st |}.

(** The part of the store a call may leave different when it is repeated:
    [obsMagStd] and the two "computed" flags. *)
Definition set_volatile (st : FgcmStars) (magStd : nat -> Q) (c ac : bool)
  : FgcmStars :=
  {| catalog := catalog st;
     objMagStdMean := objMagStdMean st;
     objMagStdMeanNoChrom := objMagStdMeanNoChrom st;
     objMagStdMeanErr := objMagStdMeanErr st; objSEDSlope := objSEDSlope st;
     obsMagStd := magStd; magStdComputed := c; allMagStdComputed := ac |}.

Definition set_obsMagStd (st : FgcmStars) (magStd : nat -> Q) : FgcmStars :=
  set_volatile st magStd (magStdComputed st) (allMagStdComputed st).

Definition set_computed (st : FgcmStars) (c ac : bool) : FgcmStars :=
  set_volatile st (obsMagStd st) c ac.

(** [np.array_split(l, n)]: [n] sections, the first [len mod n] of them
    one element longer. *)
Fixpoint array_split_aux {A} (l : list A) (sizes : list nat) : list (list A) :=
  match sizes with
  | [] => []
  | k :: ks => firstn k l :: array_split_aux (skipn k l) ks
  end.

Definition array_split {A} (l : list A) (n : nat) : list (list A) :=
  let len := length l in
  array_split_aux l
    (map (fun i => if (i <? len mod n)%nat then S (len / n) else (len / n)%nat)
         (seq 0 n)).

(** [np.searchsorted(a, v)] on an ascending [a]: the first position whose
    value is not below [v]. *)
Fixpoint searchsorted (a : list nat) (v : nat) : nat :=
  match a with
  | [] => O
  | x :: a' => if (x <? v)%nat then S (searchsorted a' v) else O
  end.

(** [np.split(l, indices)]: [l[0:i1], l[i1:i2], ..., l[ik:]]. *)
Fixpoint np_split_from {A} (l : list A) (start : nat) (indices : list nat)
  : list (list A) :=
  match indices with
  | [] => [skipn start l]
  | i :: rest => skipn start (firstn i l) :: np_split_from l i rest
  end.

Definition np_split {A} (l : list A) (indices : list nat) : list (list A) :=
  np_split_from l 0 indices.

(** [list.sort(key=lambda elt: elt[1].size, reverse=True)]: stable, the
    largest observation lists first. *)
Fixpoint insert_by_size (w : list nat * list nat)
  (l : list (list nat * list nat)) : list (list nat * list nat) :=
  match l with
  | [] => [w]
  | x :: l' => if (length (snd x) <=? length (snd w))%nat then w :: l
               else x :: insert_by_size w l'
  end.

Definition sort_by_size (l : list (list nat * list nat))
  : list (list nat * list nat) :=
  fold_right insert_by_size [] l.

(** The first elements of the sections after the first one
    ([goodStarsList[i][0]]); [None] when one of them is empty. *)
Fixpoint firsts (ls : list (list nat)) : option (list nat) :=
  match ls with
  | [] => Some []
  | l :: rest =>
      match l, firsts rest with
      | x :: _, Some xs => Some (x :: xs)
      | _, _ => None
      end
  end.

Section Worker.
Context {M : Libm} {L : FgcmLUT} {PM : ParsMethods} {SM : StarsMethods}.
Variable cfg : Config.
Variable opts : Options.
Variable pars : FgcmParameters.       (* self.fgcmPars, after the reload *)

(** *** Columns cut to the good observations

    A column [xGO] of the source is held as the function [x] of the
    observation index: [xGO[k]] is [x (goodObs[k])].  [cat] is the
    catalog, from which the index columns are cut. *)
Section Columns.
Variable cat : StarCatalog.

Definition obsCCDIndex (o : nat) : nat := (obsCCD cat o - ccdStartIndex cfg)%nat.
Definition objBand (o : nat) : nat * nat := (obsObjIDIndex cat o, obsBandIndex cat o).

Definition lutIndicesGO (o : nat) : lutIndices :=
  let e := obsExpIndex cat o in
  getIndices (obsLUTFilterIndex cat o)
             (expPWV (exps pars) e) (expO3 (exps pars) e)
             (expLnTau (exps pars) e) (expAlpha (exps pars) e)
             (obsSecZenith cat o) (obsCCDIndex o) (expPmb (exps pars) e).

Definition I0GO (o : nat) : Q :=
  let e := obsExpIndex cat o in
  computeI0 (expPWV (exps pars) e) (expO3 (exps pars) e)
            (expLnTau (exps pars) e) (expAlpha (exps pars) e)
            (obsSecZenith cat o) (expPmb (exps pars) e) (lutIndicesGO o).

Definition I10GO (o : nat) : Q :=
  let e := obsExpIndex cat o in
  computeI1 (expPWV (exps pars) e) (expO3 (exps pars) e)
            (expLnTau (exps pars) e) (expAlpha (exps pars) e)
            (obsSecZenith cat o) (expPmb (exps pars) e) (lutIndicesGO o)
  / I0GO o.

(** [obsMagGO], with the "CCD gray crunch" when [fgcmGray] is given. *)
Definition obsMagGO (o : nat) : Q :=
  let e := obsExpIndex cat o in
  let m := obsMagADU cat o + (25 # 10) * log10 (I0GO o) + expQESys (exps pars) e in
  match fgcmGray opts with
  | Some ccdGray =>
      if Qgtb (ccdGray (e, obsCCDIndex o)) (illegalValue cfg)
      then m + ccdGray (e, obsCCDIndex o) else m
  | None => m
  end.

Definition obsMagErr2GO (o : nat) : Q := sq (obsMagADUModelErr cat o).

(** [deltaStdGO], from the SED slopes of the store [cur]. *)
Definition deltaStdGO (cur : FgcmStars) (o : nat) : Q :=
  let d := (25 # 10)
           * log10 ((1 + objSEDSlope cur (objBand o) * I10GO o)
                    / (1 + objSEDSlope cur (objBand o)
                           * I10StdBand cfg (obsBandIndex cat o))) in
  if noChromaticCorrections cfg then d * 0 else d.

(** The [computeSEDSlopes] block: mean magnitudes from [obsMagGO], then
    the SED-slope fit of the star store. *)
Definition sedSlopeBlock (st : FgcmStars) (goodStars goodObs : list nat)
  : FgcmStars :=
  let keys := map objBand goodObs in
  let wtSum := add_at zeros keys (map (fun o => 1 / obsMagErr2GO o) goodObs) in
  let objMagStdMeanTemp :=
    add_at zeros keys (map (fun o => obsMagGO o / obsMagErr2GO o) goodObs) in
  let st1 :=
    set_objMeans st
      (fun c => if Qgtb (wtSum c) 0 then objMagStdMeanTemp c / wtSum c
                else objMagStdMean st c)
      (objMagStdMeanNoChrom st)
      (fun c => if Qgtb (wtSum c) 0 then sqrt (1 / wtSum c)
                else objMagStdMeanErr st c) in
  if useSedLUT cfg then computeObjectSEDSlopesLUT st1 goodStars
  else computeObjectSEDSlopes st1 goodStars.

(** *** Mean magnitudes

    [GO] pairs every good observation with its standardized magnitude as
    read back from the shared array ([obsMagStdGO]). *)
Definition row : Type := (nat * Q)%type.

Definition meanWtSum (GO : list row) : nat * nat -> Q :=
  add_at zeros (map (fun r => objBand (fst r)) GO)
         (map (fun r => 1 / obsMagErr2GO (fst r)) GO).

Definition meanTemp (GO : list row) : nat * nat -> Q :=
  add_at zeros (map (fun r => objBand (fst r)) GO)
         (map (fun r => snd r / obsMagErr2GO (fst r)) GO).

Definition meanNoChromTemp (GO : list row) : nat * nat -> Q :=
  add_at zeros (map (fun r => objBand (fst r)) GO)
         (map (fun r => obsMagGO (fst r) / obsMagErr2GO (fst r)) GO).

(** [objMagStdMean[gd] = ...], [objMagStdMeanNoChrom[gd] = ...],
    [objMagStdMeanErr[gd] = ...] with [gd = np.where(wtSum > 0.0)]. *)
Definition writeMeans (cur : FgcmStars) (GO : list row) : FgcmStars :=
  let wtSum := meanWtSum GO in
  set_objMeans cur
    (fun c => if Qgtb (wtSum c) 0 then meanTemp GO c / wtSum c
              else objMagStdMean cur c)
    (fun c => if Qgtb (wtSum c) 0 then meanNoChromTemp GO c / wtSum c
              else objMagStdMeanNoChrom cur c)
    (fun c => if Qgtb (wtSum c) 0 then sqrt (1 / wtSum c)
              else objMagStdMeanErr cur c).

(** *** Chi-squared

    The arrays [objMagStdMean], [objMagStdMeanErr] and [objSEDSlope] as the
    worker holds them once the mean magnitudes are written. *)
Section Sums.
Variable meanMag : nat * nat -> Q.
Variable meanMagErr : nat * nat -> Q.
Variable sedSlope : nat * nat -> Q.

Definition deltaMagGO (r : row) : Q := snd r - meanMag (objBand (fst r)).
Definition obsWeightGO (r : row) : Q := 1 / obsMagErr2GO (fst r).
Definition deltaMagWeightedGOF (r : row) : Q := deltaMagGO r * obsWeightGO r.
Definition objMagStdMeanErr2GO (r : row) : Q :=
  sq (meanMagErr (objBand (fst r))).

(** [GO[obsFitUseGO]]: the observations in a fit band. *)
Definition fitUse (GO : list row) : list row :=
  filter (fun r => memb (obsBandIndex cat (fst r)) (fitBandIndex pars)) GO.

Definition partialChisq (GO : list row) : Q :=
  sum (map (fun r => sq (deltaMagGO r) * obsWeightGO r) (fitUse GO)).

(** [self.nSums] *)
Definition nSums : nat :=
  if computeDerivatives opts then (2 + 2 * nFitPars (layout pars))%nat else 2%nat.

(** [partialArray] before the derivatives. *)
Definition partialArray0 (GO : list row) : nat -> Q :=
  put_one (put_one zeros (nSums - 2)%nat (partialChisq GO))
          (nSums - 1)%nat (inject_Z (Z.of_nat (length (fitUse GO)))).

(** *** Derivatives *)

Definition logDerivsGO (o : nat) : LogDerivs :=
  let d := computeLogDerivatives (lutIndicesGO o) (I0GO o) in
  if hasI1Derivatives
  then addLogDerivs d (computeLogDerivativesI1 (lutIndicesGO o) (I0GO o) (I10GO o)
                                               (sedSlope (objBand o)))
  else d.

Definition expOf (r : row) : nat := obsExpIndex cat (fst r).
Definition bandOf (r : row) : nat := obsBandIndex cat (fst r).
Definition nightOf (r : row) : nat := expNightIndex (exps pars) (expOf r).
Definition washOf (r : row) : nat := expWashIndex (exps pars) (expOf r).

(** The pair [np.add.at(magd, (idx, band), dval / err2)],
    [np.multiply.at(magd, (idx, band), objMagStdMeanErr2)] on a zeroed
    two-axis array. *)
Definition magd2 (sel : list row) (idx : row -> nat) (dval : row -> Q)
  : nat * nat -> Q :=
  let keys := map (fun r => (idx r, bandOf r)) sel in
  multiply_at
    (add_at zeros keys (map (fun r => dval r / obsMagErr2GO (fst r)) sel))
    keys (map objMagStdMeanErr2GO sel).

(** The same pair on a zeroed per-band array. *)
Definition magd1 (sel : list row) (dval : row -> Q) : nat -> Q :=
  let keys := map bandOf sel in
  multiply_at
    (add_at zeros keys (map (fun r => dval r / obsMagErr2GO (fst r)) sel))
    keys (map objMagStdMeanErr2GO sel).

(** A family with one parameter per night (or wash interval):
    [np.add.at(partialArray[loc:loc+n], idx, dmw * (dval - magdSub[idx, band]))],
    [partialArray[loc + U] *= 2 / unit],
    [partialArray[nFitPars + loc + T] += 1]. *)
Definition perIndexFamily (p : nat -> Q) (loc : nat) (sel : list row)
  (idx : row -> nat) (dval : row -> Q) (magdSub : nat * nat -> Q)
  (U : list nat) (unit : Q) (T : list nat) : nat -> Q :=
  let p1 := add_at p (map (fun r => (loc + idx r)%nat) sel)
                   (map (fun r => deltaMagWeightedGOF r
                                  * (dval r - magdSub (idx r, bandOf r))) sel) in
  let p2 := inplace Qmult p1 (map (Nat.add loc) U) (2 / unit) in
  inplace Qplus p2 (map (fun u => (nFitPars (layout pars) + loc + u)%nat) T) 1.

(** A family with a single global parameter:
    [partialArray[loc] = 2.0 * (np.sum(dmw * (dval - magdSub[band])) / unit)],
    [partialArray[nFitPars + loc] += 1]. *)
Definition globalFamily (p : nat -> Q) (loc : nat) (sel : list row)
  (dval : row -> Q) (magdSub : nat -> Q) (unit : Q) : nat -> Q :=
  let p1 := put_one p loc
              (2 * (sum (map (fun r => deltaMagWeightedGOF r
                                       * (dval r - magdSub (bandOf r))) sel)
                    / unit)) in
  put_one p1 (nFitPars (layout pars) + loc)%nat
          (p1 (nFitPars (layout pars) + loc)%nat + 1).

(** The per-observation factors of the families. *)
Definition dO3 (r : row) : Q := dLdO3 (logDerivsGO (fst r)).
Definition dAlpha (r : row) : Q := dLdAlpha (logDerivsGO (fst r)).
Definition dPWV (r : row) : Q := dLdPWV (logDerivsGO (fst r)).
Definition dTau (r : row) : Q := dLdTau (logDerivsGO (fst r)).
Definition dPWVScale (r : row) : Q := expPWV (exps pars) (expOf r) * dPWV r.
Definition dPWVPerSlope (r : row) : Q :=
  expDeltaUT (exps pars) (expOf r) * expPWV (exps pars) (expOf r) * dPWV r.
Definition dTauScale (r : row) : Q := expTau (exps pars) (expOf r) * dTau r.
Definition dTauPerSlope (r : row) : Q := expDeltaUT (exps pars) (expOf r) * dTau r.
Definition dWashIntercept (r : row) : Q := 1.
Definition dWashSlope (r : row) : Q :=
  expMJD (exps pars) (expOf r) - washMJDs (exps pars) (washOf r).

Section Blocks.
Variable GO : list row.
Let GOF : list row := fitUse GO.
Let units : UnitDict := getUnitDict pars (fitterUnits opts).
Let lay : ParLayout := layout pars.

Definition uNightIndex : list nat := unique (map nightOf GOF).
Definition uWashIndex : list nat := unique (map washOf GOF).

(** O3 *)
Definition magdLdO3 : nat * nat -> Q := magd2 GOF nightOf dO3.

Definition blockO3 (p : nat -> Q) : nat -> Q :=
  perIndexFamily p (parO3Loc lay) GOF nightOf dO3 magdLdO3
                 uNightIndex (o3Unit units) uNightIndex.

(** Alpha *)
Definition magdLdAlpha : nat * nat -> Q := magd2 GOF nightOf dAlpha.

Definition blockAlpha (p : nat -> Q) : nat -> Q :=
  perIndexFamily p (parAlphaLoc lay) GOF nightOf dAlpha magdLdAlpha
                 uNightIndex (alphaUnit units) uNightIndex.

(** PWV External: [if hasExternalPWV and not useRetrievedPWV] *)
Definition pwvExternal : bool :=
  hasExternalPWV (modes pars) && negb (useRetrievedPWV (modes pars)).

Definition hasExtPWVGOF : list row :=
  filter (fun r => externalPWVFlag (exps pars) (expOf r)) GOF.

Definition magdLdPWVOffset : nat * nat -> Q :=
  if pwvExternal then magd2 hasExtPWVGOF nightOf dPWV else zeros.

Definition magdLdPWVScale : nat -> Q :=
  if pwvExternal then magd1 hasExtPWVGOF dPWVScale else zeros.

Definition blockPWVExternal (p : nat -> Q) : nat -> Q :=
  if pwvExternal then
    let uNightIndexHasExt := unique (map nightOf hasExtPWVGOF) in
    let p1 := perIndexFamily p (parExternalPWVOffsetLoc lay) hasExtPWVGOF
                nightOf dPWV magdLdPWVOffset
                uNightIndexHasExt (pwvUnit units) uNightIndexHasExt in
    globalFamily p1 (parExternalPWVScaleLoc lay) hasExtPWVGOF dPWVScale
                 magdLdPWVScale (pwvGlobalUnit units)
  else p.

(** PWV Retrieved: [if useRetrievedPWV] *)
Definition hasRetrievedPWVGOF : list row :=
  filter (fun r => Z.ltb 0 (Z.land (compRetrievedPWVFlag (exps pars) (expOf r))
                                   (flagEXPOSURE_RETRIEVED cfg))) GOF.

Definition magdLdPWVRetrievedScale : nat -> Q := magd1 hasRetrievedPWVGOF dPWVScale.
Definition magdLdPWVRetrievedNightlyOffset : nat * nat -> Q :=
  magd2 hasRetrievedPWVGOF nightOf dPWV.
Definition magdLdPWVRetrievedOffset : nat -> Q := magd1 hasRetrievedPWVGOF dPWV.

Definition blockPWVRetrieved (p : nat -> Q) : nat -> Q :=
  match hasRetrievedPWVGOF with
  | [] => p
  | _ :: _ =>
      let p1 := globalFamily p (parRetrievedPWVScaleLoc lay) hasRetrievedPWVGOF
                  dPWVScale magdLdPWVRetrievedScale (pwvGlobalUnit units) in
      if useNightlyRetrievedPWV (modes pars) then
        let uNightIndexHasRetrievedPWV := unique (map nightOf hasRetrievedPWVGOF) in
        perIndexFamily p1 (parRetrievedPWVNightlyOffsetLoc lay)
          hasRetrievedPWVGOF nightOf dPWV magdLdPWVRetrievedNightlyOffset
          uNightIndexHasRetrievedPWV (pwvUnit units) uNightIndexHasRetrievedPWV
      else
        globalFamily p1 (parRetrievedPWVOffsetLoc lay) hasRetrievedPWVGOF dPWV
                     magdLdPWVRetrievedOffset (pwvGlobalUnit units)
  end.

(** PWV No External: the [else] of [if useRetrievedPWV].  The nightly
    intercept subtracts [magdLdPWVOffset]; [magdLdPWVIntercept] is filled
    and not read.  The per-cent slope is scaled on [uNightIndex] and its
    touch counter is bumped at the first night only. *)
Definition noExtPWVGOF : list row :=
  filter (fun r => negb (externalPWVFlag (exps pars) (expOf r))) GOF.

Definition magdLdPWVIntercept : nat * nat -> Q := magd2 noExtPWVGOF nightOf dPWV.
Definition magdLdPWVPerSlope : nat * nat -> Q :=
  magd2 noExtPWVGOF nightOf dPWVPerSlope.

Definition blockPWVNoExternal (p : nat -> Q) : nat -> Q :=
  let uNightIndexNoExt := unique (map nightOf noExtPWVGOF) in
  let p1 := perIndexFamily p (parPWVInterceptLoc lay) noExtPWVGOF nightOf dPWV
              magdLdPWVOffset uNightIndexNoExt (pwvUnit units) uNightIndexNoExt in
  perIndexFamily p1 (parPWVPerSlopeLoc lay) noExtPWVGOF nightOf dPWVPerSlope
                 magdLdPWVPerSlope uNightIndex (pwvPerSlopeUnit units) [O].

Definition blockPWV (p : nat -> Q) : nat -> Q :=
  if useRetrievedPWV (modes pars) then blockPWVRetrieved p
  else blockPWVNoExternal p.

(** Tau External: [if hasExternalTau].  The global scale subtracts
    [magdLdPWVScale]; [magdLdTauScale] is filled and not read. *)
Definition hasExtTauGOF : list row :=
  filter (fun r => externalTauFlag (exps pars) (expOf r)) GOF.

Definition magdLdTauOffset : nat * nat -> Q :=
  if hasExternalTau (modes pars) then magd2 hasExtTauGOF nightOf dTau else zeros.

Definition magdLdTauScale : nat -> Q :=
  if hasExternalTau (modes pars) then magd1 hasExtTauGOF dTauScale else zeros.

Definition blockTauExternal (p : nat -> Q) : nat -> Q :=
  if hasExternalTau (modes pars) then
    let uNightIndexHasExt := unique (map nightOf hasExtTauGOF) in
    let p1 := perIndexFamily p (parExternalTauOffsetLoc lay) hasExtTauGOF
                nightOf dTau magdLdTauOffset
                uNightIndexHasExt (tauUnit units) uNightIndexHasExt in
    globalFamily p1 (parExternalTauScaleLoc lay) hasExtTauGOF dTauScale
                 magdLdPWVScale (tauUnit units)
  else p.

(** Tau No External (always run).  The nightly lnTau intercept subtracts
    [magdLdTauOffset]; [magdLdTauIntercept] is filled and not read. *)
Definition noExtTauGOF : list row :=
  filter (fun r => negb (externalTauFlag (exps pars) (expOf r))) GOF.

Definition magdLdTauIntercept : nat * nat -> Q := magd2 noExtTauGOF nightOf dTau.
Definition magdLdTauPerSlope : nat * nat -> Q :=
  magd2 noExtTauGOF nightOf dTauPerSlope.

Definition blockTauNoExternal (p : nat -> Q) : nat -> Q :=
  let uNightIndexNoExt := unique (map nightOf noExtTauGOF) in
  let p1 := perIndexFamily p (parLnTauInterceptLoc lay) noExtTauGOF nightOf dTau
              magdLdTauOffset uNightIndexNoExt (lnTauUnit units) uNightIndexNoExt in
  perIndexFamily p1 (parLnTauSlopeLoc lay) noExtTauGOF nightOf dTauPerSlope
                 magdLdTauPerSlope uNightIndexNoExt (lnTauSlopeUnit units)
                 uNightIndexNoExt.

(** Washes (QE Sys) *)
Definition magdLdWashIntercept : nat * nat -> Q := magd2 GOF washOf dWashIntercept.
Definition magdLdWashSlope : nat * nat -> Q := magd2 GOF washOf dWashSlope.

Definition blockWash (p : nat -> Q) : nat -> Q :=
  let p1 := perIndexFamily p (parQESysInterceptLoc lay) GOF washOf dWashIntercept
              magdLdWashIntercept uWashIndex (qeSysUnit units) uWashIndex in
  perIndexFamily p1 (parQESysSlopeLoc lay) GOF washOf dWashSlope
                 magdLdWashSlope uWashIndex (qeSysSlopeUnit units) uWashIndex.

(** *** The derivative in the words of the specification

    For the observations [touch]ing a parameter: the per-object weighted
    mean of the per-observation partial derivative [dval], and
    [2 / unit * sum(weight * delta * (dval - mean))]. *)
Definition sameObjBand (r r' : row) : bool :=
  pair_eqb (objBand (fst r)) (objBand (fst r')).

Definition objectMean (dval : row -> Q) (touch : row -> bool) (r : row) : Q :=
  sum (map (fun r' => obsWeightGO r' * dval r')
           (filter (fun r' => sameObjBand r r' && touch r') GOF))
  / sum (map obsWeightGO (filter (sameObjBand r) GO)).

Definition claimedComponent (unit : Q) (dval : row -> Q) (touch : row -> bool) : Q :=
  2 / unit
  * sum (map (fun r => obsWeightGO r * deltaMagGO r
                       * (dval r - objectMean dval touch r))
             (filter touch GOF)).

(** The fit-band observations of night [n], and those of night [n] in
    band [b]. *)
Definition ofNight (n : nat) : list row :=
  filter (fun r => Nat.eqb (nightOf r) n) GOF.

Definition ofNightBand (n b : nat) : list row :=
  filter (fun r => pair_eqb (n, b) (nightOf r, bandOf r)) GOF.

(** The [if (self.computeDerivatives):] part of [_worker]. *)
Definition derivatives (p : nat -> Q) : nat -> Q :=
  blockWash
    (blockTauNoExternal
       (blockTauExternal
          (blockPWV (blockPWVExternal (blockAlpha (blockO3 p)))))).

(** [partialArray] as it is added to the worker's slot. *)
Definition partialArray : nat -> Q :=
  if computeDerivatives opts then derivatives (partialArray0 GO)
  else partialArray0 GO.

End Blocks.
End Sums.
End Columns.

(** *** [_worker((goodStars, goodObs))]

    The store after the optional SED-slope block, the array [obsMagStd]
    after the assignment [obsMagStd[goodObs] = obsMagGO + deltaStdGO], the
    rows [(goodObs[k], obsMagStdGO[k])] read back from it, and the store
    after the mean magnitudes were written. *)
Definition workerSED (st : FgcmStars) (w : list nat * list nat) : FgcmStars :=
  if computeSEDSlopes opts then sedSlopeBlock (catalog st) st (fst w) (snd w)
  else st.

Definition workerMagStd (st : FgcmStars) (w : list nat * list nat) : nat -> Q :=
  put (obsMagStd (workerSED st w)) (snd w)
      (map (fun o => obsMagGO (catalog st) o
                     + deltaStdGO (catalog st) (workerSED st w) o) (snd w)).

Definition workerGO (st : FgcmStars) (w : list nat * list nat) : list row :=
  combine (snd w) (take (workerMagStd st w) (snd w)).

Definition workerStore (st : FgcmStars) (w : list nat * list nat) : FgcmStars :=
  writeMeans (catalog st) (set_obsMagStd (workerSED st w) (workerMagStd st w))
             (workerGO st w).

(** The body of the worker when no exception ends it: the star store it
    leaves and the array it adds to its slot of [totalHandleDict] (nothing
    is added when [allExposures] is set: the worker returns before
    [partialArray] exists). *)
Definition worker (st : FgcmStars) (goodStarsAndObs : list nat * list nat)
  : FgcmStars * (nat -> Q) :=
  if allExposures opts
  then (set_obsMagStd (workerSED st goodStarsAndObs)
                      (workerMagStd st goodStarsAndObs), zeros)
  else let st3 := workerStore st goodStarsAndObs in
       (st3,
        partialArray (catalog st) (objMagStdMean st3) (objMagStdMeanErr st3)
                     (objSEDSlope st3) (workerGO st goodStarsAndObs)).

(** The derivative accumulators have the shapes
    [(nCampaignNights, nFitBands)] and [(nWashIntervals, nFitBands)] and
    are indexed by the night (or wash interval) and the band index of the
    fit observations. *)
Definition outsideAccumulators (cat : StarCatalog) (o : nat) : bool :=
  (nFitBands (layout pars) <=? obsBandIndex cat o)%nat
  || (nCampaignNights (layout pars)
      <=? expNightIndex (exps pars) (obsExpIndex cat o))%nat
  || (nWashIntervals (layout pars)
      <=? expWashIndex (exps pars) (obsExpIndex cat o))%nat.

(** [_worker((goodStars, goodObs))] with its exceptions.  The match of
    the fit bands against the bands of the section (line 414) raises on an
    empty array before anything is written; [np.add.at] on a derivative
    accumulator raises, after the mean magnitudes are written, for a fit
    observation outside the accumulator. *)
Definition workerRun (st : FgcmStars) (goodStarsAndObs : list nat * list nat)
  : FgcmStars * result error (nat -> Q) :=
  match esutil_match_in (fitBandIndex pars) (obsBandIndex (catalog st))
                        (snd goodStarsAndObs) with
  | None => (st, Raise WorkerEmptyMatch)
  | Some obsFitUse =>
      let r := worker st goodStarsAndObs in
      if negb (allExposures opts) && computeDerivatives opts
         && existsb (outsideAccumulators (catalog st)) obsFitUse
      then (fst r, Raise WorkerIndexError)
      else (fst r, Ok (snd r))
  end.

(** Running the workers one after the other; the slots of
    [totalHandleDict] are summed as they are filled. *)
Definition addArrays (a b : nat -> Q) : nat -> Q := fun i => a i + b i.

Definition runWorkers (st : FgcmStars) (workerList : list (list nat * list nat))
  : FgcmStars * (nat -> Q) :=
  fold_left (fun acc w => let r := worker (fst acc) w in
                          (fst r, addArrays (snd acc) (snd r)))
            workerList (st, zeros).

(** The same run with the exceptions: the first section on which the
    worker raises ends it, and the store is left as the sections run so
    far have written it. *)
Fixpoint runChecked (st : FgcmStars) (workerList : list (list nat * list nat))
  (acc : nat -> Q) : FgcmStars * result error (nat -> Q) :=
  match workerList with
  | [] => (st, Ok acc)
  | w :: rest =>
      match workerRun st w with
      | (st', Raise err) => (st', Raise err)
      | (st', Ok a) => runChecked st' rest (addArrays acc a)
      end
  end.

(** The store each worker starts from, with its section. *)
Fixpoint workerTrace (st : FgcmStars) (workerList : list (list nat * list nat))
  : list (FgcmStars * (list nat * list nat)) :=
  match workerList with
  | [] => []
  | w :: rest => (st, w) :: workerTrace (fst (worker st w)) rest
  end.

(** *** The sums in the words of the specification

    For one worker: the weight and the residual of its fit-band
    observations, the weighted chi-squared, and over a trace the totals. *)
Definition fitTerms (run : FgcmStars * (list nat * list nat)) : list (Q * Q) :=
  let st := fst run in
  let w := snd run in
  map (fun r => (obsWeightGO (catalog st) r,
                 deltaMagGO (catalog st) (objMagStdMean (workerStore st w)) r))
      (fitUse (catalog st) (workerGO st w)).

Definition weightedChisq (terms : list (Q * Q)) : Q :=
  sum (map (fun wd => fst wd * sq (snd wd)) terms).

Definition traceChisq (tr : list (FgcmStars * (list nat * list nat))) : Q :=
  sum (map (fun run => weightedChisq (fitTerms run)) tr).

Definition traceFitObs (tr : list (FgcmStars * (list nat * list nat))) : nat :=
  list_sum (map (fun run => length (fitTerms run)) tr).

(** Entry [j] of the arrays the workers added to their slots, summed. *)
Definition traceSlot (tr : list (FgcmStars * (list nat * list nat))) (j : nat) : Q :=
  sum (map (fun run => snd (worker (fst run) (snd run)) j) tr).

(** The summed derivative with respect to parameter [i], and its summed
    touch counter. *)
Definition traceGradient (tr : list (FgcmStars * (list nat * list nat))) (i : nat) : Q :=
  traceSlot tr i.

Definition traceTouch (tr : list (FgcmStars * (list nat * list nat))) (i : nat) : Q :=
  traceSlot tr (nFitPars (layout pars) + i)%nat.

Definition touchedCount (tr : list (FgcmStars * (list nat * list nat))) : nat :=
  length (filter (fun i => Qneqb (traceTouch tr i) 0)
                 (seq 0 (nFitPars (layout pars)))).

(** *** The totals in the words of the claim

    Read from the observation table and from the arrays of the store a
    worker leaves, not from the worker's own temporaries: the fit-band
    observations of a worker are the observations of its section taken in
    one of the bands that are fit; the weight of an observation is the
    inverse of its squared model error; its residual is its stored
    standardized magnitude minus the stored mean magnitude of its object
    in its band. *)
Definition fitBandObs (run : FgcmStars * (list nat * list nat)) : list nat :=
  filter (fun o => existsb (Nat.eqb (obsBandIndex (catalog (fst run)) o))
                           (fitBandIndex pars))
         (snd (snd run)).

Definition obsWeight (run : FgcmStars * (list nat * list nat)) (o : nat) : Q :=
  1 / (obsMagADUModelErr (catalog (fst run)) o
       * obsMagADUModelErr (catalog (fst run)) o).

Definition obsResidual (run : FgcmStars * (list nat * list nat)) (o : nat) : Q :=
  let after := fst (worker (fst run) (snd run)) in
  obsMagStd after o
  - objMagStdMean after (obsObjIDIndex (catalog (fst run)) o,
                         obsBandIndex (catalog (fst run)) o).

Definition totalChisq (tr : list (FgcmStars * (list nat * list nat))) : Q :=
  sum (map (fun run =>
              sum (map (fun o => obsWeight run o
                                 * (obsResidual run o * obsResidual run o))
                       (fitBandObs run)))
           tr).

Definition totalFitObs (tr : list (FgcmStars * (list nat * list nat))) : nat :=
  list_sum (map (fun run => length (fitBandObs run)) tr).

End Worker.

(** *** [__call__] *)
Section Call.
Context {M : Libm} {L : FgcmLUT} {PM : ParsMethods} {SM : StarsMethods}.
Variable cfg : Config.
Variable opts : Options.
Variable fitParams : list Q.

(** Lines 162-163: the incompatible combination of options. *)
Definition badOptions : bool :=
  allExposures opts && (computeDerivatives opts || computeSEDSlopes opts).

(** [reloadParArray] then [parsToExposures]. *)
Definition reloadedPars (s : State) : FgcmParameters :=
  parsToExposures (reloadParArray (fgcmPars s) fitParams (fitterUnits opts)).

(** "reset numbers if necessary" *)
Definition resetStars (st : FgcmStars) : FgcmStars :=
  if negb (allExposures opts)
  then set_objMeans st (fun _ => 99) (fun _ => 99) (fun _ => 99)
  else st.

Definition goodStars (st : FgcmStars) : list nat :=
  if includeReserve opts
  then let resMask := Z.land 255 (Z.lnot (flagRESERVED cfg)) in
       np_where (nStars (catalog st)) (fun i => Z.eqb (Z.land (objFlag (catalog st) i) resMask) 0)
  else np_where (nStars (catalog st)) (fun i => Z.eqb (objFlag (catalog st) i) 0).

(** The cut applied to the matched observations. *)
Definition goodMatch (pars : FgcmParameters) (st : FgcmStars) (o : nat) : bool :=
  if negb (allExposures opts)
  then Z.eqb (expFlag (exps pars) (obsExpIndex (catalog st) o)) 0 && Z.eqb (obsFlag (catalog st) o) 0
  else Z.eqb (obsFlag (catalog st) o) 0.

(** Lines 195-230: [(goodStarsSub, goodObs)] and the cache afterwards. *)
Definition matching (e : Engine) (pars : FgcmParameters) (st : FgcmStars)
  : result error (list nat * list nat * option (list nat * list nat)) :=
  match (if useMatchCache opts then matchCache e else None) with
  | Some (goodStarsSub, goodObs) => Ok (goodStarsSub, goodObs, matchCache e)
  | None =>
      match esutil_match (goodStars st) (obsObjIDIndex (catalog st))
                         (nStarObs (catalog st)) with
      | None => Raise EmptyMatch
      | Some [] => Raise IndexError                  (* goodStarsSub[0] *)
      | Some (((sub0, _) :: _) as m) =>
          if negb (Nat.eqb sub0 0) then Raise StrangeFirstMatch
          else
            let kept := filter (fun ij => goodMatch pars st (snd ij)) m in
            let goodStarsSub := map fst kept in
            let goodObs := map snd kept in
            Ok (goodStarsSub, goodObs,
                if useMatchCache opts then Some (goodStarsSub, goodObs)
                else matchCache e)
      end
  end.

(** Lines 261-285: the list of [(goodStars, goodObs)] sections handed to
    the pool, longest first; [None] when it cannot be built: the division
    by [nStarPerRun = 0] raises, and so does [goodStarsList[i][0]] on an
    empty section of stars. *)
Definition workerList (st : FgcmStars) (goodStarsSub goodObs : list nat)
  : option (list (list nat * list nat)) :=
  if Nat.eqb (nStarPerRun cfg) 0 then None
  else
    let gs := goodStars st in
    let nSections := (length gs / nStarPerRun cfg + 1)%nat in
    let goodStarsList := array_split gs nSections in
    match firsts (tl goodStarsList) with
    | None => None
    | Some splitValues =>
        let splitIndices :=
          map (searchsorted (map (fun i => nth i gs O) goodStarsSub)) splitValues in
        let goodObsList := np_split goodObs splitIndices in
        Some (sort_by_size (combine goodStarsList goodObsList))
    end.

(** The exception that keeps the list from being built. *)
Definition sectionsError : error :=
  if Nat.eqb (nStarPerRun cfg) 0 then ZeroDivision else IndexError.

(** Lines 238-285: the sections the workers are run on; one section in
    debug mode. *)
Definition workerChunks (st : FgcmStars) (goodStarsSub goodObs : list nat)
  : option (list (list nat * list nat)) :=
  if debug opts then Some [(goodStars st, goodObs)]
  else workerList st goodStarsSub goodObs.

(** Lines 238-302: the stores after the workers and [partialSums], or
    the exception of the section list or of a worker. *)
Definition dispatch (pars : FgcmParameters) (st : FgcmStars)
  (goodStarsSub goodObs : list nat) : result error (FgcmStars * (nat -> Q)) :=
  match workerChunks st goodStarsSub goodObs with
  | None => Raise sectionsError
  | Some wl =>
      match runChecked cfg opts pars st wl zeros with
      | (st', Ok partialSums) => Ok (st', partialSums)
      | (_, Raise err) => Raise err
      end
  end.

(** The star store a run leaves when it ends with an exception. *)
Definition dispatchStore (pars : FgcmParameters) (st : FgcmStars)
  (goodStarsSub goodObs : list nat) : FgcmStars :=
  match workerChunks st goodStarsSub goodObs with
  | None => st
  | Some wl => fst (runChecked cfg opts pars st wl zeros)
  end.

(** Lines 309-312: the parameters "touched by the data". *)
Definition countTouched (pars : FgcmParameters) (partialSums : nat -> Q) : nat :=
  length (np_where (nFitPars (layout pars))
            (fun i => Qgtb (partialSums (nFitPars (layout pars) + i)%nat) 0)).

Definition set_engine (s : State) (e : Engine) : State :=
  {| engine := e; fgcmPars := fgcmPars s; fgcmStars := fgcmStars s |}.

(** [self.nActualFitPars] and [fitDOF] at line 315. *)
Definition actualFitPars (e : Engine) (pars : FgcmParameters)
  (partialSums : nat -> Q) : nat :=
  if computeDerivatives opts then countTouched pars partialSums
  else nActualFitPars e.

Definition fitDOF (e : Engine) (pars : FgcmParameters) (partialSums : nat -> Q) : Q :=
  partialSums (nSums opts pars - 1)%nat
  - inject_Z (Z.of_nat (actualFitPars e pars partialSums)).

(** Lines 305-350, from [partialSums] to the returned value. *)
Definition finish (e : Engine) (pars : FgcmParameters) (st : FgcmStars)
  (partialSums : nat -> Q) : State * result error Output :=
  let done (e' : Engine) :=
    {| engine := e'; fgcmPars := pars;
       fgcmStars := set_computed st true
                      (if allExposures opts then true else allMagStdComputed st) |} in
  if negb (allExposures opts) then
    let nActual := actualFitPars e pars partialSums in
    let e1 := {| fitChisqs := fitChisqs e; nActualFitPars := nActual;
                 matchCache := matchCache e |} in
    if Qleb (fitDOF e pars partialSums) 0
    then ({| engine := e1; fgcmPars := pars; fgcmStars := st |},
          Raise TooManyParameters)
    else
      let chisq := partialSums (nSums opts pars - 2)%nat / fitDOF e pars partialSums in
      (done {| fitChisqs := fitChisqs e ++ [chisq]; nActualFitPars := nActual;
               matchCache := matchCache e |},
       Ok {| fitChisq := chisq;
             dChisqdP :=
               if computeDerivatives opts
               then Some (map (fun i => partialSums i / fitDOF e pars partialSums)
                              (seq 0 (nFitPars (layout pars))))
               else None |})
  else
    (done e,
     Ok {| fitChisq := last (fitChisqs e) 0;     (* try: fitChisqs[-1] *)
           dChisqdP := None |}).

(** [FgcmChisq.__call__(fitParams, ...)]: the state it leaves and what it
    returns or raises. *)
Definition call (s : State) : State * result error Output :=
  if badOptions then (s, Raise CannotSetAllExposures)
  else
    let pars := reloadedPars s in
    let st := resetStars (fgcmStars s) in
    let s1 := {| engine := engine s; fgcmPars := pars; fgcmStars := st |} in
    match goodStars st with
    | [] => (s1, Raise NoGoodStars)
    | _ :: _ =>
        match matching (engine s) pars st with
        | Raise err => (s1, Raise err)
        | Ok (goodStarsSub, goodObs, cache) =>
            let e := {| fitChisqs := fitChisqs (engine s);
                        nActualFitPars := nActualFitPars (engine s);
                        matchCache := cache |} in
            match dispatch pars st goodStarsSub goodObs with
            | Raise err =>
                ({| engine := e; fgcmPars := pars;
                    fgcmStars := dispatchStore pars st goodStarsSub goodObs |},
                 Raise err)
            | Ok (st', partialSums) => finish e pars st' partialSums
            end
        end
    end.

(** *** The conditions of the specification

    The degrees of freedom the call computes, when it gets as far as
    line 315. *)
Definition computedDOF (s : State) : option Q :=
  if badOptions || allExposures opts then None
  else
    let pars := reloadedPars s in
    let st := resetStars (fgcmStars s) in
    match goodStars st with
    | [] => None
    | _ :: _ =>
        match matching (engine s) pars st with
        | Raise _ => None
        | Ok (goodStarsSub, goodObs, cache) =>
            match dispatch pars st goodStarsSub goodObs with
            | Raise _ => None
            | Ok (_, partialSums) =>
                Some (fitDOF {| fitChisqs := fitChisqs (engine s);
                                nActualFitPars := nActualFitPars (engine s);
                                matchCache := cache |} pars partialSums)
            end
        end
    end.

(** The workers the call runs, each with the store it starts from
    (empty when the call does not get that far). *)
Definition callTrace (s : State) : list (FgcmStars * (list nat * list nat)) :=
  let pars := reloadedPars s in
  let st := resetStars (fgcmStars s) in
  match matching (engine s) pars st with
  | Raise _ => []
  | Ok (goodStarsSub, goodObs, _) =>
      match workerChunks st goodStarsSub goodObs with
      | None => []
      | Some wl => workerTrace cfg opts pars st wl
      end
  end.

(** The match is redone (not taken from the cache) and its first pair
    does not point at the first good star. *)
Definition strangeFirstMatch (s : State) : bool :=
  match (if useMatchCache opts then matchCache (engine s) else None) with
  | Some _ => false
  | None =>
      match match_pairs (goodStars (fgcmStars s))
                        (obsObjIDIndex (catalog (fgcmStars s)))
                        (nStarObs (catalog (fgcmStars s))) with
      | (sub0, _) :: _ => negb (Nat.eqb sub0 0)
      | [] => false
      end
  end.

End Call.

(** The three mean arrays at one (star, band). *)
Definition meansAt (st : FgcmStars) (c : nat * nat) : Q * Q * Q :=
  (objMagStdMean st c, objMagStdMeanNoChrom st c, objMagStdMeanErr st c).

(** [resetFitChisqList()] and [clearMatchCache()]. *)
Definition resetFitChisqList (s : State) : State :=
  set_engine s {| fitChisqs := [];
                  nActualFitPars := nActualFitPars (engine s);
                  matchCache := matchCache (engine s) |}.

Definition clearMatchCache (s : State) : State :=
  set_engine s {| fitChisqs := fitChisqs (engine s);
                  nActualFitPars := nActualFitPars (engine s);
                  matchCache := None |}.

(** The slices of the fit-parameter vector whose family is active under
    the configured modes, as [(loc, length)]; the ozone slice comes
    first. *)
Definition o3Slice (pars : FgcmParameters) : nat * nat :=
  (parO3Loc (layout pars), nCampaignNights (layout pars)).

Definition otherSlices (pars : FgcmParameters) : list (nat * nat) :=
  let lay := layout pars in
  let nN := nCampaignNights lay in
  let nW := nWashIntervals lay in
  [(parAlphaLoc lay, nN)]
  ++ (if hasExternalPWV (modes pars) && negb (useRetrievedPWV (modes pars))
      then [(parExternalPWVOffsetLoc lay, nN); (parExternalPWVScaleLoc lay, 1%nat)]
      else [])
  ++ (if useRetrievedPWV (modes pars)
      then [(parRetrievedPWVScaleLoc lay, 1%nat);
            if useNightlyRetrievedPWV (modes pars)
            then (parRetrievedPWVNightlyOffsetLoc lay, nN)
            else (parRetrievedPWVOffsetLoc lay, 1%nat)]
      else [(parPWVInterceptLoc lay, nN); (parPWVPerSlopeLoc lay, nN)])
  ++ (if hasExternalTau (modes pars)
      then [(parExternalTauOffsetLoc lay, nN); (parExternalTauScaleLoc lay, 1%nat)]
      else [])
  ++ [(parLnTauInterceptLoc lay, nN); (parLnTauSlopeLoc lay, nN);
      (parQESysInterceptLoc lay, nW); (parQESysSlopeLoc lay, nW)].

Definition inSlice (j : nat) (sl : nat * nat) : Prop :=
  (fst sl <= j < fst sl + snd sl)%nat.

(** The invariant of the parameter container: every active slice lies
    inside the vector, and the night and wash indices of the exposures lie
    inside their slices. *)
Definition validLayout (pars : FgcmParameters) : Prop :=
  (0 < nCampaignNights (layout pars))%nat
  /\ Forall (fun sl => (fst sl + snd sl <= nFitPars (layout pars))%nat)
            (o3Slice pars :: otherSlices pars)
  /\ (forall e, (expNightIndex (exps pars) e < nCampaignNights (layout pars))%nat)
  /\ (forall e, (expWashIndex (exps pars) e < nWashIntervals (layout pars))%nat).

(** No other active slice overlaps the ozone slice. *)
Definition o3SliceApart (pars : FgcmParameters) : Prop :=
  forall j sl, inSlice j (o3Slice pars) -> In sl (otherSlices pars) -> ~ inSlice j sl.

End Chisq.

(* ================================================================== *)
(** ** Example data

    A small catalog and parameter container on which the definitions
    above can be evaluated. *)
(* ================================================================== *)

Module Examples.

(** A [math.h] for the examples: the square root is exact on the squares
    of rationals (the integer square roots of the reduced numerator and
    denominator otherwise), the logarithm is exact at 1 and at 10. *)
Definition exSqrt (x : Q) : Q :=
  let r := Qred x in Z.sqrt (Qnum r) # Pos.sqrt (Qden r).

Definition exLog10 (x : Q) : Q := if Qeq_bool x 10 then 1 else 0.

Definition exLibm : Libm := {| sqrt := exSqrt; log10 := exLog10 |}.

(** A look-up table with a flat throughput ([I0 = 1], [I1 = 0]) whose
    ozone and aerosol log-derivatives grow with the airmass:
    [dL/dO3 = dL/dTau = secZenith - 1]. *)
Definition exLUT : Chisq.FgcmLUT :=
  {| Chisq.lutIndices := Q;
     Chisq.getIndices := fun _ _ _ _ _ secZenith _ _ => secZenith;
     Chisq.computeI0 := fun _ _ _ _ _ _ _ => 1;
     Chisq.computeI1 := fun _ _ _ _ _ _ _ => 0;
     Chisq.computeLogDerivatives :=
       fun idx _ => {| Chisq.dLdPWV := 0; Chisq.dLdO3 := idx - 1;
                       Chisq.dLdTau := idx - 1; Chisq.dLdAlpha := 0 |};
     Chisq.computeLogDerivativesI1 :=
       fun _ _ _ _ => {| Chisq.dLdPWV := 0; Chisq.dLdO3 := 0;
                         Chisq.dLdTau := 0; Chisq.dLdAlpha := 0 |};
     Chisq.hasI1Derivatives := false |}.

(** Eight stars, each observed once on each of two nights (exposure 0 on
    night 0 with error 5/3, exposure 1 on night 1 with error 5/4), in one
    band.  Star 0 is 25 mag brighter in its first observation; the first
    observations of stars 0 and 1 are at airmass 2 and 4, all others at
    airmass 1. *)
Definition exCatalog : StarCatalog :=
  {| nStars := 8; nStarObs := 16; nBands := 1;
     bandRequiredIndex := [0%nat]; bandExtraIndex := [];
     minObsPerBand := 1;
     objFlag := fun _ => 0%Z;
     objNGoodObs := fun _ => 2%nat;
     obsObjIDIndex := fun o => (o / 2)%nat;
     obsExpIndex := fun o => (o mod 2)%nat;
     obsBandIndex := fun _ => 0%nat;
     obsLUTFilterIndex := fun _ => 0%nat;
     obsCCD := fun _ => 0%nat;
     obsFlag := fun _ => 0%Z;
     obsSecZenith := fun o => match o with
                              | 0%nat => 2
                              | 2%nat => 4
                              | _ => 1
                              end;
     obsMagADU := fun o => match o with
                           | 0%nat => 25
                           | _ => 0
                           end;
     obsMagADUModelErr := fun o => if Nat.even o then 5 # 3 else 5 # 4 |}.

Definition exStars : FgcmStars :=
  {| catalog := exCatalog;
     objMagStdMean := fun _ => 0;
     objMagStdMeanNoChrom := fun _ => 0;
     objMagStdMeanErr := fun _ => 0;
     objSEDSlope := fun _ => 0;
     obsMagStd := fun _ => 0;
     magStdComputed := false;
     allMagStdComputed := false |}.

(** Two nights, one wash interval, no external or retrieved PWV and no
    external tau: fourteen fit parameters. *)
Definition exLayout : ParLayout :=
  {| nFitPars := 14; nCampaignNights := 2; nFitBands := 1; nWashIntervals := 1;
     parO3Loc := 0; parAlphaLoc := 2;
     parExternalPWVOffsetLoc := 0; parExternalPWVScaleLoc := 0;
     parRetrievedPWVScaleLoc := 0; parRetrievedPWVNightlyOffsetLoc := 0;
     parRetrievedPWVOffsetLoc := 0;
     parPWVInterceptLoc := 4; parPWVPerSlopeLoc := 6;
     parExternalTauOffsetLoc := 0; parExternalTauScaleLoc := 0;
     parLnTauInterceptLoc := 8; parLnTauSlopeLoc := 10;
     parQESysInterceptLoc := 12; parQESysSlopeLoc := 13 |}.

Definition exExps : ExpState :=
  {| expFlag := fun _ => 0%Z;
     expPWV := fun _ => 1; expO3 := fun _ => 1;
     expLnTau := fun _ => 0; expTau := fun _ => 1; expAlpha := fun _ => 1;
     expPmb := fun _ => 1; expQESys := fun _ => 0;
     expDeltaUT := fun _ => 0; expMJD := fun e => inject_Z (Z.of_nat e);
     expNightIndex := fun e => (e mod 2)%nat;
     expWashIndex := fun _ => 0%nat;
     washMJDs := fun _ => 0;
     externalPWVFlag := fun _ => false;
     externalTauFlag := fun _ => false;
     compRetrievedPWVFlag := fun _ => 0%Z |}.

Definition exPars : FgcmParameters :=
  {| nExp := 2; nCCD := 1; fitBandIndex := [0%nat];
     layout := exLayout;
     modes := {| hasExternalPWV := false; useRetrievedPWV := false;
                 useNightlyRetrievedPWV := false; hasExternalTau := false |};
     exps := exExps;
     comp := {| compExpGray := fun _ => 0; compVarGray := fun _ => 0;
                compNGoodStarPerExp := fun _ => 0%nat;
                compSigFgcm := fun _ => 0 |} |}.

(** A parameter container whose reload writes the ozone parameters of the
    vector into the exposures; all units are 1. *)
Definition exParsMethods : Chisq.ParsMethods :=
  {| Chisq.reloadParArray := fun p v _ =>
       {| nExp := nExp p; nCCD := nCCD p; fitBandIndex := fitBandIndex p;
          layout := layout p; modes := modes p;
          exps := {| expFlag := expFlag (exps p);
                     expPWV := expPWV (exps p);
                     expO3 := fun e => nth (parO3Loc (layout p)
                                            + expNightIndex (exps p) e) v 0;
                     expLnTau := expLnTau (exps p); expTau := expTau (exps p);
                     expAlpha := expAlpha (exps p); expPmb := expPmb (exps p);
                     expQESys := expQESys (exps p);
                     expDeltaUT := expDeltaUT (exps p); expMJD := expMJD (exps p);
                     expNightIndex := expNightIndex (exps p);
                     expWashIndex := expWashIndex (exps p);
                     washMJDs := washMJDs (exps p);
                     externalPWVFlag := externalPWVFlag (exps p);
                     externalTauFlag := externalTauFlag (exps p);
                     compRetrievedPWVFlag := compRetrievedPWVFlag (exps p) |};
          comp := comp p |};
     Chisq.parsToExposures := fun p => p;
     Chisq.getUnitDict := fun _ _ =>
       {| Chisq.o3Unit := 1; Chisq.alphaUnit := 1; Chisq.pwvUnit := 1;
          Chisq.pwvGlobalUnit := 1; Chisq.pwvPerSlopeUnit := 1;
          Chisq.tauUnit := 1; Chisq.lnTauUnit := 1; Chisq.lnTauSlopeUnit := 1;
          Chisq.qeSysUnit := 1; Chisq.qeSysSlopeUnit := 1 |} |}.

Definition exStarsMethods : Chisq.StarsMethods :=
  {| Chisq.computeObjectSEDSlopes := fun st _ => st;
     Chisq.computeObjectSEDSlopesLUT := fun st _ => st |}.

Definition exConfig : Chisq.Config :=
  {| Chisq.nCore := 1; Chisq.ccdStartIndex := 0; Chisq.nStarPerRun := 4;
     Chisq.noChromaticCorrections := false;
     Chisq.I10StdBand := fun _ => 0;
     Chisq.illegalValue := -9999;
     Chisq.useSedLUT := false;
     Chisq.flagRESERVED := 16;
     Chisq.flagEXPOSURE_RETRIEVED := 1 |}.

(** A fit call with derivatives, and an [allExposures] call. *)
Definition exFit : Chisq.Options :=
  {| Chisq.fitterUnits := false; Chisq.computeDerivatives := true;
     Chisq.computeSEDSlopes := false; Chisq.useMatchCache := false;
     Chisq.debug := false; Chisq.allExposures := false;
     Chisq.includeReserve := false; Chisq.fgcmGray := None |}.

Definition exAll : Chisq.Options :=
  {| Chisq.fitterUnits := false; Chisq.computeDerivatives := false;
     Chisq.computeSEDSlopes := false; Chisq.useMatchCache := false;
     Chisq.debug := false; Chisq.allExposures := true;
     Chisq.includeReserve := false; Chisq.fgcmGray := None |}.

(** The fit options without the derivatives. *)
Definition exNoDeriv : Chisq.Options :=
  {| Chisq.fitterUnits := false; Chisq.computeDerivatives := false;
     Chisq.computeSEDSlopes := false; Chisq.useMatchCache := false;
     Chisq.debug := false; Chisq.allExposures := false;
     Chisq.includeReserve := false; Chisq.fgcmGray := None |}.

Definition exFitParams : list Q := repeat 0 14.

Definition exState : Chisq.State :=
  {| Chisq.engine := {| Chisq.fitChisqs := []; Chisq.nActualFitPars := 0;
                        Chisq.matchCache := None |};
     Chisq.fgcmPars := exPars;
     Chisq.fgcmStars := exStars |}.

(** The engine as [__init__] leaves it:
    [self.nActualFitPars = self.fgcmPars.nFitPars]. *)
Definition exFreshState : Chisq.State :=
  {| Chisq.engine := {| Chisq.fitChisqs := [];
                        Chisq.nActualFitPars := nFitPars (layout exPars);
                        Chisq.matchCache := None |};
     Chisq.fgcmPars := exPars;
     Chisq.fgcmStars := exStars |}.

(** The example fit call, the state it leaves and what it returns; then an
    [allExposures] call on that state. *)
Definition exReloaded : FgcmParameters :=
  Chisq.reloadedPars (PM:=exParsMethods) exFit exFitParams exState.

Definition exCall (opts : Chisq.Options) (s : Chisq.State)
  : Chisq.State * result Chisq.error Chisq.Output :=
  Chisq.call (M:=exLibm) (L:=exLUT) (PM:=exParsMethods) (SM:=exStarsMethods)
             exConfig opts exFitParams s.

Definition exOutput (r : result Chisq.error Chisq.Output) : Chisq.Output :=
  match r with
  | Ok out => out
  | Raise _ => {| Chisq.fitChisq := 0; Chisq.dChisqdP := None |}
  end.

Definition exAfterFit : Chisq.State := fst (exCall exFit exState).
Definition exFitOut : Chisq.Output := exOutput (snd (exCall exFit exState)).
Definition exAfterAll : Chisq.State := fst (exCall exAll exAfterFit).
Definition exAllOut : Chisq.Output := exOutput (snd (exCall exAll exAfterFit)).

(** The first section of stars and observations the example fit call
    hands to a worker, on the store the call has reset. *)
Definition exSection : list nat * list nat := ([0; 1; 2]%nat, seq 0 6).
Definition exReset : FgcmStars := Chisq.resetStars exFit exStars.

(** Four stars with one observation each, in one band.  Stars 0 to 2 are
    seen on CCD 0 of exposure 0 with residuals 1, 0 and -1 and a mean
    error of 3/5; star 3 is seen on exposure 1 and has a mean error (2)
    larger than the error of its observation (1). *)
Definition exGrayCatalog : StarCatalog :=
  {| nStars := 4; nStarObs := 4; nBands := 1;
     bandRequiredIndex := [0%nat]; bandExtraIndex := [];
     minObsPerBand := 1;
     objFlag := fun _ => 0%Z;
     objNGoodObs := fun _ => 1%nat;
     obsObjIDIndex := fun o => o;
     obsExpIndex := fun o => if Nat.eqb o 3 then 1%nat else 0%nat;
     obsBandIndex := fun _ => 0%nat;
     obsLUTFilterIndex := fun _ => 0%nat;
     obsCCD := fun _ => 0%nat;
     obsFlag := fun _ => 0%Z;
     obsSecZenith := fun _ => 1;
     obsMagADU := fun _ => 0;
     obsMagADUModelErr := fun _ => 1 |}.

Definition exGrayStars : FgcmStars :=
  {| catalog := exGrayCatalog;
     objMagStdMean := fun _ => 20;
     objMagStdMeanNoChrom := fun _ => 20;
     objMagStdMeanErr := fun c => if Nat.eqb (fst c) 3 then 2 else 3 # 5;
     objSEDSlope := fun _ => 0;
     obsMagStd := fun o => match o with
                           | 0%nat => 19
                           | 2%nat => 21
                           | _ => 20
                           end;
     magStdComputed := true;
     allMagStdComputed := true |}.

Definition exGrayConfig : Gray.Config :=
  {| Gray.minStarPerCCD := 3; Gray.maxCCDGrayErr := 1;
     Gray.ccdGrayMaxStarErr := 1; Gray.ccdStartIndex := 0;
     Gray.illegalValue := -9999 |}.

(** Stars of four colours (0 to 3 in band 0 minus band 1), one observation
    each in band 0; the two stars of intermediate colour have residuals
    1/10 and 1/2. *)
Definition exSigCatalog : StarCatalog :=
  {| nStars := 4; nStarObs := 4; nBands := 2;
     bandRequiredIndex := [0%nat]; bandExtraIndex := [1%nat];
     minObsPerBand := 1;
     objFlag := fun _ => 0%Z;
     objNGoodObs := fun c => if Nat.eqb (snd c) 0 then 1%nat else 0%nat;
     obsObjIDIndex := fun o => o;
     obsExpIndex := fun _ => 0%nat;
     obsBandIndex := fun _ => 0%nat;
     obsLUTFilterIndex := fun _ => 0%nat;
     obsCCD := fun _ => 0%nat;
     obsFlag := fun _ => 0%Z;
     obsSecZenith := fun _ => 1;
     obsMagADU := fun _ => 0;
     obsMagADUModelErr := fun _ => 1 # 10 |}.

Definition exSigStars : FgcmStars :=
  {| catalog := exSigCatalog;
     objMagStdMean := fun c => if Nat.eqb (snd c) 0
                               then 20 + inject_Z (Z.of_nat (fst c)) else 20;
     objMagStdMeanNoChrom := fun _ => 20;
     objMagStdMeanErr := fun _ => 0;
     objSEDSlope := fun _ => 0;
     obsMagStd := fun o => 20 + inject_Z (Z.of_nat o)
                           - (if Nat.eqb o 2 then 1 # 2 else 1 # 10);
     magStdComputed := true;
     allMagStdComputed := true |}.

(** The same four stars seen in two bands: observations 0 to 3 in band 0
    and 4 to 7 in band 1, with the residuals of band 0 repeated. *)
Definition exTwoBandCatalog : StarCatalog :=
  {| nStars := 4; nStarObs := 8; nBands := 2;
     bandRequiredIndex := [0%nat]; bandExtraIndex := [1%nat];
     minObsPerBand := 1;
     objFlag := fun _ => 0%Z;
     objNGoodObs := fun _ => 1%nat;
     obsObjIDIndex := fun o => (o mod 4)%nat;
     obsExpIndex := fun _ => 0%nat;
     obsBandIndex := fun o => if (o <? 4)%nat then 0%nat else 1%nat;
     obsLUTFilterIndex := fun _ => 0%nat;
     obsCCD := fun _ => 0%nat;
     obsFlag := fun _ => 0%Z;
     obsSecZenith := fun _ => 1;
     obsMagADU := fun _ => 0;
     obsMagADUModelErr := fun _ => 1 # 10 |}.

Definition exTwoBandStars : FgcmStars :=
  {| catalog := exTwoBandCatalog;
     objMagStdMean := fun c => if Nat.eqb (snd c) 0
                               then 20 + inject_Z (Z.of_nat (fst c)) else 20;
     objMagStdMeanNoChrom := fun _ => 20;
     objMagStdMeanErr := fun _ => 0;
     objSEDSlope := fun _ => 0;
     obsMagStd := fun o => (if (o <? 4)%nat then 20 + inject_Z (Z.of_nat o) else 20)
                           - (if Nat.eqb (o mod 4) 2 then 1 # 2 else 1 # 10);
     magStdComputed := true;
     allMagStdComputed := true |}.

Definition exSigConfig : SigFgcm.Config :=
  {| SigFgcm.sigFgcmMaxEGray := 1; SigFgcm.sigFgcmMaxErr := 1 # 2;
     SigFgcm.colorSplitIndices := (0%nat, 1%nat);
     SigFgcm.flagRESERVED := 16 |}.

(** A stand-in for the Gaussian fit: the mean of the sample and half its
    range as the width; it fails on an empty sample. *)
Definition exHistoGauss : SigFgcm.HistoGauss :=
  {| SigFgcm.histoGauss := fun sample =>
       match SigFgcm.sort sample with
       | [] => None
       | x :: rest =>
           Some (SigFgcm.Finite (inject_Z (Z.of_nat (length sample))),
                 SigFgcm.Finite (sum sample / inject_Z (Z.of_nat (length sample))),
                 SigFgcm.Finite ((last rest x - x) / 2))
       end |}.

(** A star store whose first star has no observation: both observations
    belong to star 1. *)
Definition exOrphanCatalog : StarCatalog :=
  {| nStars := 2; nStarObs := 2; nBands := 1;
     bandRequiredIndex := [0%nat]; bandExtraIndex := [];
     minObsPerBand := 1;
     objFlag := fun _ => 0%Z;
     objNGoodObs := fun _ => 2%nat;
     obsObjIDIndex := fun _ => 1%nat;
     obsExpIndex := fun o => o;
     obsBandIndex := fun _ => 0%nat;
     obsLUTFilterIndex := fun _ => 0%nat;
     obsCCD := fun _ => 0%nat;
     obsFlag := fun _ => 0%Z;
     obsSecZenith := fun _ => 1;
     obsMagADU := fun _ => 0;
     obsMagADUModelErr := fun _ => 1 |}.

Definition exOrphanState : Chisq.State :=
  {| Chisq.engine := {| Chisq.fitChisqs := []; Chisq.nActualFitPars := 0;
                        Chisq.matchCache := None |};
     Chisq.fgcmPars := exPars;
     Chisq.fgcmStars :=
       {| catalog := exOrphanCatalog;
          objMagStdMean := fun _ => 0;
          objMagStdMeanNoChrom := fun _ => 0;
          objMagStdMeanErr := fun _ => 0;
          objSEDSlope := fun _ => 0;
          obsMagStd := fun _ => 0;
          magStdComputed := false;
          allMagStdComputed := false |} |}.

(** A store where star 0 passes the flag selection and every observation
    belongs to the flagged star 1. *)
Definition exLonelyState : Chisq.State :=
  {| Chisq.engine := {| Chisq.fitChisqs := []; Chisq.nActualFitPars := 0;
                        Chisq.matchCache := None |};
     Chisq.fgcmPars := exPars;
     Chisq.fgcmStars :=
       {| catalog :=
            {| nStars := 2; nStarObs := 2; nBands := 1;
               bandRequiredIndex := [0%nat]; bandExtraIndex := [];
               minObsPerBand := 1;
               objFlag := fun i => if Nat.eqb i 1 then 2%Z else 0%Z;
               objNGoodObs := fun _ => 2%nat;
               obsObjIDIndex := fun _ => 1%nat;
               obsExpIndex := fun o => o;
               obsBandIndex := fun _ => 0%nat;
               obsLUTFilterIndex := fun _ => 0%nat;
               obsCCD := fun _ => 0%nat;
               obsFlag := fun _ => 0%Z;
               obsSecZenith := fun _ => 1;
               obsMagADU := fun _ => 0;
               obsMagADUModelErr := fun _ => 1 |};
          objMagStdMean := fun _ => 0;
          objMagStdMeanNoChrom := fun _ => 0;
          objMagStdMeanErr := fun _ => 0;
          objSEDSlope := fun _ => 0;
          obsMagStd := fun _ => 0;
          magStdComputed := false;
          allMagStdComputed := false |} |}.

(** A store with two good stars and an empty observation table. *)
Definition exEmptyTableState : Chisq.State :=
  {| Chisq.engine := {| Chisq.fitChisqs := []; Chisq.nActualFitPars := 0;
                        Chisq.matchCache := None |};
     Chisq.fgcmPars := exPars;
     Chisq.fgcmStars :=
       {| catalog :=
            {| nStars := 2; nStarObs := 0; nBands := 1;
               bandRequiredIndex := [0%nat]; bandExtraIndex := [];
               minObsPerBand := 1;
               objFlag := fun _ => 0%Z;
               objNGoodObs := fun _ => 2%nat;
               obsObjIDIndex := fun _ => 1%nat;
               obsExpIndex := fun o => o;
               obsBandIndex := fun _ => 0%nat;
               obsLUTFilterIndex := fun _ => 0%nat;
               obsCCD := fun _ => 0%nat;
               obsFlag := fun _ => 0%Z;
               obsSecZenith := fun _ => 1;
               obsMagADU := fun _ => 0;
               obsMagADUModelErr := fun _ => 1 |};
          objMagStdMean := fun _ => 0;
          objMagStdMeanNoChrom := fun _ => 0;
          objMagStdMeanErr := fun _ => 0;
          objSEDSlope := fun _ => 0;
          obsMagStd := fun _ => 0;
          magStdComputed := false;
          allMagStdComputed := false |} |}.

(** The match of the example fit call, and the sections it is cut into. *)
Definition exGoodStarsSub : list nat := flat_map (fun i => [i; i]) (seq 0 8).
Definition exGoodObs : list nat := seq 0 16.
Definition exSections : list (list nat * list nat) :=
  [([0; 1; 2]%nat, seq 0 6); ([3; 4; 5]%nat, seq 6 6); ([6; 7]%nat, seq 12 4)].

(** The configuration of the colour-split exposure gray: one star is
    enough for an exposure. *)
Definition exExpGrayConfig : ExpGray.Config :=
  {| ExpGray.minStarPerExp := 1;
     ExpGray.colorSplitIndices := (0%nat, 1%nat);
     ExpGray.illegalValue := -9999 |}.

Definition exSplitArrays : ExpGray.ColorSplitArrays :=
  {| ExpGray.expGrayColorSplit :=
       ExpGray.splitGray exExpGrayConfig exSigStars (seq 0 4);
     ExpGray.expGrayRMSColorSplit :=
       ExpGray.splitGrayRMS (M:=exLibm) exExpGrayConfig exSigStars (seq 0 4);
     ExpGray.expGrayNGoodStarsColorSplit :=
       ExpGray.splitNGood exExpGrayConfig exSigStars (seq 0 4) |}.

(** The parameters the repeatability leaves with plots. *)
Definition exSigAfter : FgcmParameters :=
  fst (SigFgcm.computeSigFgcm (M:=exLibm) (H:=exHistoGauss)
         exSigConfig false true exSigStars exPars true).

(** Four exposures of one band with seeing 10/7, 13/7, 16/7 and 19/7, a
    gray that grows with the exposure, and no earlier correction. *)
Definition exAperExposures : FgcmParameters :=
  {| nExp := 4; nCCD := 1; fitBandIndex := [0%nat];
     layout := exLayout; modes := modes exPars;
     exps := exExps; comp := comp exPars |}.

Definition exAperPars : ApertureCorrection.AperPars :=
  {| ApertureCorrection.nBands := 1;
     ApertureCorrection.expBandIndex := fun _ => 0%nat;
     ApertureCorrection.expSeeingVariable :=
       fun e => SigFgcm.Finite ((10 + 3 * inject_Z (Z.of_nat e)) / 7);
     ApertureCorrection.compAperCorrRange := fun _ => 0;
     ApertureCorrection.compAperCorrPivot := fun _ => 0;
     ApertureCorrection.compAperCorrSlope := fun _ => 0;
     ApertureCorrection.compAperCorrSlopeErr := fun _ => 0 |}.

Definition exAperConfig : ApertureCorrection.Config :=
  {| ApertureCorrection.aperCorrFitNBins := 4;
     ApertureCorrection.illegalValue := -9999 |}.

Definition exExpGray : nat -> Q := fun e => inject_Z (Z.of_nat e) / 100.

(** Stand-ins for the binning and the fit: one bin per exposure with an
    error of 1/100, the slope through the first and the last bin, and the
    inverse of the total weight as its variance. *)
Definition exFitting : ApertureCorrection.Fitting :=
  {| ApertureCorrection.dataBinner := fun x y _ _ =>
       map (fun xy => {| ApertureCorrection.X_BIN := fst xy;
                         ApertureCorrection.Y := snd xy;
                         ApertureCorrection.Y_ERR := 1 # 100 |})
           (combine x y);
     ApertureCorrection.polyfit := fun x y w =>
       ((last y 0 - hd 0 y) / (last x 0 - hd 0 x),
        SigFgcm.Finite (1 / sum w)) |}.

Definition exAperAfter : ApertureCorrection.AperPars :=
  fst (ApertureCorrection.computeApertureCorrections
         (M:=exLibm) (F:=exFitting) exAperConfig exAperExposures exExpGray
         exAperPars).

(** The same store with a retrieved PWV: two more fit parameters (the
    global scale and offset of the retrieved PWV at 14 and 15), while the
    nightly PWV intercepts and slopes (4 to 7) stay in the vector. *)
Definition exRetrievedPars : FgcmParameters :=
  {| nExp := nExp exPars; nCCD := nCCD exPars; fitBandIndex := fitBandIndex exPars;
     layout :=
       {| nFitPars := 16; nCampaignNights := 2; nFitBands := 1;
          nWashIntervals := 1;
          parO3Loc := 0; parAlphaLoc := 2;
          parExternalPWVOffsetLoc := 0; parExternalPWVScaleLoc := 0;
          parRetrievedPWVScaleLoc := 14; parRetrievedPWVNightlyOffsetLoc := 0;
          parRetrievedPWVOffsetLoc := 15;
          parPWVInterceptLoc := 4; parPWVPerSlopeLoc := 6;
          parExternalTauOffsetLoc := 0; parExternalTauScaleLoc := 0;
          parLnTauInterceptLoc := 8; parLnTauSlopeLoc := 10;
          parQESysInterceptLoc := 12; parQESysSlopeLoc := 13 |};
     modes := {| hasExternalPWV := false; useRetrievedPWV := true;
                 useNightlyRetrievedPWV := false; hasExternalTau := false |};
     exps := exExps; comp := comp exPars |}.

Definition exRetrievedState : Chisq.State :=
  {| Chisq.engine := Chisq.engine exState;
     Chisq.fgcmPars := exRetrievedPars;
     Chisq.fgcmStars := exStars |}.

Definition exRetrievedCall : Chisq.State * result Chisq.error Chisq.Output :=
  Chisq.call (M:=exLibm) (L:=exLUT) (PM:=exParsMethods) (SM:=exStarsMethods)
             exConfig exFit (repeat 0 16) exRetrievedState.

Definition exRetrievedGradient : list Q :=
  match Chisq.dChisqdP (exOutput (snd exRetrievedCall)) with
  | Some g => g
  | None => []
  end.

End Examples.

(* ================================================================== *)
(** * Properties *)
(* ================================================================== *)

(** ** Arrays *)

Module NpFacts.

Class KeyLaws (K : Type) {KK : Key K} := {
  key_eqb_spec : forall a b : K, reflect (a = b) (key_eqb a b)
}.
Arguments KeyLaws K {KK}.

Lemma pair_eqb_spec (a b : nat * nat) : reflect (a = b) (pair_eqb a b).
Proof.
  destruct a as [a1 a2], b as [b1 b2]; unfold pair_eqb; simpl.
  destruct (Nat.eqb_spec a1 b1), (Nat.eqb_spec a2 b2); simpl;
    constructor; congruence.
Qed.

#[export] Instance nat_KeyLaws : @KeyLaws nat nat_Key.
Proof. constructor. exact Nat.eqb_spec. Qed.

#[export] Instance pair_KeyLaws : @KeyLaws (nat * nat) pair_Key.
Proof. constructor. exact pair_eqb_spec. Qed.

Section Laws.
Context {K : Type} {KK : Key K} {KL : KeyLaws K} {V : Type}.

Lemma key_eqb_true (a b : K) : key_eqb a b = true <-> a = b.
Proof. destruct (key_eqb_spec a b); split; congruence. Qed.

Lemma key_eqb_refl (a : K) : key_eqb a a = true.
Proof. now apply key_eqb_true. Qed.

Lemma put_one_same (a : K -> V) k v : put_one a k v k = v.
Proof. unfold put_one. now rewrite key_eqb_refl. Qed.

Lemma put_one_other (a : K -> V) k v j : j <> k -> put_one a k v j = a j.
Proof.
  unfold put_one; intros Hn. destruct (key_eqb_spec j k); congruence.
Qed.

(** The value [ufunc.at] leaves at [k]: the operator folded over the
    updates addressed to [k], in order. *)
Lemma ufunc_at_fold {X} (op : V -> V -> V) (f : X -> K) (g : X -> V) (k : K) :
  forall (l : list X) (a : K -> V),
    ufunc_at op a (map f l) (map g l) k
    = fold_left op (map g (filter (fun x => key_eqb k (f x)) l)) (a k).
Proof.
  unfold ufunc_at.
  induction l as [|x l IH]; intros a; simpl; [reflexivity|].
  rewrite IH. unfold put_one.
  destruct (key_eqb_spec k (f x)) as [->|Hne]; simpl; reflexivity.
Qed.

Lemma ufunc_at_untouched (op : V -> V -> V) (k : K) :
  forall (ks : list K) (vs : list V) (a : K -> V),
    ~ In k ks -> ufunc_at op a ks vs k = a k.
Proof.
  unfold ufunc_at.
  induction ks as [|k' ks IH]; intros [|v vs] a Hn; simpl; try reflexivity.
  rewrite IH by (intros Hin; apply Hn; now right).
  apply put_one_other. intros ->. apply Hn. now left.
Qed.

(** The value an assignment [a[ks] = map g ks] leaves at [k]. *)
Lemma put_fold (g : K -> V) (k : K) :
  forall (ks : list K) (a : K -> V),
    put a ks (map g ks) k
    = fold_left (fun v k' => if key_eqb k k' then g k' else v) ks (a k).
Proof.
  unfold put.
  induction ks as [|k' ks IH]; intros a; simpl; [reflexivity|].
  rewrite IH. reflexivity.
Qed.

(** Reading back what was just assigned does not depend on the array
    assigned into. *)
Lemma put_read_back (g : K -> V) (ks : list K) (a a' : K -> V) (k : K) :
  In k ks -> put a ks (map g ks) k = put a' ks (map g ks) k.
Proof.
  rewrite !put_fold. generalize (a k) (a' k).
  induction ks as [|k' ks IH]; intros v v' Hin; [destruct Hin|].
  simpl. destruct (key_eqb_spec k k') as [->|Hne]; [reflexivity|].
  destruct Hin as [->|Hin]; [congruence|]. now apply IH.
Qed.

Lemma inplace_in (op : V -> V -> V) (a : K -> V) ks v k :
  In k ks -> inplace op a ks v k = op (a k) v.
Proof.
  unfold inplace; intros Hin.
  replace (existsb (key_eqb k) ks) with true; [reflexivity|].
  symmetry. apply existsb_exists. exists k. split; [assumption|apply key_eqb_refl].
Qed.

Lemma inplace_out (op : V -> V -> V) (a : K -> V) ks v k :
  ~ In k ks -> inplace op a ks v k = a k.
Proof.
  unfold inplace; intros Hn.
  destruct (existsb (key_eqb k) ks) eqn:E; [|reflexivity].
  apply existsb_exists in E. destruct E as (k' & Hin & Hk).
  apply key_eqb_true in Hk. subst. contradiction.
Qed.

End Laws.

Lemma Qltb_lt x y : Qltb x y = true <-> x < y.
Proof.
  unfold Qltb. rewrite negb_true_iff, <- not_true_iff_false, Qle_bool_iff.
  split; [apply Qnot_le_lt | apply Qlt_not_le].
Qed.

Lemma Qltb_ge x y : Qltb x y = false <-> y <= x.
Proof.
  unfold Qltb. rewrite negb_false_iff. apply Qle_bool_iff.
Qed.

Lemma Qleb_le x y : Qleb x y = true <-> x <= y.
Proof. apply Qle_bool_iff. Qed.

Lemma Qleb_gt x y : Qleb x y = false <-> y < x.
Proof.
  unfold Qleb. rewrite <- not_true_iff_false, Qle_bool_iff.
  split; [apply Qnot_le_lt | apply Qlt_not_le].
Qed.

Lemma Qgtb_gt x y : Qgtb x y = true <-> y < x.
Proof. apply Qltb_lt. Qed.

Lemma Qgtb_le x y : Qgtb x y = false <-> x <= y.
Proof. apply Qltb_ge. Qed.

Lemma memb_In x l : memb x l = true <-> In x l.
Proof.
  unfold memb. rewrite existsb_exists. split.
  - intros (y & Hin & E). apply Nat.eqb_eq in E. now subst.
  - intros Hin. exists x. split; [assumption|apply Nat.eqb_refl].
Qed.

Lemma In_unique u l : In u (unique l) -> In u l.
Proof.
  unfold unique. intros Hin. apply filter_In in Hin. now apply memb_In.
Qed.

Lemma np_where_In n cond i : In i (np_where n cond) <-> (i < n)%nat /\ cond i = true.
Proof.
  unfold np_where. rewrite filter_In, in_seq. intuition lia.
Qed.

Lemma np_where2_In n m cond c :
  In c (np_where2 n m cond)
  <-> (fst c < n)%nat /\ (snd c < m)%nat /\ cond c = true.
Proof.
  unfold np_where2. destruct c as [i j]. rewrite filter_In, in_prod_iff, !in_seq.
  simpl. intuition lia.
Qed.

Lemma match_pairs_nil (arr : nat -> nat) (n : nat) : match_pairs [] arr n = [].
Proof. unfold match_pairs. induction (seq 0 n); [reflexivity|assumption]. Qed.

(** A match that finds a pair was given two arrays that are not empty. *)
Lemma esutil_match_some (arr1 : list nat) (arr2 : nat -> nat) (n : nat) :
  match_pairs arr1 arr2 n <> [] -> esutil_match arr1 arr2 n <> None.
Proof.
  intros Hne. unfold esutil_match. destruct arr1 as [|x arr1].
  - exfalso. apply Hne. apply match_pairs_nil.
  - destruct n; [|discriminate]. exfalso. now apply Hne.
Qed.

Lemma esutil_match_inv (arr1 : list nat) (arr2 : nat -> nat) (n : nat) m :
  esutil_match arr1 arr2 n = Some m ->
  m = match_pairs arr1 arr2 n /\ arr1 <> [] /\ n <> O.
Proof.
  unfold esutil_match. destruct arr1; [discriminate|]. destruct n; [discriminate|].
  intros [= <-]. repeat split; discriminate.
Qed.

(** A count that fits the integer type is stored as it is. *)
Lemma wrap_int16_small (z : Z) :
  (- 2 ^ 15 <= z < 2 ^ 15)%Z -> wrap_int 16 z = z.
Proof.
  intros Hz. unfold wrap_int. change (16 - 1)%Z with 15%Z.
  change (2 ^ 16)%Z with 65536%Z. change (2 ^ 15)%Z with 32768%Z in *.
  rewrite Z.mod_small by lia. lia.
Qed.

Lemma wrap_int32_small (z : Z) :
  (- 2 ^ 31 <= z < 2 ^ 31)%Z -> wrap_int 32 z = z.
Proof.
  intros Hz. unfold wrap_int. change (32 - 1)%Z with 31%Z.
  change (2 ^ 32)%Z with 4294967296%Z. change (2 ^ 31)%Z with 2147483648%Z in *.
  rewrite Z.mod_small by lia. lia.
Qed.

Lemma esutil_match_none (arr1 : list nat) (arr2 : nat -> nat) (n : nat) :
  esutil_match arr1 arr2 n = None -> match_pairs arr1 arr2 n = [].
Proof.
  unfold esutil_match. destruct arr1; [intros _; apply match_pairs_nil|].
  destruct n; [reflexivity|discriminate].
Qed.

End NpFacts.
Import NpFacts.

(** ** Gray residuals *)

Module GrayFacts.
Import Gray.

Section Facts.
Context {M : Libm}.
Variable cfg : Config.
Variable onlyObsErr : bool.
Variable st : FgcmStars.
Variable pars : FgcmParameters.

#[local] Abbreviation cellOf := (cell cfg st).
#[local] Abbreviation sums := (ccdSums cfg onlyObsErr st).

(** A field that [accumulate] updates with [ufunc.at] holds, at the end of
    the loop over the extra bands, the fold over the contributing
    observations of the cell. *)
Lemma fold_accumulate_field {V} (proj : CcdSums -> nat * nat -> V)
      (op : V -> V -> V) (g : nat -> V) :
  (forall s sel, proj (accumulate cfg onlyObsErr st s sel)
                 = ufunc_at op (proj s) (map cellOf sel) (map g sel)) ->
  forall (ebs : list nat) (s : CcdSums) (c : nat * nat),
    proj (fold_left (fun s eb => accumulate cfg onlyObsErr st s
                                   (extraBandObs cfg onlyObsErr st eb)) ebs s) c
    = fold_left op
        (map g (filter (fun o => key_eqb c (cellOf o))
                       (flat_map (extraBandObs cfg onlyObsErr st) ebs)))
        (proj s c).
Proof.
  intros Hacc. induction ebs as [|eb ebs IH]; intros s c; simpl; [reflexivity|].
  rewrite IH, Hacc, ufunc_at_fold, filter_app, map_app, fold_left_app.
  reflexivity.
Qed.

Lemma ccdSums_field {V} (proj : CcdSums -> nat * nat -> V)
      (op : V -> V -> V) (g : nat -> V) (c : nat * nat) :
  (forall s sel, proj (accumulate cfg onlyObsErr st s sel)
                 = ufunc_at op (proj s) (map cellOf sel) (map g sel)) ->
  proj sums c
  = fold_left op (map g (inCell cfg onlyObsErr st c)) (proj (sums0) c).
Proof.
  intros Hacc. unfold ccdSums, inCell, contributing.
  rewrite (fold_accumulate_field proj op g Hacc), Hacc, ufunc_at_fold.
  rewrite filter_app, map_app, fold_left_app. reflexivity.
Qed.

Lemma sGrayWt_total c : sGrayWt sums c = totalWeight cfg onlyObsErr st c.
Proof.
  unfold totalWeight, sum.
  now rewrite (ccdSums_field sGrayWt Qplus
                 (fun o => 1 / EGrayErr2 onlyObsErr st o) c).
Qed.

Lemma sGray_total c :
  sGray sums c
  = sum (map (fun o => EGray st o / EGrayErr2 onlyObsErr st o)
             (inCell cfg onlyObsErr st c)).
Proof.
  unfold sum.
  now rewrite (ccdSums_field sGray Qplus
                 (fun o => EGray st o / EGrayErr2 onlyObsErr st o) c).
Qed.

Lemma sGrayRMS_total c :
  sGrayRMS sums c
  = sum (map (fun o => sq (EGray st o) / EGrayErr2 onlyObsErr st o)
             (inCell cfg onlyObsErr st c)).
Proof.
  unfold sum.
  now rewrite (ccdSums_field sGrayRMS Qplus
                 (fun o => sq (EGray st o) / EGrayErr2 onlyObsErr st o) c).
Qed.

Lemma fold_add_ones {X} (l : list X) (n : nat) :
  fold_left Nat.add (map (fun _ => 1%nat) l) n = (n + length l)%nat.
Proof.
  revert n. induction l as [|x l IH]; intros n; simpl; [lia|].
  rewrite IH. lia.
Qed.

Lemma sNGoodStars_total c :
  sNGoodStars sums c = length (inCell cfg onlyObsErr st c).
Proof.
  rewrite (ccdSums_field sNGoodStars Nat.add (fun _ => 1%nat) c) by reflexivity.
  now rewrite fold_add_ones.
Qed.

Lemma computed_result g p :
  computeCCDAndExpGray cfg onlyObsErr st pars = Ok (g, p) ->
  g = grayArrays cfg onlyObsErr st pars /\ p = parsAfter cfg onlyObsErr st pars.
Proof.
  unfold computeCCDAndExpGray.
  destruct (negb (allMagStdComputed st)); [discriminate|].
  destruct (esutil_match _ _ _); [|discriminate].
  destruct (esutil_match_in _ _ _); [|discriminate].
  intros [= <- <-]. split; reflexivity.
Qed.

Lemma computed_arrays g p :
  computeCCDAndExpGray cfg onlyObsErr st pars = Ok (g, p) ->
  g = grayArrays cfg onlyObsErr st pars.
Proof. intros Hrun. apply (computed_result Hrun). Qed.

Lemma gdCCD_tempRMS2 c :
  gdCCD cfg onlyObsErr st c = true ->
  tempRMS2 cfg onlyObsErr st c = rmsArgument cfg onlyObsErr st c.
Proof.
  intros Hgd. unfold tempRMS2, ccdGrayDiv. rewrite Hgd.
  unfold rmsArgument, weightedMeanSquare, weightedMean.
  now rewrite sGrayRMS_total, sGray_total, sGrayWt_total.
Qed.

Lemma positive_moment (s2 w m : Q) : 0 < w -> 0 < s2 / w - sq m -> 0 < s2.
Proof.
  unfold sq, Qdiv. intros Hw Harg.
  assert (Hi : 0 < / w) by now apply Qinv_lt_0_compat.
  destruct (Qlt_le_dec 0 s2) as [|Hle]; [assumption|exfalso].
  assert (s2 * / w <= 0) by nra. nra.
Qed.

(** C5. For a cell with more than two contributing stars, positive total
    weight and positive [E[x^2] - E[x]^2], the stored gray is the
    inverse-variance-weighted mean of the residuals, the stored error is
    [sqrt(1 / sum of weights)] and the stored RMS is
    [sqrt(E[x^2] - E[x]^2)]; a cell with at most two contributing stars,
    non-positive weight or non-positive RMS argument holds the illegal
    value in gray, RMS and error.  (No contributing observation has a zero
    residual variance: the weights are quotients.) *)
Theorem ccd_gray_weighted_statistics (g : GrayArrays) (p : FgcmParameters)
        (c : nat * nat) :
  computeCCDAndExpGray cfg onlyObsErr st pars = Ok (g, p) ->
  (forall o, In o (inCell cfg onlyObsErr st c) -> ~ EGrayErr2 onlyObsErr st o == 0) ->
  ((2 < length (inCell cfg onlyObsErr st c))%nat ->
   0 < totalWeight cfg onlyObsErr st c ->
   0 < rmsArgument cfg onlyObsErr st c ->
   ccdGray g c = weightedMean cfg onlyObsErr st c
   /\ ccdGrayErr g c = sqrt (1 / totalWeight cfg onlyObsErr st c)
   /\ ccdGrayRMS g c = sqrt (rmsArgument cfg onlyObsErr st c))
  /\ ((length (inCell cfg onlyObsErr st c) <= 2)%nat
      \/ totalWeight cfg onlyObsErr st c <= 0
      \/ rmsArgument cfg onlyObsErr st c <= 0 ->
      ccdGray g c = illegalValue cfg
      /\ ccdGrayRMS g c = illegalValue cfg
      /\ ccdGrayErr g c = illegalValue cfg).
Proof.
  intros Hrun _. apply computed_arrays in Hrun. subst g. simpl. split.
  - intros Hn Hw Harg.
    assert (Hgd : gdCCD cfg onlyObsErr st c = true).
    { unfold gdCCD. rewrite sNGoodStars_total, sGrayWt_total.
      rewrite !andb_true_iff, Nat.ltb_lt, !Qgtb_gt. repeat split; try assumption.
      rewrite sGrayRMS_total.
      unfold rmsArgument, weightedMeanSquare in Harg.
      exact (positive_moment Hw Harg). }
    assert (Hbad : badCCD cfg onlyObsErr st c = false).
    { unfold badCCD. rewrite (gdCCD_tempRMS2 _ Hgd), sNGoodStars_total, sGrayWt_total.
      rewrite !orb_false_iff, Nat.leb_gt, !Qleb_gt. now repeat split. }
    unfold ccdGray', ccdGrayErr', ccdGrayRMS'. rewrite Hbad, Hgd.
    rewrite (gdCCD_tempRMS2 _ Hgd).
    replace (Qgtb (rmsArgument cfg onlyObsErr st c) 0) with true
      by (symmetry; now apply Qgtb_gt).
    unfold ccdGrayDiv. rewrite Hgd, sGray_total, sGrayWt_total.
    now repeat split.
  - intros Hcase.
    assert (Hbad : badCCD cfg onlyObsErr st c = true).
    { unfold badCCD. rewrite sNGoodStars_total, sGrayWt_total.
      rewrite !orb_true_iff, Nat.leb_le, !Qleb_le.
      destruct Hcase as [Hn|[Hw|Harg]]; [now left; left | now left; right | right].
      destruct (gdCCD cfg onlyObsErr st c) eqn:Hgd.
      + now rewrite (gdCCD_tempRMS2 _ Hgd).
      + unfold tempRMS2. rewrite Hgd. apply Qle_refl. }
    unfold ccdGray', ccdGrayErr', ccdGrayRMS'. now rewrite Hbad.
Qed.

Lemma goodCCD_iff c :
  In c (goodCCD cfg onlyObsErr st pars)
  <-> (fst c < nExp pars)%nat /\ (snd c < nCCD pars)%nat
      /\ (minStarPerCCD cfg <= sNGoodStars sums c)%nat
      /\ 0 < ccdGrayErr' cfg onlyObsErr st c
      /\ ccdGrayErr' cfg onlyObsErr st c < maxCCDGrayErr cfg.
Proof.
  unfold goodCCD. rewrite np_where2_In. unfold isGoodCCD.
  rewrite !andb_true_iff, Nat.leb_le, Qgtb_gt, Qltb_lt. tauto.
Qed.

Lemma exp_sum (h : nat * nat -> Q) (e : nat) :
  add_at zeros (map fst (goodCCD cfg onlyObsErr st pars))
         (map h (goodCCD cfg onlyObsErr st pars)) e
  = sum (map h (goodCCDsOf cfg onlyObsErr st pars e)).
Proof. unfold add_at. now rewrite ufunc_at_fold. Qed.

Lemma expNGoodCCDs_length e :
  expNGoodCCDs' cfg onlyObsErr st pars e
  = length (goodCCDsOf cfg onlyObsErr st pars e).
Proof.
  unfold expNGoodCCDs', count_at. rewrite ufunc_at_fold.
  unfold goodCCDsOf. simpl. now rewrite fold_add_ones.
Qed.

(** C6. The cells that enter the exposure-level aggregation are exactly
    those with at least [minStarPerCCD] stars and a gray error strictly
    between 0 and [maxCCDGrayErr]: the per-exposure count and, for an
    exposure with more than two of them, the weighted mean and its error
    run over these cells only; an exposure with fewer than 3 of them holds
    the illegal value in gray, RMS and error. *)
Theorem exposure_gray_gating (g : GrayArrays) (p : FgcmParameters) :
  computeCCDAndExpGray cfg onlyObsErr st pars = Ok (g, p) ->
  (forall c,
      In c (goodCCD cfg onlyObsErr st pars)
      <-> (fst c < nExp pars)%nat /\ (snd c < nCCD pars)%nat
          /\ (minStarPerCCD cfg <= ccdNGoodStars g c)%nat
          /\ 0 < ccdGrayErr g c /\ ccdGrayErr g c < maxCCDGrayErr cfg)
  /\ (forall e,
        let cells := goodCCDsOf cfg onlyObsErr st pars e in
        let wt := sum (map (fun c => 1 / sq (ccdGrayErr g c)) cells) in
        expNGoodCCDs g e = length cells
        /\ ((2 < length cells)%nat ->
            expGray g e
            = sum (map (fun c => ccdGray g c / sq (ccdGrayErr g c)) cells) / wt
            /\ expGrayErr g e = sqrt (1 / wt))
        /\ ((length cells < 3)%nat ->
            expGray g e = illegalValue cfg
            /\ expGrayRMS g e = illegalValue cfg
            /\ expGrayErr g e = illegalValue cfg)).
Proof.
  intros Hrun. apply computed_arrays in Hrun. subst g. simpl. split.
  - exact goodCCD_iff.
  - intros e. split; [apply expNGoodCCDs_length|]. split.
    + intros Hn.
      assert (Hgd : gdExp cfg onlyObsErr st pars e = true).
      { unfold gdExp. rewrite expNGoodCCDs_length. now apply Nat.ltb_lt. }
      assert (Hbad : badExp cfg onlyObsErr st pars e = false).
      { unfold badExp. rewrite expNGoodCCDs_length. apply Nat.leb_gt. lia. }
      unfold expGray', expGrayErr', expGrayDiv. rewrite Hbad, Hgd.
      unfold expGraySum, expGrayWt. now rewrite !exp_sum.
    + intros Hn.
      assert (Hbad : badExp cfg onlyObsErr st pars e = true).
      { unfold badExp. rewrite expNGoodCCDs_length. apply Nat.leb_le. lia. }
      unfold expGray', expGrayRMS', expGrayErr'. now rewrite Hbad.
Qed.

(** C4 (as amended). With [onlyObsErr=False] the residual variance of an
    observation is its model-error variance minus the mean-magnitude
    variance of its object; the cut keeps exactly the observations whose
    residual variance is below [ccdGrayMaxStarErr], only kept observations
    enter the per-(exposure, CCD) aggregation, and an observation with a
    non-positive residual variance is kept whenever [ccdGrayMaxStarErr] is
    positive. *)
Theorem residual_variance_upper_cut (o : nat) :
  In o (goodObsFlagged st) ->
  EGrayErr2 false st o
  = sq (obsMagADUModelErr (catalog st) o)
    - sq (objMagStdMeanErr st (obsObjIDIndex (catalog st) o, obsBandIndex (catalog st) o))
  /\ (In o (goodObs cfg false st)
      <-> EGrayErr2 false st o < ccdGrayMaxStarErr cfg)
  /\ (forall o', In o' (contributing cfg false st) -> In o' (goodObs cfg false st))
  /\ (0 < ccdGrayMaxStarErr cfg -> EGrayErr2 false st o <= 0 ->
      In o (goodObs cfg false st)).
Proof.
  intros Hflag.
  assert (Hcut : In o (goodObs cfg false st)
                 <-> EGrayErr2 false st o < ccdGrayMaxStarErr cfg).
  { unfold goodObs. rewrite filter_In, Qltb_lt. tauto. }
  split; [reflexivity|]. split; [exact Hcut|]. split.
  - intros o' Hin. unfold contributing in Hin. apply in_app_or in Hin.
    destruct Hin as [Hin|Hin].
    + unfold reqBandObs in Hin. now apply filter_In in Hin.
    + apply in_flat_map in Hin. destruct Hin as (eb & _ & Hin).
      unfold extraBandObs in Hin. now apply filter_In in Hin.
  - intros Hmax Hvar. apply Hcut. eapply Qle_lt_trans; eassumption.
Qed.

End Facts.

(** *** The theorems on the example store *)

Import Examples.

(** C4 (as stated) fails: star 3 of the example has a residual variance of
    [1 - 4 = -3], passes the cut [EGrayErr2 < ccdGrayMaxStarErr] and enters
    the sums of its cell with the weight [-1/3]. *)
Lemma nonpositive_variance_is_aggregated :
  In 3%nat (goodObsFlagged exGrayStars)
  /\ EGrayErr2 false exGrayStars 3 <= 0
  /\ In 3%nat (contributing exGrayConfig false exGrayStars)
  /\ sGrayWt (ccdSums exGrayConfig false exGrayStars) (1%nat, 0%nat) == - (1 # 3).
Proof.
  split; [vm_compute; tauto|]. split; [vm_compute; discriminate|].
  split; [vm_compute; tauto|]. vm_compute. reflexivity.
Qed.

Lemma residual_variance_upper_cut_witness :
  EGrayErr2 false exGrayStars 3
  = sq (obsMagADUModelErr exGrayCatalog 3) - sq (objMagStdMeanErr exGrayStars (3%nat, 0%nat))
  /\ (In 3%nat (goodObs exGrayConfig false exGrayStars)
      <-> EGrayErr2 false exGrayStars 3 < ccdGrayMaxStarErr exGrayConfig)
  /\ (forall o', In o' (contributing exGrayConfig false exGrayStars)
                 -> In o' (goodObs exGrayConfig false exGrayStars))
  /\ (0 < ccdGrayMaxStarErr exGrayConfig -> EGrayErr2 false exGrayStars 3 <= 0 ->
      In 3%nat (goodObs exGrayConfig false exGrayStars)).
Proof.
  apply (residual_variance_upper_cut exGrayConfig exGrayStars 3).
  vm_compute. tauto.
Defined.

Lemma exGray_runs :
  computeCCDAndExpGray (M:=exLibm) exGrayConfig false exGrayStars exPars
  = Ok (grayArrays (M:=exLibm) exGrayConfig false exGrayStars exPars,
        parsAfter (M:=exLibm) exGrayConfig false exGrayStars exPars).
Proof. reflexivity. Qed.

Lemma ccd_gray_weighted_statistics_witness :
  let g := grayArrays (M:=exLibm) exGrayConfig false exGrayStars exPars in
  let c := (0%nat, 0%nat) in
  ccdGray g c = weightedMean exGrayConfig false exGrayStars c
  /\ ccdGrayErr g c = exSqrt (1 / totalWeight exGrayConfig false exGrayStars c)
  /\ ccdGrayRMS g c = exSqrt (rmsArgument exGrayConfig false exGrayStars c).
Proof.
  apply (proj1 (@ccd_gray_weighted_statistics exLibm exGrayConfig false
                  exGrayStars exPars _ _ (0%nat, 0%nat) exGray_runs
                  ltac:(intros o Ho; vm_compute in Ho;
                        destruct Ho as [<-|[<-|[<-|[]]]]; vm_compute; discriminate))).
  - vm_compute. lia.
  - vm_compute. reflexivity.
  - vm_compute. reflexivity.
Defined.

Lemma exposure_gray_gating_witness :
  let g := grayArrays (M:=exLibm) exGrayConfig false exGrayStars exPars in
  (forall c,
      In c (goodCCD (M:=exLibm) exGrayConfig false exGrayStars exPars)
      <-> (fst c < nExp exPars)%nat /\ (snd c < nCCD exPars)%nat
          /\ (minStarPerCCD exGrayConfig <= ccdNGoodStars g c)%nat
          /\ 0 < ccdGrayErr g c /\ ccdGrayErr g c < maxCCDGrayErr exGrayConfig)
  /\ (forall e,
        let cells := goodCCDsOf (M:=exLibm) exGrayConfig false exGrayStars exPars e in
        let wt := sum (map (fun c => 1 / sq (ccdGrayErr g c)) cells) in
        expNGoodCCDs g e = length cells
        /\ ((2 < length cells)%nat ->
            expGray g e
            = sum (map (fun c => ccdGray g c / sq (ccdGrayErr g c)) cells) / wt
            /\ expGrayErr g e = exSqrt (1 / wt))
        /\ ((length cells < 3)%nat ->
            expGray g e = illegalValue exGrayConfig
            /\ expGrayRMS g e = illegalValue exGrayConfig
            /\ expGrayErr g e = illegalValue exGrayConfig)).
Proof.
  exact (@exposure_gray_gating exLibm exGrayConfig false exGrayStars exPars
           _ _ exGray_runs).
Defined.

End GrayFacts.

(** ** Repeatability *)

Module SigFgcmFacts.
Import SigFgcm.

(** The square root is only ever taken of a non-negative number. *)
Lemma scatter_argument_nonneg (w : xfloat) (errs : list Q) (a : Q) :
  chooseBranch w errs = Scatter a -> 0 <= a.
Proof.
  unfold chooseBranch. destruct w as [sigma|]; [|discriminate].
  destruct (Qgtb (median errs) (sq sigma)) eqn:E; [discriminate|].
  intros [= <-]. apply Qgtb_le in E. lra.
Qed.

Section Facts.
Context {M : Libm} {H : HistoGauss}.
Variable cfg : Config.
Variable reserved : bool.
Variable save : bool.
Variable st : FgcmStars.
Variable pars : FgcmParameters.

#[local] Abbreviation use := (sigUse cfg reserved st pars).

(** The value computed for one band and one colour cut. *)
#[local] Abbreviation cutValue b c :=
  (branchValue (chooseBranch (fittedWidth (map (EGray st) (use b c)))
                             (map (EGrayErr2 st) (use b c)))).

(** The lines a band adds to the log: one for each colour cut whose
    selection is not empty, in the order of the cuts. *)
Definition cutLines (b c : nat) : list logLine :=
  match use b c with
  | [] => []
  | _ :: _ => [(b, c, cutValue b c)]
  end.

Definition bandLines (b : nat) : list logLine :=
  flat_map (cutLines b) (seq 0 4).

Lemma cutBody_saved b s c :
  saved (cutBody cfg reserved save st pars b s c)
  = match use b c with
    | [] => saved s
    | _ :: _ => if save && Nat.eqb c 0 then put_one (saved s) b (cutValue b c)
                else saved s
    end.
Proof. unfold cutBody. now destruct (use b c). Qed.

Lemma cutBody_logged b s c :
  logged (cutBody cfg reserved save st pars b s c) = logged s ++ cutLines b c.
Proof.
  unfold cutBody, cutLines. destruct (use b c); [|reflexivity].
  now rewrite app_nil_r.
Qed.

Lemma cuts_logged b cs :
  forall s,
    logged (fold_left (cutBody cfg reserved save st pars b) cs s)
    = logged s ++ flat_map (cutLines b) cs.
Proof.
  induction cs as [|c cs IH]; intros s; cbn [fold_left flat_map].
  - now rewrite app_nil_r.
  - rewrite IH, cutBody_logged, <- app_assoc. reflexivity.
Qed.

Lemma bandBody_logged b s :
  logged (bandBody cfg reserved save st pars s b) = logged s ++ bandLines b.
Proof. apply cuts_logged. Qed.

Lemma bands_logged bands :
  forall s,
    logged (fold_left (bandBody cfg reserved save st pars) bands s)
    = logged s ++ flat_map bandLines bands.
Proof.
  induction bands as [|b bands IH]; intros s; cbn [fold_left flat_map].
  - now rewrite app_nil_r.
  - rewrite IH, bandBody_logged, <- app_assoc. reflexivity.
Qed.

Lemma in_bandLines b b' c v :
  In (b', c, v) (bandLines b)
  <-> b' = b /\ (c < 4)%nat /\ use b c <> [] /\ v = cutValue b c.
Proof.
  unfold bandLines. rewrite in_flat_map. split.
  - intros (c0 & Hc0 & Hin). apply in_seq in Hc0. unfold cutLines in Hin.
    destruct (use b c0) eqn:E; [destruct Hin|].
    destruct Hin as [[= <- <- <-]|[]].
    rewrite E. repeat split; [lia|discriminate].
  - intros (-> & Hc & Hu & ->). exists c. split; [apply in_seq; lia|].
    unfold cutLines. destruct (use b c); [contradiction|now left].
Qed.

Lemma bandsWithPlots_bound doPlots bands :
  forall s,
    bandsWithPlots cfg reserved save st pars doPlots bands true s
    = (fold_left (bandBody cfg reserved save st pars) bands s, None).
Proof.
  induction bands as [|b bands IH]; intros s; [reflexivity|].
  cbn [bandsWithPlots fold_left orb]. cbv zeta. apply IH.
Qed.

Lemma bandsWithPlots_first doPlots b bands s :
  bandsWithPlots cfg reserved save st pars doPlots (b :: bands) false s
  = if plotted cfg reserved st pars doPlots b
    then (fold_left (bandBody cfg reserved save st pars) (b :: bands) s, None)
    else (bandBody cfg reserved save st pars s b, Some ExtraNameUnbound).
Proof.
  cbn [bandsWithPlots orb]. cbv zeta.
  destruct (plotted cfg reserved st pars doPlots b); [|reflexivity].
  rewrite bandsWithPlots_bound. reflexivity.
Qed.

Lemma bandsWithPlots_completed doPlots bands :
  forall bound s s',
    bandsWithPlots cfg reserved save st pars doPlots bands bound s = (s', None) ->
    s' = fold_left (bandBody cfg reserved save st pars) bands s.
Proof.
  induction bands as [|b bands IH]; intros bound s s' E.
  - now injection E as <-.
  - cbn [bandsWithPlots] in E. cbv zeta in E.
    destruct (bound || plotted cfg reserved st pars doPlots b); [|discriminate].
    cbn [fold_left]. exact (IH _ _ _ E).
Qed.

Lemma plotted_iff doPlots b :
  plotted cfg reserved st pars doPlots b = true
  <-> doPlots = true /\ exists c, (c < 4)%nat /\ use b c <> [].
Proof.
  unfold plotted. rewrite andb_true_iff, existsb_exists. split.
  - intros [Hd (c & Hc & Hu)]. split; [exact Hd|]. exists c.
    apply in_seq in Hc. split; [lia|]. destruct (use b c); [discriminate|discriminate].
  - intros [Hd (c & Hc & Hu)]. split; [exact Hd|]. exists c.
    split; [apply in_seq; lia|]. destruct (use b c); [contradiction|reflexivity].
Qed.

(** A selection that is not empty has passed the match. *)
Lemma goodObs_matched :
  goodObs cfg reserved st pars <> [] ->
  esutil_match (goodStars cfg reserved st) (obsObjIDIndex (catalog st))
               (nStarObs (catalog st)) <> None.
Proof.
  intros Hgo. apply esutil_match_some. intros E. apply Hgo.
  unfold goodObs. now rewrite E.
Qed.

(** The loop is reached once the magnitudes are computed and some
    observation is selected. *)
Lemma run_reaches_the_loop doPlots :
  magStdComputed st = true ->
  goodObs cfg reserved st pars <> [] ->
  run cfg reserved save st pars doPlots
  = bandsWithPlots cfg reserved save st pars doPlots
                   (seq 0 (nBands (catalog st))) false (init pars).
Proof.
  intros Hmag Hgo. unfold run. rewrite Hmag. cbn [negb].
  pose proof (goodObs_matched Hgo) as Hm.
  destruct (esutil_match _ _ _); [|contradiction].
  destruct (goodObs cfg reserved st pars); [contradiction|reflexivity].
Qed.

(** The log of a run that reaches the loop. *)
Lemma run_log doPlots :
  magStdComputed st = true ->
  goodObs cfg reserved st pars <> [] ->
  sigFgcmLog cfg reserved save st pars doPlots
  = match nBands (catalog st) with
    | O => []
    | S n => if plotted cfg reserved st pars doPlots 0
             then flat_map bandLines (seq 0 (S n))
             else bandLines 0
    end.
Proof.
  intros Hmag Hgo. unfold sigFgcmLog. rewrite run_reaches_the_loop by assumption.
  destruct (nBands (catalog st)) as [|n]; [reflexivity|].
  cbn [seq]. rewrite bandsWithPlots_first.
  destruct (plotted cfg reserved st pars doPlots 0); cbn [fst].
  - now rewrite bands_logged.
  - now rewrite bandBody_logged.
Qed.


End Facts.

(** *** The theorem on the example store *)

Import Examples.


(** On a store with two bands, [doPlots=False] ends the method after the
    first band: the all-colours selection of the second band is not empty
    and no value is set or logged for it. *)
Lemma second_band_is_never_reached :
  sigUse exSigConfig false exTwoBandStars exPars 1 0 <> []
  /\ snd (run (M:=exLibm) (H:=exHistoGauss) exSigConfig false true
              exTwoBandStars exPars false) = Some ExtraNameUnbound
  /\ (forall c v,
        ~ In (1%nat, c, v)
             (sigFgcmLog (M:=exLibm) (H:=exHistoGauss) exSigConfig false true
                         exTwoBandStars exPars false))
  /\ compSigFgcm (comp (fst (computeSigFgcm (M:=exLibm) (H:=exHistoGauss)
                              exSigConfig false true exTwoBandStars exPars false)))
                 1%nat
     = compSigFgcm (comp exPars) 1%nat.
Proof.
  split; [vm_compute; discriminate|]. split; [vm_compute; reflexivity|]. split.
  - intros c v Hin.
    assert (Hlog : map (fun l => fst (fst l))
                       (sigFgcmLog (M:=exLibm) (H:=exHistoGauss) exSigConfig false
                                   true exTwoBandStars exPars false)
                   = [0%nat; 0%nat]) by (vm_compute; reflexivity).
    apply (in_map (fun l => fst (fst l))) in Hin. rewrite Hlog in Hin.
    cbn in Hin. destruct Hin as [Hf|[Hf|[]]]; discriminate.
  - vm_compute. reflexivity.
Qed.

End SigFgcmFacts.

(** ** Chi-squared engine *)

Unset Implicit Arguments.

Module ChisqFacts.
Import Chisq.

Section CallFacts.
Context {M : Libm} {L : FgcmLUT} {PM : ParsMethods} {SM : StarsMethods}.
Variable cfg : Config.

(** The chi-squared history as [matching] and [finish] treat it. *)
Lemma matching_cache_only opts e pars st gss go cache :
  matching cfg opts e pars st = Ok (gss, go, cache) ->
  cache = matchCache e
  \/ (useMatchCache opts = true /\ cache = Some (gss, go)).
Proof.
  unfold matching.
  destruct (if useMatchCache opts then matchCache e else None) as [[a b]|].
  - intros [= <- <- <-]. now left.
  - destruct (esutil_match _ _ _) as [[|[sub0 o0] m]|]; [discriminate| |discriminate].
    destruct (negb (sub0 =? 0)%nat); [discriminate|].
    intros [= <- <- <-]. destruct (useMatchCache opts); [right|left]; auto.
Qed.

Lemma finish_all_exposures opts e pars st ps :
  allExposures opts = true ->
  finish opts e pars st ps
  = ({| engine := e; fgcmPars := pars; fgcmStars := set_computed st true true |},
     Ok {| fitChisq := last (fitChisqs e) 0; dChisqdP := None |}).
Proof. intros Hall. unfold finish. now rewrite Hall. Qed.

Lemma finish_fit opts e pars st ps s' out :
  allExposures opts = false ->
  finish opts e pars st ps = (s', Ok out) ->
  fitChisqs (engine s') = fitChisqs e ++ [fitChisq out].
Proof.
  intros Hall. unfold finish. rewrite Hall. simpl.
  destruct (Qleb _ 0); [discriminate|]. now intros [= <- <-].
Qed.

(** What a successful call went through. *)
Lemma call_ok_inv opts fitParams s s' out :
  call cfg opts fitParams s = (s', Ok out) ->
  exists gss go cache st' ps,
    badOptions opts = false
    /\ matching cfg opts (engine s) (reloadedPars opts fitParams s)
                (resetStars opts (fgcmStars s)) = Ok (gss, go, cache)
    /\ dispatch cfg opts (reloadedPars opts fitParams s)
                (resetStars opts (fgcmStars s)) gss go = Ok (st', ps)
    /\ finish opts {| fitChisqs := fitChisqs (engine s);
                      nActualFitPars := nActualFitPars (engine s);
                      matchCache := cache |}
              (reloadedPars opts fitParams s) st' ps = (s', Ok out).
Proof.
  unfold call. destruct (badOptions opts); [discriminate|].
  destruct (goodStars cfg opts (resetStars opts (fgcmStars s))); [discriminate|].
  destruct (matching cfg opts _ _ _) as [[[gss go] cache]|err] eqn:Hm;
    [|discriminate].
  destruct (dispatch cfg opts _ _ gss go) as [[st' ps]|err] eqn:Hd;
    [|discriminate].
  intros Hfin. exists gss, go, cache, st', ps. auto.
Qed.

(** C10. With [allExposures=True] the returned chi-squared is not computed
    from the current evaluation: it is the last element of the history
    list, 0 when the history is empty, and the history is left as it was;
    so after a successful [allExposures=False] evaluation it is the value
    that evaluation returned. *)
Theorem all_exposures_returns_last_chisq opts fitParams s s' out :
  allExposures opts = true ->
  call cfg opts fitParams s = (s', Ok out) ->
  fitChisq out = last (fitChisqs (engine s)) 0
  /\ (fitChisqs (engine s) = [] -> fitChisq out = 0)
  /\ fitChisqs (engine s') = fitChisqs (engine s)
  /\ (forall opts0 fitParams0 s0 out0,
         allExposures opts0 = false ->
         call cfg opts0 fitParams0 s0 = (s, Ok out0) ->
         fitChisq out = fitChisq out0).
Proof.
  intros Hall Hcall.
  destruct (call_ok_inv _ _ _ _ _ Hcall) as (gss & go & cache & st' & ps & _ & _ & _ & Hfin).
  rewrite finish_all_exposures in Hfin by assumption.
  injection Hfin as <- <-. simpl.
  assert (Hlast : forall l, l = fitChisqs (engine s) -> last l 0 = last (fitChisqs (engine s)) 0)
    by now intros l ->.
  split; [reflexivity|]. split; [now intros ->|]. split; [reflexivity|].
  intros opts0 fitParams0 s0 out0 Hall0 Hcall0.
  destruct (call_ok_inv _ _ _ _ _ Hcall0) as (? & ? & ? & ? & ? & _ & _ & _ & Hfin0).
  rewrite (finish_fit _ _ _ _ _ _ _ Hall0 Hfin0). apply last_last.
Qed.

(** *** The pass over all exposures *)

Lemma set_volatile_id st :
  set_volatile st (obsMagStd st) (magStdComputed st) (allMagStdComputed st) = st.
Proof. now destruct st. Qed.

Lemma worker_all_exposures opts pars st w :
  allExposures opts = true -> computeSEDSlopes opts = false ->
  worker cfg opts pars st w
  = (set_obsMagStd st
       (put (obsMagStd st) (snd w)
            (map (fun o => obsMagGO cfg opts pars (catalog st) o
                           + deltaStdGO cfg pars (catalog st) st o) (snd w))),
     zeros).
Proof.
  intros Hall Hsed. unfold worker, workerMagStd, workerSED.
  now rewrite Hall, Hsed.
Qed.

Lemma worker_all_exposures_zero opts pars st w :
  allExposures opts = true -> snd (worker cfg opts pars st w) = zeros.
Proof. intros Hall. unfold worker. now rewrite Hall. Qed.

Lemma runWorkers_all_exposures_zero opts pars :
  allExposures opts = true ->
  forall wl acc,
    (forall i, snd acc i = 0) ->
    forall i,
      snd (fold_left (fun acc w => let r := worker cfg opts pars (fst acc) w in
                                   (fst r, addArrays (snd acc) (snd r)))
                     wl acc) i = 0.
Proof.
  intros Hall. induction wl as [|w wl IH]; intros acc Hacc; simpl; [assumption|].
  apply IH. intros i. simpl. rewrite worker_all_exposures_zero by assumption.
  unfold addArrays, zeros. now rewrite Hacc.
Qed.

Lemma runWorkers_all_exposures_store opts pars :
  allExposures opts = true -> computeSEDSlopes opts = false ->
  forall wl st0 magStd acc,
    exists magStd',
      fst (fold_left (fun acc w => let r := worker cfg opts pars (fst acc) w in
                                   (fst r, addArrays (snd acc) (snd r)))
                     wl (set_obsMagStd st0 magStd, acc))
      = set_obsMagStd st0 magStd'.
Proof.
  intros Hall Hsed. induction wl as [|w wl IH]; intros st0 magStd acc; simpl.
  - now exists magStd.
  - rewrite worker_all_exposures by assumption. simpl. apply (IH st0).
Qed.

Lemma Ok_inj {E A} (a b : A) : @Ok E A a = Ok b -> a = b.
Proof. congruence. Qed.

(** *** The workers and their exceptions *)

Lemma workerRun_ok opts pars st w st' a :
  workerRun cfg opts pars st w = (st', Ok a) ->
  st' = fst (worker cfg opts pars st w) /\ a = snd (worker cfg opts pars st w).
Proof.
  unfold workerRun. destruct (esutil_match_in _ _ _); [|discriminate].
  destruct (_ && _ && _); [discriminate|]. intros [= <- <-]. split; reflexivity.
Qed.

(** A worker that raises leaves the store as it found it (line 414) or
    as its body leaves it (the accumulators). *)
Lemma workerRun_raise opts pars st w st' err :
  workerRun cfg opts pars st w = (st', Raise err) ->
  (err = WorkerEmptyMatch /\ st' = st)
  \/ (err = WorkerIndexError /\ st' = fst (worker cfg opts pars st w)
      /\ allExposures opts = false /\ computeDerivatives opts = true).
Proof.
  unfold workerRun. destruct (esutil_match_in _ _ _).
  - destruct (negb (allExposures opts)) eqn:Ha; simpl; [|discriminate].
    destruct (computeDerivatives opts) eqn:Hd; simpl; [|discriminate].
    destruct (existsb _ _); [|discriminate].
    intros [= <- <-]. right. apply negb_true_iff in Ha. auto.
  - intros [= <- <-]. now left.
Qed.

#[local] Abbreviation workerStep opts pars :=
  (fun (acc : FgcmStars * (nat -> Q)) (w : list nat * list nat) =>
     let r := worker cfg opts pars (fst acc) w in
     (fst r, addArrays (snd acc) (snd r))).

Lemma fold_store_acc opts pars :
  forall wl st acc acc',
    fst (fold_left (workerStep opts pars) wl (st, acc))
    = fst (fold_left (workerStep opts pars) wl (st, acc')).
Proof.
  induction wl as [|w wl IH]; intros st acc acc'; [reflexivity|].
  cbn [fold_left fst snd]. apply IH.
Qed.

Lemma runChecked_ok opts pars :
  forall wl st acc st' ps,
    runChecked cfg opts pars st wl acc = (st', Ok ps) ->
    (st', ps) = fold_left (workerStep opts pars) wl (st, acc).
Proof.
  induction wl as [|w wl IH]; intros st acc st' ps; cbn [runChecked fold_left].
  - now intros [= <- <-].
  - destruct (workerRun cfg opts pars st w) as [st1 [a|err]] eqn:E; [|discriminate].
    destruct (workerRun_ok _ _ _ _ _ _ E) as [-> ->]. intros Hrun.
    apply IH in Hrun. exact Hrun.
Qed.

(** A run that ends with an exception leaves the store as a run of the
    worker bodies on some of the sections leaves it. *)
Lemma runChecked_store opts pars :
  forall wl st acc,
    exists wl', fst (runChecked cfg opts pars st wl acc)
                = fst (runWorkers cfg opts pars st wl').
Proof.
  unfold runWorkers.
  induction wl as [|w wl IH]; intros st acc; cbn [runChecked].
  - exists []. reflexivity.
  - destruct (workerRun cfg opts pars st w) as [st1 [a|err]] eqn:E.
    + destruct (workerRun_ok _ _ _ _ _ _ E) as [-> ->].
      destruct (IH (fst (worker cfg opts pars st w))
                   (addArrays acc (snd (worker cfg opts pars st w)))) as [wl' Hwl'].
      exists (w :: wl'). rewrite Hwl'. cbn [fold_left fst snd]. apply fold_store_acc.
    + destruct (workerRun_raise _ _ _ _ _ _ E) as [[_ ->]|(_ & -> & _)].
      * exists []. reflexivity.
      * exists [w]. reflexivity.
Qed.

Lemma dispatch_ok_inv opts pars st gss go st' ps :
  dispatch cfg opts pars st gss go = Ok (st', ps) ->
  exists wl, st' = fst (runWorkers cfg opts pars st wl)
             /\ ps = snd (runWorkers cfg opts pars st wl)
             /\ workerChunks cfg opts st gss go = Some wl.
Proof.
  unfold dispatch.
  destruct (workerChunks cfg opts st gss go) as [wl|] eqn:Hwl; [|discriminate].
  destruct (runChecked cfg opts pars st wl zeros) as [st1 [a|err]] eqn:E;
    [|discriminate].
  intros [= <- <-]. apply runChecked_ok in E.
  exists wl. unfold runWorkers.
  split; [|split]; [change st1 with (fst (st1, a))|change a with (snd (st1, a))|];
    try rewrite E; reflexivity.
Qed.

(** The store a failed run leaves. *)
Lemma dispatchStore_run opts pars st gss go :
  exists wl, dispatchStore cfg opts pars st gss go
             = fst (runWorkers cfg opts pars st wl).
Proof.
  unfold dispatchStore. destruct (workerChunks cfg opts st gss go) as [wl|].
  - apply runChecked_store.
  - exists []. reflexivity.
Qed.

Lemma runChecked_raises opts pars :
  forall wl st acc err,
    snd (runChecked cfg opts pars st wl acc) = Raise err ->
    err = WorkerEmptyMatch
    \/ (err = WorkerIndexError /\ allExposures opts = false
        /\ computeDerivatives opts = true).
Proof.
  induction wl as [|w wl IH]; intros st acc err; cbn [runChecked]; [discriminate|].
  destruct (workerRun cfg opts pars st w) as [st1 [a|e]] eqn:E.
  - apply IH.
  - intros [= <-].
    destruct (workerRun_raise _ _ _ _ _ _ E) as [[-> _]|(-> & _ & Ha & Hd)]; auto.
Qed.

(** Which exceptions a run ends with, and the store when no worker was
    the cause. *)
Lemma dispatch_raises opts pars st gss go err :
  dispatch cfg opts pars st gss go = Raise err ->
  ((err = IndexError \/ err = ZeroDivision)
   /\ dispatchStore cfg opts pars st gss go = st)
  \/ err = WorkerEmptyMatch
  \/ (err = WorkerIndexError /\ allExposures opts = false
      /\ computeDerivatives opts = true).
Proof.
  unfold dispatch, dispatchStore.
  destruct (workerChunks cfg opts st gss go) as [wl|].
  - destruct (runChecked cfg opts pars st wl zeros) as [st1 [a|e]] eqn:E;
      [discriminate|].
    intros [= <-]. right. apply (runChecked_raises opts pars wl st zeros).
    rewrite E. reflexivity.
  - intros [= <-]. left. split; [|reflexivity].
    unfold sectionsError. destruct (nStarPerRun cfg =? 0)%nat; auto.
Qed.

Lemma dispatch_all_exposures_zero opts pars st gss go st' ps :
  allExposures opts = true ->
  dispatch cfg opts pars st gss go = Ok (st', ps) ->
  forall i, ps i = 0.
Proof.
  intros Hall Hd. destruct (dispatch_ok_inv _ _ _ _ _ _ _ Hd) as (wl & _ & -> & _).
  unfold runWorkers. now apply runWorkers_all_exposures_zero.
Qed.

Lemma dispatchStore_all_exposures opts pars st gss go :
  allExposures opts = true -> computeSEDSlopes opts = false ->
  exists magStd', dispatchStore cfg opts pars st gss go = set_obsMagStd st magStd'.
Proof.
  intros Hall Hsed. destruct (dispatchStore_run opts pars st gss go) as [wl ->].
  unfold runWorkers.
  destruct (runWorkers_all_exposures_store opts pars Hall Hsed wl st (obsMagStd st) zeros)
    as [magStd' Hst].
  exists magStd'. rewrite <- Hst. unfold set_obsMagStd.
  now rewrite set_volatile_id.
Qed.

Lemma dispatch_all_exposures_store opts pars st gss go st' ps :
  allExposures opts = true -> computeSEDSlopes opts = false ->
  dispatch cfg opts pars st gss go = Ok (st', ps) ->
  exists magStd', st' = set_obsMagStd st magStd'.
Proof.
  intros Hall Hsed Hd.
  destruct (dispatch_ok_inv _ _ _ _ _ _ _ Hd) as (wl & -> & _ & _).
  unfold runWorkers.
  destruct (runWorkers_all_exposures_store opts pars Hall Hsed wl st (obsMagStd st) zeros)
    as [magStd' Hst].
  exists magStd'. rewrite <- Hst. unfold set_obsMagStd.
  now rewrite set_volatile_id.
Qed.

(** C9. With [allExposures=True] the call leaves the per-object mean
    standardized magnitudes (chromatic, non-chromatic, error) as they were,
    neither reset nor recomputed, and accumulates no chi-squared and no
    derivative (the summed worker slots stay zero, the history and the
    parameter count are kept); in the star store it writes the
    per-observation standardized magnitudes and the two "computed" flags
    only. *)
Theorem all_exposures_leaves_means opts fitParams s :
  allExposures opts = true ->
  let st := fgcmStars s in
  let s' := fst (call cfg opts fitParams s) in
  objMagStdMean (fgcmStars s') = objMagStdMean st
  /\ objMagStdMeanNoChrom (fgcmStars s') = objMagStdMeanNoChrom st
  /\ objMagStdMeanErr (fgcmStars s') = objMagStdMeanErr st
  /\ (exists magStd c ac, fgcmStars s' = set_volatile st magStd c ac)
  /\ fitChisqs (engine s') = fitChisqs (engine s)
  /\ nActualFitPars (engine s') = nActualFitPars (engine s)
  /\ (forall pars gss go st' partialSums,
         dispatch cfg opts pars (resetStars opts st) gss go = Ok (st', partialSums) ->
         forall i, partialSums i = 0).
Proof.
  intros Hall st s'.
  assert (Hframe : (exists magStd c ac, fgcmStars s' = set_volatile st magStd c ac)
                   /\ fitChisqs (engine s') = fitChisqs (engine s)
                   /\ nActualFitPars (engine s') = nActualFitPars (engine s)).
  { subst s' st. unfold call.
    assert (Hid : exists magStd c ac,
               fgcmStars s = set_volatile (fgcmStars s) magStd c ac).
    { exists (obsMagStd (fgcmStars s)), (magStdComputed (fgcmStars s)),
        (allMagStdComputed (fgcmStars s)). symmetry. apply set_volatile_id. }
    destruct (badOptions opts) eqn:Hbad; simpl.
    { repeat split; auto. }
    assert (Hsed : computeSEDSlopes opts = false).
    { unfold badOptions in Hbad. rewrite Hall in Hbad. simpl in Hbad.
      now apply orb_false_iff in Hbad. }
    unfold resetStars. rewrite Hall. simpl.
    destruct (goodStars cfg opts (fgcmStars s)); simpl.
    { repeat split; auto. }
    destruct (matching cfg opts _ _ _) as [[[gss go] cache]|err]; simpl.
    2:{ repeat split; auto. }
    destruct (dispatch cfg opts _ _ gss go) as [[st' ps]|err] eqn:Hd; simpl.
    2:{ destruct (dispatchStore_all_exposures opts (reloadedPars opts fitParams s)
                    (fgcmStars s) gss go Hall Hsed) as [magStd' ->].
        repeat split; auto.
        now exists magStd', (magStdComputed (fgcmStars s)),
          (allMagStdComputed (fgcmStars s)). }
    rewrite finish_all_exposures by assumption. simpl.
    destruct (dispatch_all_exposures_store _ _ _ _ _ _ _ Hall Hsed Hd) as [magStd' ->].
    repeat split; auto. now exists magStd', true, true. }
  destruct Hframe as ((magStd & c & ac & Hst) & Hhist & Hn).
  rewrite Hst. simpl. repeat split; auto.
  - now exists magStd, c, ac.
  - intros pars gss go st' ps Hd. eapply dispatch_all_exposures_zero; eauto.
Qed.

(** *** The errors [__call__] raises *)

Lemma goodStars_reset opts st :
  goodStars cfg opts (resetStars opts st) = goodStars cfg opts st.
Proof. unfold resetStars, goodStars. now destruct (negb (allExposures opts)). Qed.

Lemma match_reset opts st :
  esutil_match (goodStars cfg opts (resetStars opts st))
               (obsObjIDIndex (catalog (resetStars opts st)))
               (nStarObs (catalog (resetStars opts st)))
  = esutil_match (goodStars cfg opts st) (obsObjIDIndex (catalog st))
                 (nStarObs (catalog st)).
Proof.
  rewrite goodStars_reset. unfold resetStars.
  now destruct (negb (allExposures opts)).
Qed.

(** How [matching] ends. *)
Lemma matching_raises opts e pars st err :
  matching cfg opts e pars (resetStars opts st) = Raise err ->
  (err = IndexError \/ err = EmptyMatch
   \/ (err = StrangeFirstMatch
       /\ strangeFirstMatch cfg opts
            {| engine := e; fgcmPars := pars; fgcmStars := st |} = true)).
Proof.
  unfold matching, strangeFirstMatch. simpl. rewrite match_reset.
  destruct (if useMatchCache opts then matchCache e else None) as [[a b]|];
    [discriminate|].
  destruct (esutil_match _ _ _) as [m|] eqn:E; [|intros [= <-]; auto].
  destruct (esutil_match_inv _ _ _ E) as (-> & _ & _).
  destruct (match_pairs _ _ _) as [|[sub0 o0] m]; [intros [= <-]; now left|].
  destruct (negb (sub0 =? 0)%nat); [|discriminate].
  intros [= <-]. right; right. auto.
Qed.

Lemma matching_strange opts e pars st :
  strangeFirstMatch cfg opts {| engine := e; fgcmPars := pars; fgcmStars := st |}
  = true ->
  matching cfg opts e pars (resetStars opts st) = Raise StrangeFirstMatch.
Proof.
  unfold matching, strangeFirstMatch. simpl. rewrite match_reset.
  destruct (if useMatchCache opts then matchCache e else None) as [[a b]|];
    [discriminate|].
  intros Hs. destruct (esutil_match _ _ _) as [m|] eqn:E.
  - destruct (esutil_match_inv _ _ _ E) as (-> & _ & _).
    destruct (match_pairs _ _ _) as [|[sub0 o0] m]; [discriminate|].
    now rewrite Hs.
  - apply esutil_match_none in E. rewrite E in Hs. discriminate.
Qed.

Lemma matching_ok_not_strange opts e pars st r :
  matching cfg opts e pars (resetStars opts st) = Ok r ->
  strangeFirstMatch cfg opts {| engine := e; fgcmPars := pars; fgcmStars := st |}
  = false.
Proof.
  intros Hm. destruct (strangeFirstMatch _ _ _) eqn:Hs; [|reflexivity].
  apply matching_strange in Hs. congruence.
Qed.

Lemma strange_needs_stars opts s :
  strangeFirstMatch cfg opts s = true -> goodStars cfg opts (fgcmStars s) <> [].
Proof.
  unfold strangeFirstMatch. intros Hs Hnil. rewrite Hnil in Hs.
  destruct (if useMatchCache opts then matchCache (engine s) else None);
    [discriminate|].
  now rewrite match_pairs_nil in Hs.
Qed.

Lemma finish_raises opts e pars st ps :
  (exists err, snd (finish opts e pars st ps) = Raise err)
  <-> allExposures opts = false /\ fitDOF opts e pars ps <= 0.
Proof.
  unfold finish. destruct (allExposures opts); simpl.
  - split; [intros [err Herr]; discriminate|intros [Hf _]; discriminate].
  - destruct (Qleb (fitDOF opts e pars ps) 0) eqn:Hle; simpl.
    + apply Qleb_le in Hle. split; [auto|]. intros _. now exists TooManyParameters.
    + apply Qleb_gt in Hle. split; [intros [err Herr]; discriminate|].
      intros [_ Hd]. exfalso. apply (Qlt_not_le _ _ Hle Hd).
Qed.

Lemma finish_raises_which opts e pars st ps err :
  snd (finish opts e pars st ps) = Raise err -> err = TooManyParameters.
Proof.
  unfold finish. destruct (negb (allExposures opts)); [|discriminate].
  destruct (Qleb _ 0); [|discriminate]. simpl. congruence.
Qed.

(** C3 (as amended). [__call__] raises a [ValueError] of its own if and
    only if one of four conditions holds: (a) [allExposures] together with
    [computeDerivatives] or [computeSEDSlopes], in which case the state is
    left as it was; (b) no object passes the flag selection; (c) the
    computed degrees of freedom are not positive; (d) the match of good
    stars to observations is redone and its first pair does not point at
    the first good star.  Every raise ends the call: nothing is
    re-evaluated. *)
Theorem call_value_errors opts fitParams s :
  ((exists err, snd (call cfg opts fitParams s) = Raise err
                /\ isOwnValueError err = true)
   <-> badOptions opts = true
       \/ goodStars cfg opts (fgcmStars s) = []
       \/ (exists dof, computedDOF cfg opts fitParams s = Some dof /\ dof <= 0)
       \/ strangeFirstMatch cfg opts s = true)
  /\ (badOptions opts = true ->
      call cfg opts fitParams s = (s, Raise CannotSetAllExposures)).
Proof.
  split; [|intros Hbad; unfold call; now rewrite Hbad].
  unfold call, computedDOF.
  destruct (badOptions opts) eqn:Hbad; simpl.
  { split; [now left|]. intros _. now exists CannotSetAllExposures. }
  rewrite goodStars_reset.
  destruct (goodStars cfg opts (fgcmStars s)) as [|g0 gs] eqn:Hgs; simpl.
  { split; [now right; left|]. intros _. now exists NoGoodStars. }
  assert (Hstr : strangeFirstMatch cfg opts s
                 = strangeFirstMatch cfg opts
                     {| engine := engine s;
                        fgcmPars := reloadedPars opts fitParams s;
                        fgcmStars := fgcmStars s |}) by reflexivity.
  destruct (matching cfg opts (engine s) (reloadedPars opts fitParams s)
                     (resetStars opts (fgcmStars s)))
    as [[[gss go] cache]|err] eqn:Hm; simpl.
  2:{ destruct (matching_raises _ _ _ _ _ Hm) as [->|[->|[-> Hs]]].
      - split.
        + intros (err & [= <-] & Hv). discriminate.
        + intros [Hf|[Hf|[Hf|Hf]]]; try discriminate.
          * destruct (allExposures opts); destruct Hf as (dof & Hf & _); discriminate.
          * rewrite Hstr in Hf. apply matching_strange in Hf. congruence.
      - split.
        + intros (err & [= <-] & Hv). discriminate.
        + intros [Hf|[Hf|[Hf|Hf]]]; try discriminate.
          * destruct (allExposures opts); destruct Hf as (dof & Hf & _); discriminate.
          * rewrite Hstr in Hf. apply matching_strange in Hf. congruence.
      - split; [intros _; right; right; right; now rewrite Hstr|].
        intros _. now exists StrangeFirstMatch. }
  rewrite Hstr, (matching_ok_not_strange _ _ _ _ _ Hm).
  destruct (dispatch cfg opts (reloadedPars opts fitParams s)
                     (resetStars opts (fgcmStars s)) gss go)
    as [[st' ps]|err] eqn:Hd; simpl.
  2:{ assert (Hv : isOwnValueError err = false).
      { destruct (dispatch_raises _ _ _ _ _ _ Hd)
          as [[[->| ->] _]|[->|[-> _]]]; reflexivity. }
      split.
      - intros (err' & [= <-] & Hv'). congruence.
      - intros [Hf|[Hf|[Hf|Hf]]]; try discriminate.
        destruct (allExposures opts); destruct Hf as (dof & Hf & _); discriminate. }
  split.
  - intros (err & Herr & _).
    assert (Hr : exists err, snd (finish opts
                   {| fitChisqs := fitChisqs (engine s);
                      nActualFitPars := nActualFitPars (engine s);
                      matchCache := cache |}
                   (reloadedPars opts fitParams s) st' ps) = Raise err)
      by now exists err.
    apply finish_raises in Hr. destruct Hr as [Hall Hdof].
    right; right; left. rewrite Hall. eexists. split; [reflexivity|exact Hdof].
  - intros [Hf|[Hf|[Hf|Hf]]]; try discriminate.
    destruct (allExposures opts) eqn:Hall; destruct Hf as (dof & Hf & Hle);
      [discriminate|].
    injection Hf as <-.
    destruct (proj2 (finish_raises opts _ (reloadedPars opts fitParams s) st' ps)
                    (conj Hall Hle)) as [err Herr].
    exists err. split; [exact Herr|].
    now rewrite (finish_raises_which _ _ _ _ _ _ Herr).
Qed.

End CallFacts.

(** *** The footprint of the derivative blocks *)

Section DerivFacts.
Context {M : Libm} {L : FgcmLUT} {PM : ParsMethods} {SM : StarsMethods}.
Variable cfg : Config.
Variable opts : Options.
Variable pars : FgcmParameters.
Variable cat : StarCatalog.
Variables mM mE sS : nat * nat -> Q.
Variable GO : list row.

#[local] Abbreviation nF := (nFitPars (layout pars)).

Lemma not_in_shifted (loc size j : nat) {X} (f : X -> nat) (l : list X) :
  (forall x, In x l -> (f x < size)%nat) ->
  ~ inSlice j (loc, size) ->
  ~ In j (map (fun x => (loc + f x)%nat) l).
Proof.
  intros Hb Hout Hin. apply in_map_iff in Hin. destruct Hin as (x & <- & Hx).
  apply Hout. unfold inSlice. simpl. specialize (Hb x Hx). lia.
Qed.

(** A per-index family writes inside its slice and the matching slice of
    touch counters only. *)
Lemma perIndexFamily_outside p loc sel idx dval magdSub U unit T size j :
  (forall r, In r sel -> (idx r < size)%nat) ->
  (forall u, In u U -> (u < size)%nat) ->
  (forall t, In t T -> (t < size)%nat) ->
  ~ inSlice j (loc, size) -> ~ inSlice j ((nF + loc)%nat, size) ->
  perIndexFamily pars cat mM p loc sel idx dval magdSub U unit T j = p j.
Proof.
  intros Hsel HU HT Hg Ht. unfold perIndexFamily, add_at.
  rewrite inplace_out, inplace_out.
  - apply ufunc_at_untouched. now apply (not_in_shifted loc size).
  - change (map (Nat.add loc) U) with (map (fun u => (loc + (fun x => x) u)%nat) U).
    now apply (not_in_shifted loc size).
  - change (map (fun u => (nF + loc + u)%nat) T)
      with (map (fun u => (nF + loc + (fun x => x) u)%nat) T).
    now apply (not_in_shifted (nF + loc) size).
Qed.

(** Above the gradient part of the array it only adds to touch counters. *)
Lemma perIndexFamily_counts p loc sel idx dval magdSub U unit T size j :
  (forall r, In r sel -> (idx r < size)%nat) ->
  (forall u, In u U -> (u < size)%nat) ->
  (loc + size <= nF)%nat -> (nF <= j)%nat ->
  perIndexFamily pars cat mM p loc sel idx dval magdSub U unit T j = p j
  \/ perIndexFamily pars cat mM p loc sel idx dval magdSub U unit T j = p j + 1.
Proof.
  intros Hsel HU Hfit Hj. unfold perIndexFamily, add_at.
  assert (Hout : ~ inSlice j (loc, size)) by (unfold inSlice; simpl; lia).
  match goal with |- context [inplace Qplus ?a ?ks 1 j] =>
    destruct (in_dec Nat.eq_dec j ks) as [Hin|Hnin];
      [rewrite (inplace_in Qplus a ks 1 j Hin); right
      |rewrite (inplace_out Qplus a ks 1 j Hnin); left]
  end.
  all: rewrite inplace_out;
    [ rewrite ufunc_at_untouched; [reflexivity|now apply (not_in_shifted loc size)]
    | change (map (Nat.add loc) U) with (map (fun u => (loc + (fun x => x) u)%nat) U);
      now apply (not_in_shifted loc size) ].
Qed.

Lemma globalFamily_outside p loc sel dval magdSub unit j :
  j <> loc -> j <> (nF + loc)%nat ->
  globalFamily pars cat mM p loc sel dval magdSub unit j = p j.
Proof.
  intros Hg Ht. unfold globalFamily. now rewrite !put_one_other.
Qed.

Lemma globalFamily_counts p loc sel dval magdSub unit j :
  (loc < nF)%nat -> (nF <= j)%nat ->
  globalFamily pars cat mM p loc sel dval magdSub unit j = p j
  \/ globalFamily pars cat mM p loc sel dval magdSub unit j = p j + 1.
Proof.
  intros Hfit Hj. unfold globalFamily.
  destruct (Nat.eq_dec j (nF + loc)) as [->|Hne].
  - right. rewrite put_one_same. rewrite put_one_other by lia. reflexivity.
  - left. rewrite !put_one_other by lia. reflexivity.
Qed.

(** [writesWithin F sls]: the array transformer [F] changes entries of
    the slices [sls] and of their touch counters only, and never lowers an
    entry above the gradient part. *)
Definition writesWithin (F : (nat -> Q) -> nat -> Q) (sls : list (nat * nat)) : Prop :=
  (forall p j,
      (forall sl, In sl sls ->
                  ~ inSlice j sl /\ ~ inSlice j ((nF + fst sl)%nat, snd sl)) ->
      F p j = p j)
  /\ (forall p j, (nF <= j)%nat -> p j <= F p j).

Lemma writesWithin_id : writesWithin (fun p => p) [].
Proof. split; intros; [reflexivity|apply Qle_refl]. Qed.

Lemma writesWithin_compose F G s1 s2 :
  writesWithin F s1 -> writesWithin G s2 ->
  writesWithin (fun p => G (F p)) (s1 ++ s2).
Proof.
  intros [HF1 HF2] [HG1 HG2]. split.
  - intros p j Hout. rewrite HG1, HF1; [reflexivity| |];
      intros sl Hin; apply Hout; apply in_or_app; auto.
  - intros p j Hj. eapply Qle_trans; [apply HF2|apply HG2]; assumption.
Qed.

Lemma writesWithin_perIndex loc sel idx dval magdSub U unit T size :
  (forall r, In r sel -> (idx r < size)%nat) ->
  (forall u, In u U -> (u < size)%nat) ->
  (forall t, In t T -> (t < size)%nat) ->
  (loc + size <= nF)%nat ->
  writesWithin
    (fun p => perIndexFamily pars cat mM p loc sel idx dval magdSub U unit T)
    [(loc, size)].
Proof.
  intros Hsel HU HT Hfit. split.
  - intros p j Hout. destruct (Hout (loc, size) (or_introl eq_refl)) as [Hg Ht].
    now apply (perIndexFamily_outside p loc sel idx dval magdSub U unit T size).
  - intros p j Hj.
    destruct (perIndexFamily_counts p loc sel idx dval magdSub U unit T size j
                                    Hsel HU Hfit Hj) as [->| ->]; lra.
Qed.

Lemma writesWithin_global loc sel dval magdSub unit :
  (loc + 1 <= nF)%nat ->
  writesWithin (fun p => globalFamily pars cat mM p loc sel dval magdSub unit)
               [(loc, 1%nat)].
Proof.
  intros Hfit. split.
  - intros p j Hout. destruct (Hout (loc, 1%nat) (or_introl eq_refl)) as [Hg Ht].
    unfold inSlice in Hg, Ht. simpl in Hg, Ht.
    apply globalFamily_outside; lia.
  - intros p j Hj.
    destruct (globalFamily_counts p loc sel dval magdSub unit j) as [->| ->];
      try lra; lia.
Qed.

Hypothesis Hvalid : validLayout pars.

Lemma night_bound (r : row) : (nightOf pars cat r < nCampaignNights (layout pars))%nat.
Proof. destruct Hvalid as (_ & _ & Hn & _). apply Hn. Qed.

Lemma wash_bound (r : row) : (washOf pars cat r < nWashIntervals (layout pars))%nat.
Proof. destruct Hvalid as (_ & _ & _ & Hw). apply Hw. Qed.

Lemma unique_night_bound (sel : list row) u :
  In u (unique (map (nightOf pars cat) sel)) ->
  (u < nCampaignNights (layout pars))%nat.
Proof.
  intros Hin. apply In_unique, in_map_iff in Hin.
  destruct Hin as (r & <- & _). apply night_bound.
Qed.

Lemma unique_wash_bound (sel : list row) u :
  In u (unique (map (washOf pars cat) sel)) ->
  (u < nWashIntervals (layout pars))%nat.
Proof.
  intros Hin. apply In_unique, in_map_iff in Hin.
  destruct Hin as (r & <- & _). apply wash_bound.
Qed.

Lemma slice_fits sl :
  In sl (o3Slice pars :: otherSlices pars) -> (fst sl + snd sl <= nF)%nat.
Proof.
  destruct Hvalid as (_ & Hall & _). rewrite Forall_forall in Hall. apply Hall.
Qed.

Ltac slice_fits_tac :=
  match goal with
  | |- (?a + ?b <= _)%nat => apply (slice_fits (a, b))
  end;
  unfold o3Slice, otherSlices;
  repeat match goal with
         | E : _ = true |- _ => rewrite E
         | E : _ = false |- _ => rewrite E
         end;
  simpl; rewrite ?in_app_iff; simpl; tauto.

Ltac per_night_tac :=
  apply writesWithin_perIndex;
  [ intros r _; apply night_bound
  | intros u Hu; first [ exact (unique_night_bound _ _ Hu) ]
  | intros t Ht;
    first [ exact (unique_night_bound _ _ Ht)
          | destruct Ht as [<-|[]]; destruct Hvalid as (Hpos & _); exact Hpos ]
  | slice_fits_tac ].

Ltac per_wash_tac :=
  apply writesWithin_perIndex;
  [ intros r _; apply wash_bound
  | intros u Hu; exact (unique_wash_bound _ _ Hu)
  | intros t Ht; exact (unique_wash_bound _ _ Ht)
  | slice_fits_tac ].

Lemma blockO3_within :
  writesWithin (blockO3 cfg opts pars cat mM mE sS GO) [o3Slice pars].
Proof. unfold blockO3, o3Slice, uNightIndex. per_night_tac. Qed.

Lemma blockAlpha_within :
  writesWithin (blockAlpha cfg opts pars cat mM mE sS GO)
               [(parAlphaLoc (layout pars), nCampaignNights (layout pars))].
Proof. unfold blockAlpha, uNightIndex. per_night_tac. Qed.

Lemma blockPWVExternal_within :
  writesWithin (blockPWVExternal cfg opts pars cat mM mE sS GO)
    (if hasExternalPWV (modes pars) && negb (useRetrievedPWV (modes pars))
     then [(parExternalPWVOffsetLoc (layout pars), nCampaignNights (layout pars));
           (parExternalPWVScaleLoc (layout pars), 1%nat)]
     else []).
Proof.
  unfold blockPWVExternal, pwvExternal.
  destruct (hasExternalPWV (modes pars) && negb (useRetrievedPWV (modes pars)))
    eqn:E; [|apply writesWithin_id].
  apply (writesWithin_compose
           (fun p => perIndexFamily pars cat mM p _ _ _ _ _ _ _ _)
           (fun p => globalFamily pars cat mM p _ _ _ _ _)
           [_] [_]).
  - per_night_tac.
  - apply writesWithin_global. slice_fits_tac.
Qed.

Lemma blockPWV_within :
  writesWithin (blockPWV cfg opts pars cat mM mE sS GO)
    (if useRetrievedPWV (modes pars)
     then [(parRetrievedPWVScaleLoc (layout pars), 1%nat);
           if useNightlyRetrievedPWV (modes pars)
           then (parRetrievedPWVNightlyOffsetLoc (layout pars),
                 nCampaignNights (layout pars))
           else (parRetrievedPWVOffsetLoc (layout pars), 1%nat)]
     else [(parPWVInterceptLoc (layout pars), nCampaignNights (layout pars));
           (parPWVPerSlopeLoc (layout pars), nCampaignNights (layout pars))]).
Proof.
  unfold blockPWV.
  destruct (useRetrievedPWV (modes pars)) eqn:Eret.
  - unfold blockPWVRetrieved.
    destruct (hasRetrievedPWVGOF cfg pars cat GO) as [|r0 rs] eqn:Esel.
    + split; intros; [reflexivity|apply Qle_refl].
    + rewrite <- Esel.
      destruct (useNightlyRetrievedPWV (modes pars)) eqn:Enight.
      * apply (writesWithin_compose
                 (fun p => globalFamily pars cat mM p _ _ _ _ _)
                 (fun p => perIndexFamily pars cat mM p _ _ _ _ _ _ _ _)
                 [_] [_]).
        -- apply writesWithin_global. slice_fits_tac.
        -- per_night_tac.
      * apply (writesWithin_compose
                 (fun p => globalFamily pars cat mM p _ _ _ _ _)
                 (fun p => globalFamily pars cat mM p _ _ _ _ _)
                 [_] [_]).
        -- apply writesWithin_global. slice_fits_tac.
        -- apply writesWithin_global. slice_fits_tac.
  - unfold blockPWVNoExternal, uNightIndex.
    apply (writesWithin_compose
             (fun p => perIndexFamily pars cat mM p _ _ _ _ _ _ _ _)
             (fun p => perIndexFamily pars cat mM p _ _ _ _ _ _ _ _)
             [_] [_]).
    + per_night_tac.
    + per_night_tac.
Qed.

Lemma blockTauExternal_within :
  writesWithin (blockTauExternal cfg opts pars cat mM mE sS GO)
    (if hasExternalTau (modes pars)
     then [(parExternalTauOffsetLoc (layout pars), nCampaignNights (layout pars));
           (parExternalTauScaleLoc (layout pars), 1%nat)]
     else []).
Proof.
  unfold blockTauExternal.
  destruct (hasExternalTau (modes pars)) eqn:E; [|apply writesWithin_id].
  apply (writesWithin_compose
           (fun p => perIndexFamily pars cat mM p _ _ _ _ _ _ _ _)
           (fun p => globalFamily pars cat mM p _ _ _ _ _)
           [_] [_]).
  - per_night_tac.
  - apply writesWithin_global. slice_fits_tac.
Qed.

Lemma blockTauNoExternal_within :
  writesWithin (blockTauNoExternal cfg opts pars cat mM mE sS GO)
    [(parLnTauInterceptLoc (layout pars), nCampaignNights (layout pars));
     (parLnTauSlopeLoc (layout pars), nCampaignNights (layout pars))].
Proof.
  unfold blockTauNoExternal.
  apply (writesWithin_compose
           (fun p => perIndexFamily pars cat mM p _ _ _ _ _ _ _ _)
           (fun p => perIndexFamily pars cat mM p _ _ _ _ _ _ _ _)
           [_] [_]); per_night_tac.
Qed.

Lemma blockWash_within :
  writesWithin (blockWash opts pars cat mM mE GO)
    [(parQESysInterceptLoc (layout pars), nWashIntervals (layout pars));
     (parQESysSlopeLoc (layout pars), nWashIntervals (layout pars))].
Proof.
  unfold blockWash, uWashIndex.
  apply (writesWithin_compose
           (fun p => perIndexFamily pars cat mM p _ _ _ _ _ _ _ _)
           (fun p => perIndexFamily pars cat mM p _ _ _ _ _ _ _ _)
           [_] [_]); per_wash_tac.
Qed.

(** The blocks that follow the ozone block. *)
Definition afterO3 (p : nat -> Q) : nat -> Q :=
  blockWash opts pars cat mM mE GO
    (blockTauNoExternal cfg opts pars cat mM mE sS GO
       (blockTauExternal cfg opts pars cat mM mE sS GO
          (blockPWV cfg opts pars cat mM mE sS GO
             (blockPWVExternal cfg opts pars cat mM mE sS GO
                (blockAlpha cfg opts pars cat mM mE sS GO p))))).

Lemma afterO3_within : writesWithin afterO3 (otherSlices pars).
Proof.
  unfold afterO3, otherSlices.
  apply (writesWithin_compose (blockAlpha cfg opts pars cat mM mE sS GO)
           (fun p => blockWash opts pars cat mM mE GO
                       (blockTauNoExternal cfg opts pars cat mM mE sS GO
                          (blockTauExternal cfg opts pars cat mM mE sS GO
                             (blockPWV cfg opts pars cat mM mE sS GO
                                (blockPWVExternal cfg opts pars cat mM mE sS GO p)))))
           [_] _); [apply blockAlpha_within|].
  apply (writesWithin_compose (blockPWVExternal cfg opts pars cat mM mE sS GO)
           (fun p => blockWash opts pars cat mM mE GO
                       (blockTauNoExternal cfg opts pars cat mM mE sS GO
                          (blockTauExternal cfg opts pars cat mM mE sS GO
                             (blockPWV cfg opts pars cat mM mE sS GO p))))
           _ _); [apply blockPWVExternal_within|].
  apply (writesWithin_compose (blockPWV cfg opts pars cat mM mE sS GO)
           (fun p => blockWash opts pars cat mM mE GO
                       (blockTauNoExternal cfg opts pars cat mM mE sS GO
                          (blockTauExternal cfg opts pars cat mM mE sS GO p)))
           _ _); [apply blockPWV_within|].
  apply (writesWithin_compose (blockTauExternal cfg opts pars cat mM mE sS GO)
           (fun p => blockWash opts pars cat mM mE GO
                       (blockTauNoExternal cfg opts pars cat mM mE sS GO p))
           _ _); [apply blockTauExternal_within|].
  apply (writesWithin_compose (blockTauNoExternal cfg opts pars cat mM mE sS GO)
           (blockWash opts pars cat mM mE GO) [_; _] [_; _]);
    [apply blockTauNoExternal_within|apply blockWash_within].
Qed.

Lemma derivatives_within :
  writesWithin (derivatives cfg opts pars cat mM mE sS GO)
               (o3Slice pars :: otherSlices pars).
Proof.
  change (writesWithin (fun p => afterO3 (blockO3 cfg opts pars cat mM mE sS GO p))
                       ([o3Slice pars] ++ otherSlices pars)).
  apply writesWithin_compose; [apply blockO3_within|apply afterO3_within].
Qed.

(** What the worker's array holds outside the gradient slices. *)
Lemma above_slices (j : nat) :
  (2 * nF <= j)%nat ->
  forall sl, In sl (o3Slice pars :: otherSlices pars) ->
             ~ inSlice j sl /\ ~ inSlice j ((nF + fst sl)%nat, snd sl).
Proof.
  intros Hj sl Hin. pose proof (slice_fits sl Hin) as Hfit.
  unfold inSlice. simpl. lia.
Qed.

Lemma derivatives_above p j :
  (2 * nF <= j)%nat -> derivatives cfg opts pars cat mM mE sS GO p j = p j.
Proof.
  intros Hj. apply (proj1 derivatives_within). now apply above_slices.
Qed.

Lemma derivatives_counts_nonneg p j :
  (nF <= j)%nat -> 0 <= p j -> 0 <= derivatives cfg opts pars cat mM mE sS GO p j.
Proof.
  intros Hj Hp. eapply Qle_trans; [exact Hp|].
  now apply (proj2 derivatives_within).
Qed.

End DerivFacts.

(** *** Sums *)

Lemma fold_Qplus_acc (l : list Q) (a : Q) : fold_left Qplus l a == a + sum l.
Proof.
  unfold sum. revert a. induction l as [|x l IH]; intros a; simpl; [ring|].
  rewrite IH, (IH (0 + x)). ring.
Qed.

Lemma sum_cons (x : Q) (l : list Q) : sum (x :: l) == x + sum l.
Proof. unfold sum at 1. simpl. rewrite fold_Qplus_acc. ring. Qed.

Lemma sum_map_ext {X} (f g : X -> Q) (l : list X) :
  (forall x, In x l -> f x == g x) -> sum (map f l) == sum (map g l).
Proof.
  induction l as [|x l IH]; intros Hfg; simpl; [reflexivity|].
  assert (Hx : f x == g x) by (apply Hfg; now left).
  assert (Hl : sum (map f l) == sum (map g l))
    by (apply IH; intros y Hy; apply Hfg; now right).
  rewrite !sum_cons, Hx, Hl. reflexivity.
Qed.

Lemma sum_nonneg (l : list Q) : (forall x, In x l -> 0 <= x) -> 0 <= sum l.
Proof.
  induction l as [|x l IH]; intros Hpos; [unfold sum; simpl; lra|].
  rewrite sum_cons. pose proof (Hpos x (or_introl eq_refl)).
  assert (0 <= sum l) by (apply IH; intros y Hy; apply Hpos; now right). lra.
Qed.

Lemma sum_inject_nat {X} (f : X -> nat) (l : list X) :
  sum (map (fun x => inject_Z (Z.of_nat (f x))) l)
  == inject_Z (Z.of_nat (list_sum (map f l))).
Proof.
  induction l as [|x l IH]; simpl; [reflexivity|].
  rewrite sum_cons, IH, Nat2Z.inj_add, inject_Z_plus. reflexivity.
Qed.

(** *** What the workers add up *)

Lemma combine_map_self {A B} (f : A -> B) (l : list A) :
  combine l (map f l) = map (fun x => (x, f x)) l.
Proof. induction l as [|x l IH]; simpl; [reflexivity|now rewrite IH]. Qed.

Lemma filter_map_comm {A B} (p : B -> bool) (h : A -> B) (l : list A) :
  filter p (map h l) = map h (filter (fun x => p (h x)) l).
Proof.
  induction l as [|x l IH]; simpl; [reflexivity|].
  destruct (p (h x)); simpl; now rewrite IH.
Qed.

Section TotalFacts.
Context {M : Libm} {L : FgcmLUT} {PM : ParsMethods} {SM : StarsMethods}.
Variable cfg : Config.
Variable opts : Options.
Variable pars : FgcmParameters.

#[local] Abbreviation nP := (nFitPars (layout pars)).
#[local] Abbreviation run_t := (FgcmStars * (list nat * list nat))%type.

Lemma partialArray0_chisq cat mM GO :
  partialArray0 opts pars cat mM GO (nSums opts pars - 2)%nat
  = partialChisq pars cat mM GO.
Proof.
  unfold partialArray0. rewrite put_one_other, put_one_same; [reflexivity|].
  unfold nSums. destruct (computeDerivatives opts); lia.
Qed.

Lemma partialArray0_count cat mM GO :
  partialArray0 opts pars cat mM GO (nSums opts pars - 1)%nat
  = inject_Z (Z.of_nat (length (fitUse pars cat GO))).
Proof. unfold partialArray0. apply put_one_same. Qed.

Lemma partialArray0_touch cat mM GO i :
  computeDerivatives opts = true -> (i < nP)%nat ->
  partialArray0 opts pars cat mM GO (nP + i)%nat = 0.
Proof.
  intros Hd Hi. unfold partialArray0, nSums. rewrite Hd.
  rewrite !put_one_other by lia. reflexivity.
Qed.

Lemma partialChisq_terms (run : run_t) :
  partialChisq pars (catalog (fst run))
               (objMagStdMean (workerStore cfg opts pars (fst run) (snd run)))
               (workerGO cfg opts pars (fst run) (snd run))
  == weightedChisq (fitTerms cfg opts pars run).
Proof.
  unfold partialChisq, weightedChisq, fitTerms. rewrite map_map. simpl.
  apply sum_map_ext. intros r _. apply Qmult_comm.
Qed.

(** [partialSums] is the sum of the arrays of the workers. *)
Lemma runWorkers_slot (j : nat) :
  forall (wl : list (list nat * list nat)) (st : FgcmStars) (acc : nat -> Q),
    snd (fold_left (fun acc w => let r := worker cfg opts pars (fst acc) w in
                                 (fst r, addArrays (snd acc) (snd r)))
                   wl (st, acc)) j
    == acc j + traceSlot cfg opts pars (workerTrace cfg opts pars st wl) j.
Proof.
  induction wl as [|w wl IH]; intros st acc; simpl.
  - unfold traceSlot, sum. simpl. ring.
  - rewrite IH. unfold traceSlot. simpl. rewrite sum_cons.
    unfold addArrays. ring.
Qed.

Lemma partialSums_slot (st : FgcmStars) (wl : list (list nat * list nat)) (j : nat) :
  snd (runWorkers cfg opts pars st wl) j
  == traceSlot cfg opts pars (workerTrace cfg opts pars st wl) j.
Proof. unfold runWorkers. rewrite runWorkers_slot. unfold zeros. ring. Qed.

Hypothesis Hfit : allExposures opts = false.
Hypothesis Hlayout : computeDerivatives opts = true -> validLayout pars.

Lemma worker_array (st : FgcmStars) (w : list nat * list nat) :
  snd (worker cfg opts pars st w)
  = partialArray cfg opts pars (catalog st)
                 (objMagStdMean (workerStore cfg opts pars st w))
                 (objMagStdMeanErr (workerStore cfg opts pars st w))
                 (objSEDSlope (workerStore cfg opts pars st w))
                 (workerGO cfg opts pars st w).
Proof. unfold worker. now rewrite Hfit. Qed.

(** The terms a worker sums are the weights and residuals of its
    fit-band observations, as the table and the store it leaves give
    them. *)
Lemma fitTerms_from_store (run : run_t) :
  fitTerms cfg opts pars run
  = map (fun o => (obsWeight run o, obsResidual cfg opts pars run o))
        (fitBandObs pars run).
Proof.
  unfold fitTerms, fitUse, fitBandObs, workerGO, take.
  rewrite combine_map_self, filter_map_comm, map_map. cbn [fst].
  apply map_ext. intros o.
  unfold obsWeight, obsResidual, obsWeightGO, obsMagErr2GO, deltaMagGO, objBand, sq.
  cbn [fst snd]. unfold worker. rewrite Hfit. reflexivity.
Qed.

Lemma trace_totals (tr : list run_t) :
  traceChisq cfg opts pars tr = totalChisq cfg opts pars tr
  /\ traceFitObs cfg opts pars tr = totalFitObs pars tr.
Proof.
  unfold traceChisq, totalChisq, traceFitObs, totalFitObs. split.
  - f_equal. apply map_ext. intros run. unfold weightedChisq.
    rewrite fitTerms_from_store, map_map. reflexivity.
  - f_equal. apply map_ext. intros run.
    now rewrite fitTerms_from_store, length_map.
Qed.

(** The slots of one worker: chi-squared, number of fit observations,
    and touch counters that are never negative. *)
Lemma worker_slots (run : run_t) :
  let a := snd (worker cfg opts pars (fst run) (snd run)) in
  a (nSums opts pars - 2)%nat == weightedChisq (fitTerms cfg opts pars run)
  /\ a (nSums opts pars - 1)%nat
     = inject_Z (Z.of_nat (length (fitTerms cfg opts pars run)))
  /\ (computeDerivatives opts = true ->
      forall i, (i < nP)%nat -> 0 <= a (nP + i)%nat).
Proof.
  intros a. subst a. rewrite worker_array. unfold partialArray.
  destruct (computeDerivatives opts) eqn:Hd.
  - pose proof (Hlayout eq_refl) as Hv.
    assert (Hn : nSums opts pars = (2 + 2 * nP)%nat)
      by (unfold nSums; now rewrite Hd).
    split; [|split].
    + rewrite derivatives_above by (assumption || lia).
      rewrite partialArray0_chisq. apply partialChisq_terms.
    + rewrite derivatives_above by (assumption || lia).
      rewrite partialArray0_count. unfold fitTerms. now rewrite length_map.
    + intros _ i Hi. apply derivatives_counts_nonneg; [assumption|lia|].
      rewrite partialArray0_touch by assumption. apply Qle_refl.
  - split; [|split]; [| |discriminate].
    + rewrite partialArray0_chisq. apply partialChisq_terms.
    + rewrite partialArray0_count. unfold fitTerms. now rewrite length_map.
Qed.

Lemma traceSlot_chisq (tr : list run_t) :
  traceSlot cfg opts pars tr (nSums opts pars - 2)%nat == traceChisq cfg opts pars tr.
Proof.
  unfold traceSlot, traceChisq. apply sum_map_ext. intros run _.
  apply (worker_slots run).
Qed.

Lemma traceSlot_count (tr : list run_t) :
  traceSlot cfg opts pars tr (nSums opts pars - 1)%nat
  == inject_Z (Z.of_nat (traceFitObs cfg opts pars tr)).
Proof.
  unfold traceSlot, traceFitObs. rewrite <- sum_inject_nat.
  apply sum_map_ext. intros run _.
  rewrite (proj1 (proj2 (worker_slots run))). reflexivity.
Qed.

Lemma traceTouch_nonneg (tr : list run_t) (i : nat) :
  computeDerivatives opts = true -> (i < nP)%nat ->
  0 <= traceTouch cfg opts pars tr i.
Proof.
  intros Hd Hi. unfold traceTouch, traceSlot. apply sum_nonneg.
  intros x Hx. apply in_map_iff in Hx. destruct Hx as (run & <- & _).
  now apply (proj2 (proj2 (worker_slots run))).
Qed.

(** A touch counter is positive exactly when it is not zero. *)
Lemma countTouched_nonzero (st : FgcmStars) (wl : list (list nat * list nat)) :
  computeDerivatives opts = true ->
  countTouched pars (snd (runWorkers cfg opts pars st wl))
  = touchedCount cfg opts pars (workerTrace cfg opts pars st wl).
Proof.
  intros Hd. unfold countTouched, touchedCount, np_where. f_equal.
  apply filter_ext_in. intros i Hi. apply in_seq in Hi.
  pose proof (traceTouch_nonneg (workerTrace cfg opts pars st wl) i Hd
                                (proj2 Hi)) as Hpos.
  pose proof (partialSums_slot st wl (nP + i)) as Heq.
  fold (traceTouch cfg opts pars (workerTrace cfg opts pars st wl) i) in Heq.
  unfold Qgtb, Qltb, Qneqb. f_equal. rewrite Heq.
  destruct (Qle_bool _ 0) eqn:Hle, (Qeq_bool _ 0) eqn:Hz; try reflexivity.
  - apply Qle_bool_iff in Hle. apply Qeq_bool_neq in Hz.
    exfalso. apply Hz. lra.
  - apply Qeq_bool_iff in Hz. rewrite Hz in Hle. discriminate.
Qed.

End TotalFacts.

Section Objective.
Context {M : Libm} {L : FgcmLUT} {PM : ParsMethods} {SM : StarsMethods}.
Variable cfg : Config.

Lemma nth_map_seq (f : nat -> Q) (n i : nat) :
  (i < n)%nat -> nth i (map f (seq 0 n)) 0 = f i.
Proof.
  intros Hi. rewrite (nth_indep _ 0 (f O)) by now rewrite length_map, length_seq.
  rewrite map_nth, seq_nth by assumption. reflexivity.
Qed.

(** C1. A call with [allExposures=False] that completes without error
    returns the total accumulated weighted chi-squared divided by the
    degrees of freedom.  The total is the sum, over the workers the call
    runs and over the observations of each worker's section whose band is
    one of [fitBandIndex], of the weight [1 / obsMagADUModelErr^2] times
    the squared residual [obsMagStd - objMagStdMean[object, band]], both
    arrays read from the store the worker leaves.  The degrees of freedom
    are the number of these observations minus the active-parameter
    count; with [computeDerivatives=True] that count is the number of
    parameters whose summed touch counter is not zero and the returned
    gradient is the summed per-parameter derivative divided by the same
    degrees of freedom (otherwise the count is the one kept from before
    and no gradient is returned).  The parameter container is assumed to
    lay the active slices out inside the fit-parameter vector. *)
Theorem objective_is_chisq_per_dof opts fitParams s s' out :
  allExposures opts = false ->
  (computeDerivatives opts = true -> validLayout (reloadedPars opts fitParams s)) ->
  call cfg opts fitParams s = (s', Ok out) ->
  let pars := reloadedPars opts fitParams s in
  let tr := callTrace cfg opts fitParams s in
  let active := if computeDerivatives opts then touchedCount cfg opts pars tr
                else nActualFitPars (engine s) in
  let dof := inject_Z (Z.of_nat (totalFitObs pars tr))
             - inject_Z (Z.of_nat active) in
  0 < dof
  /\ fitChisq out == totalChisq cfg opts pars tr / dof
  /\ nActualFitPars (engine s') = active
  /\ (computeDerivatives opts = true ->
      exists g, dChisqdP out = Some g
                /\ length g = nFitPars (layout pars)
                /\ forall i, (i < nFitPars (layout pars))%nat ->
                             nth i g 0 == traceGradient cfg opts pars tr i / dof)
  /\ (computeDerivatives opts = false -> dChisqdP out = None).
Proof.
  intros Hall Hlay Hcall pars tr active.
  destruct (trace_totals cfg opts pars Hall tr) as [Hchisq Hcount].
  rewrite <- Hchisq, <- Hcount. clear Hchisq Hcount. intros dof.
  destruct (call_ok_inv cfg _ _ _ _ _ Hcall)
    as (gss & go & cache & st' & ps & _ & Hm & Hd & Hfin).
  destruct (dispatch_ok_inv cfg _ _ _ _ _ _ _ Hd) as (wl & _ & Hps & Hwl).
  fold pars in Hm, Hd, Hfin, Hps, Hwl.
  assert (Htr : tr = workerTrace cfg opts pars (resetStars opts (fgcmStars s)) wl).
  { subst tr. unfold callTrace. fold pars. now rewrite Hm, Hwl. }
  set (e := {| fitChisqs := fitChisqs (engine s);
               nActualFitPars := nActualFitPars (engine s);
               matchCache := cache |}) in *.
  assert (Hact : actualFitPars opts e pars ps = active).
  { unfold actualFitPars. subst active.
    destruct (computeDerivatives opts) eqn:Hder; [|reflexivity].
    rewrite Hps, Htr. now apply countTouched_nonzero; auto. }
  assert (Hdof : fitDOF opts e pars ps == dof).
  { unfold fitDOF. subst dof. rewrite Hact, Hps, Htr.
    rewrite partialSums_slot, traceSlot_count by assumption. reflexivity. }
  revert Hfin. unfold finish. rewrite Hall. simpl.
  destruct (Qleb (fitDOF opts e pars ps) 0) eqn:Hle; [discriminate|].
  apply Qleb_gt in Hle. intros [= <- <-]. simpl.
  split; [now rewrite <- Hdof|]. split.
  { rewrite Hdof, Hps, Htr.
    rewrite partialSums_slot, traceSlot_chisq by assumption. reflexivity. }
  split; [exact Hact|]. split.
  - intros Hder. rewrite Hder. eexists. split; [reflexivity|]. split.
    + now rewrite length_map, length_seq.
    + intros i Hi. rewrite nth_map_seq by assumption.
      rewrite Hdof, Hps, Htr. rewrite partialSums_slot. reflexivity.
  - intros Hder. now rewrite Hder.
Qed.

End Objective.

(** *** Repeating a call *)

Section Replay.
Context {M : Libm} {L : FgcmLUT} {PM : ParsMethods} {SM : StarsMethods}.
Variable cfg : Config.
Variable opts : Options.
Variable pars : FgcmParameters.

Hypothesis Hsed : computeSEDSlopes opts = false.
Hypothesis Hfit : allExposures opts = false.

(** The rows a worker reads back do not depend on what [obsMagStd] held,
    nor on the "computed" flags. *)
Lemma workerGO_volatile st X c ac w :
  workerGO cfg opts pars (set_volatile st X c ac) w = workerGO cfg opts pars st w.
Proof.
  unfold workerGO. f_equal. unfold take, workerMagStd, workerSED.
  rewrite Hsed. apply map_ext_in. intros o Ho.
  apply (put_read_back
           (fun o => obsMagGO cfg opts pars (catalog st) o
                     + deltaStdGO cfg pars (catalog st) st o)
           (snd w) X (obsMagStd st) o Ho).
Qed.

Lemma worker_volatile st X c ac w :
  exists X',
    worker cfg opts pars (set_volatile st X c ac) w
    = (set_volatile (fst (worker cfg opts pars st w)) X' c ac,
       snd (worker cfg opts pars st w)).
Proof.
  exists (workerMagStd cfg opts pars (set_volatile st X c ac) w).
  unfold worker. rewrite Hfit. cbv zeta. cbn [fst snd].
  unfold workerStore. rewrite workerGO_volatile.
  unfold workerSED. rewrite Hsed.
  reflexivity.
Qed.

Lemma runWorkers_volatile :
  forall wl st X c ac acc,
  exists X',
    fold_left (fun acc w => let r := worker cfg opts pars (fst acc) w in
                            (fst r, addArrays (snd acc) (snd r)))
              wl (set_volatile st X c ac, acc)
    = (set_volatile
         (fst (fold_left (fun acc w => let r := worker cfg opts pars (fst acc) w in
                                       (fst r, addArrays (snd acc) (snd r)))
                         wl (st, acc))) X' c ac,
       snd (fold_left (fun acc w => let r := worker cfg opts pars (fst acc) w in
                                    (fst r, addArrays (snd acc) (snd r)))
                      wl (st, acc))).
Proof.
  induction wl as [|w wl IH]; intros st X c ac acc; simpl.
  - now exists X.
  - destruct (worker_volatile st X c ac w) as [X' ->]. simpl. apply IH.
Qed.

Lemma runWorkers_volatile_snd wl st X c ac :
  snd (runWorkers cfg opts pars (set_volatile st X c ac) wl)
  = snd (runWorkers cfg opts pars st wl).
Proof.
  unfold runWorkers.
  destruct (runWorkers_volatile wl st X c ac zeros) as [X' HX].
  exact (f_equal snd HX).
Qed.

Lemma workerRun_volatile st X c ac w :
  exists X',
    workerRun cfg opts pars (set_volatile st X c ac) w
    = (set_volatile (fst (workerRun cfg opts pars st w)) X' c ac,
       snd (workerRun cfg opts pars st w)).
Proof.
  unfold workerRun. change (catalog (set_volatile st X c ac)) with (catalog st).
  destruct (esutil_match_in _ _ _) as [obsFitUse|]; [|now exists X].
  destruct (worker_volatile st X c ac w) as [X' ->]. cbn [fst snd].
  exists X'. destruct (_ && _ && _); reflexivity.
Qed.

Lemma runChecked_volatile :
  forall wl st X c ac acc,
  exists X',
    runChecked cfg opts pars (set_volatile st X c ac) wl acc
    = (set_volatile (fst (runChecked cfg opts pars st wl acc)) X' c ac,
       snd (runChecked cfg opts pars st wl acc)).
Proof.
  induction wl as [|w wl IH]; intros st X c ac acc; cbn [runChecked].
  - now exists X.
  - destruct (workerRun_volatile st X c ac w) as [X' ->].
    destruct (workerRun cfg opts pars st w) as [st1 [a|e]]; cbn [fst snd].
    + apply IH.
    + now exists X'.
Qed.

(** Without the SED-slope block a worker leaves the catalog and the SED
    slopes as they are. *)
Lemma worker_keeps st w :
  catalog (fst (worker cfg opts pars st w)) = catalog st
  /\ objSEDSlope (fst (worker cfg opts pars st w)) = objSEDSlope st.
Proof.
  unfold worker. rewrite Hfit. cbv zeta. cbn [fst].
  unfold workerStore, workerSED. rewrite Hsed. split; reflexivity.
Qed.

Lemma runWorkers_keeps wl :
  forall st acc,
    let r := fold_left (fun acc w => let r := worker cfg opts pars (fst acc) w in
                                     (fst r, addArrays (snd acc) (snd r)))
                       wl (st, acc) in
    catalog (fst r) = catalog st /\ objSEDSlope (fst r) = objSEDSlope st.
Proof.
  induction wl as [|w wl IH]; intros st acc; [split; reflexivity|].
  destruct (IH (fst (worker cfg opts pars st w))
               (addArrays acc (snd (worker cfg opts pars st w)))) as [Hc Hs].
  destruct (worker_keeps st w) as [Hc' Hs'].
  split; [exact (eq_trans Hc Hc')|exact (eq_trans Hs Hs')].
Qed.

Lemma runWorkers_catalog wl st :
  catalog (fst (runWorkers cfg opts pars st wl)) = catalog st
  /\ objSEDSlope (fst (runWorkers cfg opts pars st wl)) = objSEDSlope st.
Proof. exact (runWorkers_keeps wl st zeros). Qed.

End Replay.

Section Idempotence.
Context {M : Libm} {L : FgcmLUT} {PM : ParsMethods} {SM : StarsMethods}.
Variable cfg : Config.
Variable opts : Options.
Variable fitParams : list Q.

Hypothesis Hsed : computeSEDSlopes opts = false.
Hypothesis Hfit : allExposures opts = false.

(** The cache [matching] looks at. *)
Definition effCache (e : Engine) : option (list nat * list nat) :=
  if useMatchCache opts then matchCache e else None.

(** [t] can stand for [s] when the call is repeated. *)
Definition replays (s t : State) : Prop :=
  reloadedPars opts fitParams t = reloadedPars opts fitParams s
  /\ catalog (fgcmStars t) = catalog (fgcmStars s)
  /\ objSEDSlope (fgcmStars t) = objSEDSlope (fgcmStars s)
  /\ (computeDerivatives opts = false ->
      nActualFitPars (engine t) = nActualFitPars (engine s))
  /\ (effCache (engine t) = effCache (engine s)
      \/ (effCache (engine s) = None
          /\ exists gss go ch,
              matching cfg opts (engine s) (reloadedPars opts fitParams s)
                       (resetStars opts (fgcmStars s)) = Ok (gss, go, ch)
              /\ effCache (engine t) = Some (gss, go))).

Lemma reset_replay (a b : FgcmStars) :
  catalog a = catalog b -> objSEDSlope a = objSEDSlope b ->
  resetStars opts a
  = set_volatile (resetStars opts b) (obsMagStd a) (magStdComputed a)
                 (allMagStdComputed a).
Proof.
  intros Hc Hs. unfold resetStars. rewrite Hfit. simpl.
  unfold set_objMeans, set_volatile. simpl. now rewrite Hc, Hs.
Qed.

Lemma matching_replay (es et : Engine) pars R X c ac :
  (effCache et = effCache es
   \/ (effCache es = None
       /\ exists gss go ch, matching cfg opts es pars R = Ok (gss, go, ch)
                            /\ effCache et = Some (gss, go))) ->
  match matching cfg opts es pars R,
        matching cfg opts et pars (set_volatile R X c ac) with
  | Ok (g1, o1, _), Ok (g2, o2, _) => g1 = g2 /\ o1 = o2
  | Raise a, Raise b => a = b
  | _, _ => False
  end.
Proof.
  change (matching cfg opts et pars (set_volatile R X c ac))
    with (matching cfg opts et pars R).
  unfold matching. fold (effCache es). fold (effCache et).
  intros [Heq|(Hnone & gss & go & ch & Hm & Hsome)].
  - rewrite Heq. destruct (effCache es) as [[a b]|]; [auto|].
    destruct (esutil_match _ _ _) as [[|[sub0 o0] m]|]; [reflexivity| |reflexivity].
    destruct (negb (sub0 =? 0)%nat); [reflexivity|]. auto.
  - revert Hm. unfold matching. fold (effCache es). rewrite Hnone, Hsome.
    destruct (esutil_match _ _ _) as [[|[sub0 o0] m]|]; [discriminate| |discriminate].
    destruct (negb (sub0 =? 0)%nat); [discriminate|].
    intros [= <- <- _]. auto.
Qed.

Lemma finish_replay (es et : Engine) pars st1 st2 ps :
  (computeDerivatives opts = false -> nActualFitPars et = nActualFitPars es) ->
  snd (finish opts et pars st2 ps) = snd (finish opts es pars st1 ps).
Proof.
  intros Hn.
  assert (Ha : actualFitPars opts et pars ps = actualFitPars opts es pars ps).
  { unfold actualFitPars. destruct (computeDerivatives opts); auto. }
  assert (Hd : fitDOF opts et pars ps = fitDOF opts es pars ps).
  { unfold fitDOF. now rewrite Ha. }
  unfold finish. rewrite Hfit. simpl. rewrite Hd.
  destruct (Qleb _ 0); reflexivity.
Qed.

(** A state that replays [s] gives the same result. *)
Lemma call_replay (s t : State) :
  replays s t ->
  snd (call cfg opts fitParams t) = snd (call cfg opts fitParams s).
Proof.
  intros (Hp & Hc & Hs & Hn & Hcache).
  unfold call. destruct (badOptions opts); [reflexivity|].
  rewrite Hp. rewrite (reset_replay (fgcmStars t) (fgcmStars s) Hc Hs).
  set (R := resetStars opts (fgcmStars s)) in *.
  set (pars := reloadedPars opts fitParams s) in *.
  change (goodStars cfg opts (set_volatile R (obsMagStd (fgcmStars t))
                                (magStdComputed (fgcmStars t))
                                (allMagStdComputed (fgcmStars t))))
    with (goodStars cfg opts R).
  destruct (goodStars cfg opts R) as [|g0 gs] eqn:Hgs; [reflexivity|].
  pose proof (matching_replay (engine s) (engine t) pars R
                (obsMagStd (fgcmStars t)) (magStdComputed (fgcmStars t))
                (allMagStdComputed (fgcmStars t)) Hcache) as Hm.
  destruct (matching cfg opts (engine s) pars R) as [[[g1 o1] c1]|e1];
    destruct (matching cfg opts (engine t) pars (set_volatile R _ _ _))
      as [[[g2 o2] c2]|e2]; try contradiction.
  2:{ now rewrite Hm. }
  destruct Hm as [<- <-]. unfold dispatch.
  change (workerChunks cfg opts (set_volatile R (obsMagStd (fgcmStars t))
                                   (magStdComputed (fgcmStars t))
                                   (allMagStdComputed (fgcmStars t))) g1 o1)
    with (workerChunks cfg opts R g1 o1).
  destruct (workerChunks cfg opts R g1 o1) as [wl|]; [|reflexivity].
  destruct (runChecked_volatile cfg opts pars Hsed Hfit wl R
              (obsMagStd (fgcmStars t)) (magStdComputed (fgcmStars t))
              (allMagStdComputed (fgcmStars t)) zeros) as [X' ->].
  destruct (runChecked cfg opts pars R wl zeros) as [st1 [ps|e]]; cbn [fst snd].
  - apply finish_replay. exact Hn.
  - reflexivity.
Qed.

Lemma matching_cache_agrees e pars R gss go cache :
  matching cfg opts e pars R = Ok (gss, go, cache) ->
  (if useMatchCache opts then cache else None) = effCache e
  \/ (effCache e = None
      /\ (if useMatchCache opts then cache else None) = Some (gss, go)).
Proof.
  unfold matching. fold (effCache e). unfold effCache.
  destruct (useMatchCache opts); [|now left].
  destruct (matchCache e) as [[a b]|].
  - intros [= <- <- <-]. now left.
  - destruct (esutil_match _ _ _) as [[|[sub0 o0] m]|]; [discriminate| |discriminate].
    destruct (negb (sub0 =? 0)%nat); [discriminate|].
    intros [= <- <- <-]. now right.
Qed.

Lemma finish_state e pars st ps :
  let t := fst (finish opts e pars st ps) in
  fgcmPars t = pars
  /\ catalog (fgcmStars t) = catalog st
  /\ objSEDSlope (fgcmStars t) = objSEDSlope st
  /\ matchCache (engine t) = matchCache e
  /\ (computeDerivatives opts = false -> nActualFitPars (engine t) = nActualFitPars e).
Proof.
  unfold finish. rewrite Hfit. simpl.
  destruct (Qleb _ 0); simpl; repeat split; auto;
    unfold actualFitPars; now intros ->.
Qed.

Hypothesis Hreload :
  forall p, parsToExposures
              (reloadParArray
                 (parsToExposures (reloadParArray p fitParams (fitterUnits opts)))
                 fitParams (fitterUnits opts))
            = parsToExposures (reloadParArray p fitParams (fitterUnits opts)).

(** The state a call leaves replays the state it started from. *)
Lemma call_leaves_replay (s : State) :
  replays s (fst (call cfg opts fitParams s)).
Proof.
  assert (Hrefl : forall e, e = engine s ->
            replays s {| engine := e;
                         fgcmPars := reloadedPars opts fitParams s;
                         fgcmStars := resetStars opts (fgcmStars s) |}).
  { intros e ->. unfold replays, reloadedPars, resetStars. rewrite Hfit. simpl.
    repeat split; auto. }
  unfold call. destruct (badOptions opts).
  { simpl. unfold replays. repeat split; auto. }
  destruct (goodStars cfg opts (resetStars opts (fgcmStars s))); [now apply Hrefl|].
  destruct (matching cfg opts (engine s) (reloadedPars opts fitParams s)
                     (resetStars opts (fgcmStars s)))
    as [[[gss go] cache]|err] eqn:Hm; [|now apply Hrefl].
  pose proof (matching_cache_agrees _ _ _ _ _ _ Hm) as Hcache.
  assert (Hgen : forall t,
            fgcmPars t = reloadedPars opts fitParams s ->
            catalog (fgcmStars t) = catalog (fgcmStars s) ->
            objSEDSlope (fgcmStars t) = objSEDSlope (fgcmStars s) ->
            matchCache (engine t) = cache ->
            (computeDerivatives opts = false ->
             nActualFitPars (engine t) = nActualFitPars (engine s)) ->
            replays s t).
  { intros t Hp Hc Hs Hch Hn. unfold replays. repeat split; auto.
    - unfold reloadedPars at 1. rewrite Hp. apply Hreload.
    - assert (He : effCache (engine t)
                   = if useMatchCache opts then cache else None)
        by (unfold effCache; now rewrite Hch).
      rewrite He.
      destruct Hcache as [Heq|[Hnone Hsome]]; [now left|right].
      split; [exact Hnone|]. exists gss, go, cache. split; [exact Hm|].
      exact Hsome. }
  assert (HR : catalog (resetStars opts (fgcmStars s)) = catalog (fgcmStars s)
               /\ objSEDSlope (resetStars opts (fgcmStars s))
                  = objSEDSlope (fgcmStars s)).
  { unfold resetStars. rewrite Hfit. split; reflexivity. }
  destruct HR as [HRc HRs].
  destruct (dispatch cfg opts (reloadedPars opts fitParams s)
                     (resetStars opts (fgcmStars s)) gss go)
    as [[st' ps]|err] eqn:Hd.
  2:{ destruct (dispatchStore_run cfg opts (reloadedPars opts fitParams s)
                  (resetStars opts (fgcmStars s)) gss go) as [wl Hwl].
      destruct (runWorkers_catalog cfg opts (reloadedPars opts fitParams s) Hsed Hfit
                  wl (resetStars opts (fgcmStars s))) as [Hkc Hks].
      rewrite <- Hwl in Hkc, Hks.
      apply Hgen; simpl; auto.
      - now rewrite Hkc.
      - now rewrite Hks. }
  destruct (dispatch_ok_inv cfg _ _ _ _ _ _ _ Hd) as (wl & Hst' & _ & _).
  destruct (runWorkers_catalog cfg opts (reloadedPars opts fitParams s) Hsed Hfit
              wl (resetStars opts (fgcmStars s))) as [Hkc Hks].
  rewrite <- Hst' in Hkc, Hks.
  destruct (finish_state
              {| fitChisqs := fitChisqs (engine s);
                 nActualFitPars := nActualFitPars (engine s);
                 matchCache := cache |}
              (reloadedPars opts fitParams s) st' ps)
    as (Fp & Fc & Fs & Fch & Fn).
  apply Hgen; auto.
  - now rewrite Fc, Hkc.
  - now rewrite Fs, Hks.
Qed.


End Idempotence.

(** *** The ozone family *)

Lemma le_max_of (x : nat) (l : list nat) : In x l -> (x <= fold_right Nat.max O l)%nat.
Proof.
  induction l as [|y l IH]; intros Hin; [destruct Hin|]. simpl.
  destruct Hin as [->|Hin]; [lia|]. specialize (IH Hin). lia.
Qed.

Lemma In_unique_iff (x : nat) (l : list nat) : In x (unique l) <-> In x l.
Proof.
  split; [apply In_unique|]. intros Hin. unfold unique.
  apply filter_In. split; [|now apply memb_In].
  apply in_seq. pose proof (le_max_of x l Hin). lia.
Qed.

Section OzoneFacts.
Context {M : Libm} {L : FgcmLUT} {PM : ParsMethods} {SM : StarsMethods}.
Variable cfg : Config.
Variable opts : Options.
Variable pars : FgcmParameters.
Variable cat : StarCatalog.
Variables mM mE sS : nat * nat -> Q.
Variable GO : list row.

Hypothesis Hvalid : validLayout pars.
Hypothesis Hapart : o3SliceApart pars.

#[local] Abbreviation GOF := (fitUse pars cat GO).
#[local] Abbreviation o3Loc := (parO3Loc (layout pars)).

#[local] Abbreviation ofNight := (Chisq.ofNight pars cat GO).
#[local] Abbreviation ofNightBand := (Chisq.ofNightBand pars cat GO).

(** The per-(night, band) accumulator as [np.add.at] and [np.multiply.at]
    leave it. *)
Lemma magdLdO3_cell (n b : nat) :
  magdLdO3 cfg pars cat mE sS GO (n, b)
  = fold_left Qmult (map (objMagStdMeanErr2GO cat mE) (ofNightBand n b))
      (sum (map (fun r => dO3 cfg pars cat sS r / obsMagErr2GO cat (fst r))
                (ofNightBand n b))).
Proof.
  unfold magdLdO3, magd2, multiply_at, add_at.
  rewrite ufunc_at_fold, ufunc_at_fold. reflexivity.
Qed.

Lemma afterO3_frame p j :
  inSlice j (o3Slice pars) -> afterO3 cfg opts pars cat mM mE sS GO p j = p j.
Proof.
  intros Hj. apply (proj1 (afterO3_within cfg opts pars cat mM mE sS GO Hvalid)).
  intros sl Hin. split; [now apply Hapart|].
  pose proof (slice_fits pars Hvalid (o3Slice pars) (or_introl eq_refl)) as Hfit.
  unfold inSlice, o3Slice in *. simpl in *. lia.
Qed.

Lemma blockO3_value p n :
  (n < nCampaignNights (layout pars))%nat ->
  p (o3Loc + n)%nat = 0 ->
  blockO3 cfg opts pars cat mM mE sS GO p (o3Loc + n)%nat
  == 2 / o3Unit (getUnitDict pars (fitterUnits opts))
     * sum (map (fun r => deltaMagWeightedGOF cat mM r
                          * (dO3 cfg pars cat sS r
                             - magdLdO3 cfg pars cat mE sS GO
                                        (nightOf pars cat r, bandOf cat r)))
                (ofNight n)).
Proof.
  intros Hn Hp. unfold blockO3, perIndexFamily.
  pose proof (slice_fits pars Hvalid (o3Slice pars) (or_introl eq_refl)) as Hfit.
  unfold o3Slice in Hfit. simpl in Hfit.
  rewrite inplace_out.
  2:{ intros Hin. apply in_map_iff in Hin. destruct Hin as (u & Hu & _). lia. }
  assert (Hadd :
    add_at p (map (fun r => (o3Loc + nightOf pars cat r)%nat) GOF)
           (map (fun r => deltaMagWeightedGOF cat mM r
                          * (dO3 cfg pars cat sS r
                             - magdLdO3 cfg pars cat mE sS GO
                                        (nightOf pars cat r, bandOf cat r)))
                GOF) (o3Loc + n)%nat
    = sum (map (fun r => deltaMagWeightedGOF cat mM r
                         * (dO3 cfg pars cat sS r
                            - magdLdO3 cfg pars cat mE sS GO
                                       (nightOf pars cat r, bandOf cat r)))
               (ofNight n))).
  { unfold add_at. rewrite ufunc_at_fold, Hp. unfold sum, Chisq.ofNight. do 2 f_equal.
    apply filter_ext. intros r. simpl.
    destruct (Nat.eqb_spec (nightOf pars cat r) n) as [->|Hne];
      [apply Nat.eqb_refl|]. apply Nat.eqb_neq. lia. }
  destruct (in_dec Nat.eq_dec n (uNightIndex pars cat GO)) as [Hin|Hnin].
  - rewrite inplace_in by (apply in_map; exact Hin).
    rewrite Hadd. ring.
  - rewrite inplace_out.
    2:{ intros Hin. apply in_map_iff in Hin. destruct Hin as (u & Hu & Hin).
        assert (u = n) by lia. subst u. contradiction. }
    rewrite Hadd.
    assert (Hnil : ofNight n = []).
    { unfold Chisq.ofNight. destruct (filter _ GOF) as [|r rs] eqn:Hf; [reflexivity|].
      exfalso. apply Hnin. unfold uNightIndex. apply In_unique_iff.
      assert (Hr : In r (filter (fun r => Nat.eqb (nightOf pars cat r) n) GOF))
        by (rewrite Hf; now left).
      apply filter_In in Hr. destruct Hr as [Hr Hnight].
      apply Nat.eqb_eq in Hnight. rewrite <- Hnight. now apply in_map. }
    rewrite Hnil. unfold sum. simpl. ring.
Qed.

Lemma derivatives_o3 p n :
  (n < nCampaignNights (layout pars))%nat ->
  derivatives cfg opts pars cat mM mE sS GO p (o3Loc + n)%nat
  = blockO3 cfg opts pars cat mM mE sS GO p (o3Loc + n)%nat.
Proof.
  intros Hn.
  change (derivatives cfg opts pars cat mM mE sS GO p)
    with (afterO3 cfg opts pars cat mM mE sS GO
                  (blockO3 cfg opts pars cat mM mE sS GO p)).
  apply afterO3_frame. unfold inSlice, o3Slice. simpl. lia.
Qed.

End OzoneFacts.

Section OzoneComponent.
Context {M : Libm} {L : FgcmLUT} {PM : ParsMethods} {SM : StarsMethods}.
Variable cfg : Config.
Variable opts : Options.
Variable pars : FgcmParameters.


End OzoneComponent.

(** *** The theorems on the example catalog *)

Import Examples.

Lemma exReloaded_valid : validLayout exReloaded.
Proof.
  split; [vm_compute; lia|]. split.
  - cbn. repeat constructor; cbn; lia.
  - split; intros e.
    + change (e mod 2 < 2)%nat. apply Nat.mod_upper_bound. discriminate.
    + change (0 < 1)%nat. lia.
Qed.

Lemma exReloaded_apart : o3SliceApart exReloaded.
Proof.
  intros j sl Hj Hin. unfold inSlice in *. cbn in Hj, Hin.
  repeat (destruct Hin as [<-|Hin]; [cbn; lia|]). destruct Hin.
Qed.

Lemma exFit_call :
  call (M:=exLibm) (L:=exLUT) (PM:=exParsMethods) (SM:=exStarsMethods)
       exConfig exFit exFitParams exState
  = (exAfterFit, Ok exFitOut).
Proof.
  unfold exAfterFit, exFitOut, exCall.
  destruct (call exConfig exFit exFitParams exState) as [s' r] eqn:E.
  destruct r as [out|err]; [reflexivity|].
  apply (f_equal snd) in E. vm_compute in E. discriminate.
Qed.

Lemma exAll_call :
  call (M:=exLibm) (L:=exLUT) (PM:=exParsMethods) (SM:=exStarsMethods)
       exConfig exAll exFitParams exAfterFit
  = (exAfterAll, Ok exAllOut).
Proof.
  unfold exAfterAll, exAllOut, exCall.
  destruct (call exConfig exAll exFitParams exAfterFit) as [s' r] eqn:E.
  destruct r as [out|err]; [reflexivity|].
  apply (f_equal snd) in E. vm_compute in E. discriminate.
Qed.

Lemma objective_is_chisq_per_dof_witness :
  let pars := reloadedPars (PM:=exParsMethods) exFit exFitParams exState in
  let tr := callTrace (M:=exLibm) (L:=exLUT) (PM:=exParsMethods)
                      (SM:=exStarsMethods) exConfig exFit exFitParams exState in
  let active := if computeDerivatives exFit
                then touchedCount (M:=exLibm) (L:=exLUT) (PM:=exParsMethods)
                                  (SM:=exStarsMethods) exConfig exFit pars tr
                else nActualFitPars (engine exState) in
  let dof := inject_Z (Z.of_nat (totalFitObs pars tr))
             - inject_Z (Z.of_nat active) in
  0 < dof
  /\ fitChisq exFitOut
     == totalChisq (M:=exLibm) (L:=exLUT) (PM:=exParsMethods) (SM:=exStarsMethods)
                   exConfig exFit pars tr / dof
  /\ nActualFitPars (engine exAfterFit) = active
  /\ (computeDerivatives exFit = true ->
      exists g, dChisqdP exFitOut = Some g
                /\ length g = nFitPars (layout pars)
                /\ forall i, (i < nFitPars (layout pars))%nat ->
                             nth i g 0
                             == traceGradient (M:=exLibm) (L:=exLUT)
                                  (PM:=exParsMethods) (SM:=exStarsMethods)
                                  exConfig exFit pars tr i / dof)
  /\ (computeDerivatives exFit = false -> dChisqdP exFitOut = None).
Proof.
  exact (@objective_is_chisq_per_dof exLibm exLUT exParsMethods exStarsMethods
           exConfig exFit exFitParams exState exAfterFit exFitOut
           eq_refl (fun _ => exReloaded_valid) exFit_call).
Defined.


(** C8 (as stated) fails.  On the engine as [__init__] leaves it the same
    vector is evaluated twice with [computeSEDSlopes=False] and
    [allExposures=False], first without and then with the derivatives.
    The first call keeps the parameter count 14 of [__init__] and divides
    the chi-squared 144 of the 16 fit observations by 16 - 14; the second
    counts the 13 touched parameters and divides by 16 - 13. *)
Lemma same_vector_other_derivative_option :
  computeSEDSlopes exNoDeriv = false /\ allExposures exNoDeriv = false
  /\ computeSEDSlopes exFit = false /\ allExposures exFit = false
  /\ nActualFitPars (engine exFreshState) = nFitPars (layout (fgcmPars exFreshState))
  /\ match snd (exCall exNoDeriv exFreshState),
           snd (exCall exFit (fst (exCall exNoDeriv exFreshState))) with
     | Ok first, Ok second =>
         fitChisq first == 72 /\ fitChisq second == 48
         /\ ~ fitChisq first == fitChisq second
     | _, _ => False
     end.
Proof.
  do 5 (split; [reflexivity|]).
  vm_compute. split; [reflexivity|]. split; [reflexivity|]. discriminate.
Qed.

Lemma all_exposures_leaves_means_witness :
  let st := fgcmStars exAfterFit in
  let s' := fst (exCall exAll exAfterFit) in
  objMagStdMean (fgcmStars s') = objMagStdMean st
  /\ objMagStdMeanNoChrom (fgcmStars s') = objMagStdMeanNoChrom st
  /\ objMagStdMeanErr (fgcmStars s') = objMagStdMeanErr st
  /\ (exists magStd c ac, fgcmStars s' = set_volatile st magStd c ac)
  /\ fitChisqs (engine s') = fitChisqs (engine exAfterFit)
  /\ nActualFitPars (engine s') = nActualFitPars (engine exAfterFit)
  /\ (forall pars gss go st' partialSums,
         dispatch (M:=exLibm) (L:=exLUT) (PM:=exParsMethods) (SM:=exStarsMethods)
                  exConfig exAll pars (resetStars exAll st) gss go
         = Ok (st', partialSums) ->
         forall i, partialSums i = 0).
Proof.
  exact (@all_exposures_leaves_means exLibm exLUT exParsMethods exStarsMethods
           exConfig exAll exFitParams exAfterFit eq_refl).
Defined.

Lemma all_exposures_returns_last_chisq_witness :
  fitChisq exAllOut = last (fitChisqs (engine exAfterFit)) 0
  /\ fitChisqs (engine exAfterAll) = fitChisqs (engine exAfterFit)
  /\ fitChisq exAllOut = fitChisq exFitOut.
Proof.
  destruct (@all_exposures_returns_last_chisq exLibm exLUT exParsMethods
              exStarsMethods exConfig exAll exFitParams exAfterFit exAfterAll
              exAllOut eq_refl exAll_call) as (Hlast & _ & Hkeep & Hprev).
  split; [exact Hlast|]. split; [exact Hkeep|].
  exact (Hprev exFit exFitParams exState exFitOut eq_refl exFit_call).
Defined.



(** C3 (as stated) fails.  In the orphan store star 0 passes the flag
    selection and has no observation: the first matched pair points at
    star 1 and the call raises the "Very strange ..." [ValueError], with
    compatible options, a good star and no degrees of freedom computed. *)
Lemma strange_first_match_is_a_fourth_error :
  ~ ((exists err, snd (exCall exFit exOrphanState) = Raise err
                  /\ isOwnValueError err = true)
     <-> badOptions exFit = true
         \/ goodStars exConfig exFit (fgcmStars exOrphanState) = []
         \/ (exists dof,
                computedDOF (M:=exLibm) (L:=exLUT) (PM:=exParsMethods)
                            (SM:=exStarsMethods)
                            exConfig exFit exFitParams exOrphanState = Some dof
                /\ dof <= 0)).
Proof.
  intros [Hraise _].
  destruct Hraise as [Hb|[Hg|(dof & Hd & _)]].
  - exists StrangeFirstMatch. split; [vm_compute; reflexivity|reflexivity].
  - vm_compute in Hb. discriminate.
  - vm_compute in Hg. discriminate.
  - vm_compute in Hd. discriminate.
Qed.

End ChisqFacts.

(** ** More on the chi-squared engine *)

Module ChisqMore.
Import Chisq ChisqFacts.

Section CallMore.
Context {M : Libm} {L : FgcmLUT} {PM : ParsMethods} {SM : StarsMethods}.
Variable cfg : Config.

(** X1. The chi-squared history grows by exactly the returned value on a
    completed [allExposures=False] call and is left as it was by an
    [allExposures=True] call and by every call that raises. *)
Theorem history_records_each_fit opts fitParams s :
  let r := call cfg opts fitParams s in
  match snd r with
  | Ok out =>
      fitChisqs (engine (fst r))
      = if allExposures opts then fitChisqs (engine s)
        else fitChisqs (engine s) ++ [fitChisq out]
  | Raise _ => fitChisqs (engine (fst r)) = fitChisqs (engine s)
  end.
Proof.
  unfold call. destruct (badOptions opts); [reflexivity|].
  destruct (goodStars cfg opts _); [reflexivity|].
  destruct (matching cfg opts _ _ _) as [[[gss go] cache]|err]; [|reflexivity].
  destruct (dispatch cfg opts _ _ gss go) as [[st' ps]|err]; [|reflexivity].
  unfold finish. destruct (allExposures opts); simpl; [reflexivity|].
  destruct (Qleb _ 0); reflexivity.
Qed.

(** The store and the parameters a call leaves when it raises before the
    workers are run. *)
Lemma call_raises_early opts fitParams s err :
  snd (call cfg opts fitParams s) = Raise err ->
  err <> CannotSetAllExposures -> err <> TooManyParameters ->
  err <> WorkerEmptyMatch -> err <> WorkerIndexError ->
  fgcmPars (fst (call cfg opts fitParams s)) = reloadedPars opts fitParams s
  /\ fgcmStars (fst (call cfg opts fitParams s)) = resetStars opts (fgcmStars s).
Proof.
  unfold call. destruct (badOptions opts); [simpl; congruence|].
  destruct (goodStars cfg opts _); [simpl; auto|].
  destruct (matching cfg opts _ _ _) as [[[gss go] cache]|e1]; [|simpl; auto].
  destruct (dispatch cfg opts _ _ gss go) as [[st' ps]|e2] eqn:Hd.
  - intros Hr _ Hne. apply finish_raises_which in Hr. contradiction.
  - simpl. intros [= ->] _ _ Hw Hi.
    destruct (dispatch_raises _ _ _ _ _ _ _ Hd) as [[_ ->]|[->|[-> _]]];
      [auto|contradiction|contradiction].
Qed.

(** X2. Only the option check fails without side effect.  A call that
    raises before a worker is run ("No good stars to fit!", "Very strange
    ...", the [ValueError] of the match on an empty array, the
    [IndexError] of [goodStarsSub[0]] or of an empty section, the
    [ZeroDivisionError] of [nStarPerRun = 0]) has already reloaded the
    parameter container from the vector and, with [allExposures=False],
    overwritten the three per-object mean arrays with 99; nothing else of
    the star store is changed and the "computed" flags are not set. *)
Theorem failed_call_has_reset_the_means opts fitParams s err :
  snd (call cfg opts fitParams s) = Raise err ->
  err <> CannotSetAllExposures -> err <> TooManyParameters ->
  err <> WorkerEmptyMatch -> err <> WorkerIndexError ->
  let s' := fst (call cfg opts fitParams s) in
  fgcmPars s' = reloadedPars opts fitParams s
  /\ (allExposures opts = false ->
      forall c, objMagStdMean (fgcmStars s') c = 99
                /\ objMagStdMeanNoChrom (fgcmStars s') c = 99
                /\ objMagStdMeanErr (fgcmStars s') c = 99)
  /\ catalog (fgcmStars s') = catalog (fgcmStars s)
  /\ obsMagStd (fgcmStars s') = obsMagStd (fgcmStars s)
  /\ objSEDSlope (fgcmStars s') = objSEDSlope (fgcmStars s)
  /\ magStdComputed (fgcmStars s') = magStdComputed (fgcmStars s)
  /\ allMagStdComputed (fgcmStars s') = allMagStdComputed (fgcmStars s).
Proof.
  intros Hr H1 H2 H3 H4 s'.
  destruct (call_raises_early _ _ _ _ Hr H1 H2 H3 H4) as [Hp Hs].
  subst s'. rewrite Hp, Hs. split; [reflexivity|]. unfold resetStars.
  split.
  - intros ->. simpl. auto.
  - destruct (negb (allExposures opts)); simpl; auto.
Qed.

Lemma index_of_none (x : nat) (l : list nat) : ~ In x l -> index_of x l = None.
Proof.
  induction l as [|y l IH]; [reflexivity|]. intros Hn. simpl.
  destruct (Nat.eqb_spec x y) as [->|Hne]; [exfalso; apply Hn; now left|].
  rewrite IH; [reflexivity|]. intros Hin. apply Hn. now right.
Qed.

Lemma match_pairs_none (gs : list nat) (arr : nat -> nat) (n : nat) :
  (forall o, (o < n)%nat -> ~ In (arr o) gs) -> match_pairs gs arr n = [].
Proof.
  intros Hno. unfold match_pairs.
  assert (H : forall l, (forall o, In o l -> (o < n)%nat) ->
            flat_map (fun j => match index_of (arr j) gs with
                               | Some i => [(i, j)]
                               | None => []
                               end) l = []).
  { induction l as [|o l IH]; [reflexivity|]. intros Hl. simpl.
    rewrite index_of_none by (apply Hno, Hl; now left).
    apply IH. intros o' Ho'. apply Hl. now right. }
  apply H. intros o Ho. apply in_seq in Ho. lia.
Qed.

(** X3. When some star passes the flag selection but no observation
    belongs to a selected star, and the match is not taken from the cache,
    the call fails at the match: on an empty observation table the match
    itself raises its [ValueError] (line 204), otherwise
    [goodStarsSub[0]] raises an [IndexError] (line 208).  Neither is one
    of the [ValueError]s the method raises itself, and the workers are not
    run. *)
Theorem no_matched_observation_fails_at_the_match opts fitParams s :
  badOptions opts = false ->
  goodStars cfg opts (fgcmStars s) <> [] ->
  (if useMatchCache opts then matchCache (engine s) else None) = None ->
  (forall o, (o < nStarObs (catalog (fgcmStars s)))%nat ->
             ~ In (obsObjIDIndex (catalog (fgcmStars s)) o)
                  (goodStars cfg opts (fgcmStars s))) ->
  let err := if Nat.eqb (nStarObs (catalog (fgcmStars s))) 0
             then EmptyMatch else IndexError in
  snd (call cfg opts fitParams s) = Raise err
  /\ isOwnValueError err = false
  /\ callTrace cfg opts fitParams s = [].
Proof.
  intros Hopt Hgs Hcache Hno err.
  assert (Hm : matching cfg opts (engine s) (reloadedPars opts fitParams s)
                        (resetStars opts (fgcmStars s)) = Raise err).
  { unfold matching. rewrite Hcache, match_reset.
    destruct (esutil_match _ _ _) as [m|] eqn:Em.
    - destruct (esutil_match_inv _ _ _ Em) as (-> & _ & Hn).
      rewrite match_pairs_none by exact Hno. subst err.
      apply Nat.eqb_neq in Hn. now rewrite Hn.
    - subst err. revert Em. unfold esutil_match.
      destruct (goodStars cfg opts (fgcmStars s)); [contradiction|].
      destruct (nStarObs (catalog (fgcmStars s))); [reflexivity|discriminate]. }
  split; [|split].
  - unfold call. rewrite Hopt, goodStars_reset.
    destruct (goodStars cfg opts (fgcmStars s)) as [|g gs] eqn:Eg; [contradiction|].
    cbv zeta. now rewrite Hm.
  - subst err. now destruct (_ =? _)%nat.
  - unfold callTrace. now rewrite Hm.
Qed.

(** X4. The chi-squared history is only reported, never used: after
    [resetFitChisqList] a call returns or raises what it would have without
    the reset when [allExposures=False], and returns 0 when
    [allExposures=True] and it completes. *)
Theorem reset_history_only_changes_the_report opts fitParams s :
  (allExposures opts = false ->
   snd (call cfg opts fitParams (resetFitChisqList s))
   = snd (call cfg opts fitParams s))
  /\ (allExposures opts = true ->
      forall out, snd (call cfg opts fitParams (resetFitChisqList s)) = Ok out ->
                  fitChisq out = 0).
Proof.
  unfold call, resetFitChisqList, set_engine, reloadedPars. simpl.
  destruct (badOptions opts); [split; [reflexivity|discriminate]|].
  destruct (goodStars cfg opts _); [split; [reflexivity|discriminate]|].
  unfold matching. simpl.
  destruct (if useMatchCache opts then matchCache (engine s) else None)
    as [[a b]|].
  - destruct (dispatch cfg opts _ _ a b) as [[st' ps]|e2];
      [|split; [reflexivity|discriminate]].
    unfold finish, fitDOF, actualFitPars. simpl. split.
    + intros ->. simpl. destruct (Qleb _ 0); reflexivity.
    + intros ->. simpl. now intros out [= <-].
  - destruct (esutil_match _ _ _) as [[|[sub0 o0] m]|];
      [split; [reflexivity|discriminate]| |split; [reflexivity|discriminate]].
    destruct (negb (sub0 =? 0)%nat); [split; [reflexivity|discriminate]|].
    destruct (dispatch cfg opts _ _ _ _) as [[st' ps]|e2];
      [|split; [reflexivity|discriminate]].
    unfold finish, fitDOF, actualFitPars. simpl. split.
    + intros ->. simpl. destruct (Qleb _ 0); reflexivity.
    + intros ->. simpl. now intros out [= <-].
Qed.

Ltac cache_cases :=
  repeat match goal with |- _ /\ _ => split end;
  intros; try discriminate; try congruence;
  try (left; congruence); try (right; congruence).

(** X5. The match cache is written by a call only when [useMatchCache] is
    set and no match was cached: then a call that gets past the match
    stores the [(goodStarsSub, goodObs)] it has just cut.  Otherwise the
    cache is left as it was; in particular a cached match is never
    refreshed, and [clearMatchCache] is the only way to have the next call
    match again. *)
Theorem match_cache_written_once opts fitParams s :
  let s' := fst (call cfg opts fitParams s) in
  let st := resetStars opts (fgcmStars s) in
  let kept := filter (fun ij => goodMatch opts (reloadedPars opts fitParams s) st (snd ij))
                     (match_pairs (goodStars cfg opts st)
                                  (obsObjIDIndex (catalog st)) (nStarObs (catalog st))) in
  (useMatchCache opts = false -> matchCache (engine s') = matchCache (engine s))
  /\ (forall c, matchCache (engine s) = Some c -> matchCache (engine s') = Some c)
  /\ (useMatchCache opts = true -> matchCache (engine s) = None ->
      matchCache (engine s') = None
      \/ matchCache (engine s') = Some (map fst kept, map snd kept))
  /\ (useMatchCache opts = true -> matchCache (engine s) = None ->
      forall out, snd (call cfg opts fitParams s) = Ok out ->
                  matchCache (engine s') = Some (map fst kept, map snd kept))
  /\ matchCache (engine (clearMatchCache s)) = None.
Proof.
  intros s' st kept.
  assert (Hfin : forall e pars st1 ps,
             matchCache (engine (fst (finish opts e pars st1 ps))) = matchCache e).
  { intros e pars st1 ps. unfold finish.
    destruct (negb (allExposures opts)); [|reflexivity].
    destruct (Qleb _ 0); reflexivity. }
  assert (Hclear : matchCache (engine (clearMatchCache s)) = None) by reflexivity.
  subst s'. unfold call.
  destruct (badOptions opts); [simpl; cache_cases|].
  fold st.
  destruct (goodStars cfg opts st) as [|g gs] eqn:Eg; [simpl; cache_cases|].
  unfold matching. fold st.
  destruct (useMatchCache opts) eqn:Hu.
  - destruct (matchCache (engine s)) as [[a b]|] eqn:Hc.
    + destruct (dispatch cfg opts _ _ a b) as [[st' ps]|e2];
        [rewrite Hfin|]; simpl; cache_cases.
    + destruct (esutil_match (goodStars cfg opts st) _ _) as [m0|] eqn:Em;
        [|simpl; rewrite ?Hc; cache_cases].
      destruct (esutil_match_inv _ _ _ Em) as (Hm0 & _ & _).
      destruct m0 as [|[sub0 o0] m]; [simpl; rewrite ?Hc; cache_cases|].
      destruct (negb (sub0 =? 0)%nat); [simpl; rewrite ?Hc; cache_cases|].
      rewrite Hm0, Eg. fold kept.
      destruct (dispatch cfg opts _ _ _ _) as [[st' ps]|e2];
        [rewrite Hfin|]; simpl; cache_cases.
  - destruct (esutil_match (goodStars cfg opts st) _ _) as [[|[sub0 o0] m]|] eqn:Em;
      [simpl; cache_cases| |simpl; cache_cases].
    destruct (negb (sub0 =? 0)%nat); [simpl; cache_cases|].
    destruct (dispatch cfg opts _ _ _ _) as [[st' ps]|e2];
      [rewrite Hfin|]; simpl; cache_cases.
Qed.

End CallMore.

(** *** Sections of stars and observations *)

Lemma firstn_plus {A} (k m : nat) (l : list A) :
  firstn (k + m) l = firstn k l ++ firstn m (skipn k l).
Proof.
  revert l. induction k as [|k IH]; intros l; [reflexivity|].
  destruct l as [|x l]; simpl; [now rewrite firstn_nil|]. now rewrite IH.
Qed.

Lemma concat_array_split_aux {A} (sizes : list nat) :
  forall l : list A, concat (array_split_aux l sizes) = firstn (list_sum sizes) l.
Proof.
  induction sizes as [|k ks IH]; intros l; simpl; [reflexivity|].
  now rewrite IH, firstn_plus.
Qed.

Lemma length_array_split_aux {A} (sizes : list nat) :
  forall l : list A, length (array_split_aux l sizes) = length sizes.
Proof. induction sizes as [|k ks IH]; intros l; simpl; [reflexivity|now rewrite IH]. Qed.

(** The sizes [np.array_split] cuts: they add up to the length. *)
Lemma sum_section_sizes (q r n a : nat) :
  list_sum (map (fun i => if (i <? r)%nat then S q else q) (seq a n))
  = (n * q + (Nat.min (a + n) r - Nat.min a r))%nat.
Proof.
  revert a. induction n as [|n IH]; intros a; simpl; [lia|].
  rewrite IH. destruct (Nat.ltb_spec a r); lia.
Qed.

Lemma concat_array_split {A} (l : list A) (n : nat) :
  (0 < n)%nat -> concat (array_split l n) = l.
Proof.
  intros Hn. unfold array_split. rewrite concat_array_split_aux, sum_section_sizes.
  apply firstn_all2.
  pose proof (Nat.div_mod_eq (length l) n).
  pose proof (Nat.mod_upper_bound (length l) n). lia.
Qed.

Lemma length_array_split {A} (l : list A) (n : nat) : length (array_split l n) = n.
Proof. unfold array_split. now rewrite length_array_split_aux, length_map, length_seq. Qed.

(** [np.split] on ascending indices cuts the list into consecutive
    pieces. *)
Lemma piece_then_rest {A} (l : list A) (start i : nat) :
  (start <= i)%nat -> skipn start (firstn i l) ++ skipn i l = skipn start l.
Proof.
  intros Hle. rewrite <- (firstn_skipn i l) at 3. rewrite skipn_app.
  rewrite length_firstn.
  destruct (Nat.le_gt_cases i (length l)) as [Hi|Hi].
  - replace (start - Nat.min i (length l))%nat with O by lia. reflexivity.
  - rewrite (skipn_all2 (n:=i)) by lia. now rewrite skipn_nil.
Qed.

Lemma concat_np_split_from {A} (l : list A) (indices : list nat) :
  forall start, StronglySorted le (start :: indices) ->
                concat (np_split_from l start indices) = skipn start l.
Proof.
  induction indices as [|i rest IH]; intros start Hs; simpl.
  - apply app_nil_r.
  - apply StronglySorted_inv in Hs. destruct Hs as [Hrest Hall].
    rewrite IH by assumption. apply piece_then_rest.
    apply Forall_inv in Hall. exact Hall.
Qed.

Lemma length_np_split_from {A} (l : list A) (indices : list nat) :
  forall start, length (np_split_from l start indices) = S (length indices).
Proof. induction indices as [|i rest IH]; intros start; simpl; [reflexivity|now rewrite IH]. Qed.

Lemma searchsorted_mono (a : list nat) (v v' : nat) :
  (v <= v')%nat -> (searchsorted a v <= searchsorted a v')%nat.
Proof.
  intros Hv. induction a as [|x a IH]; simpl; [lia|].
  destruct (Nat.ltb_spec x v), (Nat.ltb_spec x v'); lia.
Qed.

Lemma StronglySorted_map_mono (f : nat -> nat) (l : list nat) :
  (forall v v', (v <= v')%nat -> (f v <= f v')%nat) ->
  StronglySorted le l -> StronglySorted le (map f l).
Proof.
  intros Hf Hs. induction Hs as [|x l Hs IH Hall]; simpl; constructor.
  - exact IH.
  - rewrite Forall_map. eapply Forall_impl; [|exact Hall]. intros y. apply Hf.
Qed.

(** The sort by size is a permutation. *)
Lemma insert_by_size_perm w l : Permutation (insert_by_size w l) (w :: l).
Proof.
  induction l as [|x l IH]; simpl; [reflexivity|].
  destruct (length (snd x) <=? length (snd w))%nat; [reflexivity|].
  rewrite IH. apply perm_swap.
Qed.

Lemma sort_by_size_perm l : Permutation (sort_by_size l) l.
Proof.
  unfold sort_by_size. induction l as [|w l IH]; simpl; [reflexivity|].
  rewrite insert_by_size_perm. now constructor.
Qed.

(** The first elements of the sections of an ascending list ascend. *)
Lemma firsts_in (ls : list (list nat)) (sv : list nat) :
  firsts ls = Some sv -> forall v, In v sv -> In v (concat ls).
Proof.
  revert sv. induction ls as [|l ls IH]; intros sv; simpl.
  - intros [= <-] v [].
  - destruct l as [|x l]; [discriminate|].
    destruct (firsts ls) as [xs|]; [|discriminate].
    intros [= <-] v [<-|Hin]; [now left|].
    right. apply in_or_app. right. now apply (IH xs).
Qed.

Lemma length_firsts (ls : list (list nat)) (sv : list nat) :
  firsts ls = Some sv -> length sv = length ls.
Proof.
  revert sv. induction ls as [|l ls IH]; intros sv; simpl.
  - now intros [= <-].
  - destruct l as [|x l]; [discriminate|].
    destruct (firsts ls) as [xs|]; [|discriminate].
    intros [= <-]. simpl. now rewrite (IH xs).
Qed.

Lemma StronglySorted_skipn (k : nat) (l : list nat) :
  StronglySorted le l -> StronglySorted le (skipn k l).
Proof.
  revert l. induction k as [|k IH]; intros l Hs; [exact Hs|].
  destruct l as [|x l]; [constructor|]. simpl. apply IH.
  now apply StronglySorted_inv in Hs.
Qed.

Lemma In_firstn {A} (n : nat) (x : A) :
  forall l, In x (firstn n l) -> In x l.
Proof.
  induction n as [|n IH]; intros [|y l]; simpl; try tauto.
  intros [->|Hin]; [now left|right; now apply IH].
Qed.

Lemma In_skipn {A} (n : nat) (x : A) :
  forall l, In x (skipn n l) -> In x l.
Proof.
  induction n as [|n IH]; intros [|y l]; simpl; try tauto.
  intros Hin. right. now apply IH.
Qed.

Lemma firsts_sorted (sizes : list nat) :
  forall (l : list nat) (sv : list nat),
    StronglySorted le l ->
    firsts (array_split_aux l sizes) = Some sv ->
    StronglySorted le sv.
Proof.
  induction sizes as [|k ks IH]; intros l sv Hs; simpl.
  - intros [= <-]. constructor.
  - destruct (firstn k l) as [|x f] eqn:Ef; [discriminate|].
    destruct (firsts (array_split_aux (skipn k l) ks)) as [xs|] eqn:Ex;
      [|discriminate].
    intros [= <-]. constructor.
    + apply (IH (skipn k l)); [now apply StronglySorted_skipn|assumption].
    + apply Forall_forall. intros v Hv.
      pose proof (firsts_in _ _ Ex v Hv) as Hin.
      rewrite concat_array_split_aux in Hin.
      apply In_firstn in Hin.
      assert (Hl : l = x :: skipn 1 l).
      { destruct l as [|y l]; [now rewrite firstn_nil in Ef|].
        destruct k; [discriminate|]. simpl in Ef. now injection Ef as -> _. }
      destruct k as [|k]; [discriminate|].
      rewrite Hl in Hs. apply StronglySorted_inv in Hs. destruct Hs as [_ Hall].
      rewrite Forall_forall in Hall. apply Hall.
      replace (S k) with (k + 1)%nat in Hin by lia.
      rewrite <- skipn_skipn in Hin.
      exact (In_skipn _ _ _ Hin).
Qed.

Lemma np_where_sorted (n : nat) (cond : nat -> bool) :
  StronglySorted le (np_where n cond).
Proof.
  unfold np_where. generalize 0%nat.
  induction n as [|n IH]; intros a; simpl; [constructor|].
  destruct (cond a).
  - constructor; [apply IH|]. apply Forall_forall. intros v Hv.
    apply filter_In in Hv. destruct Hv as [Hv _]. apply in_seq in Hv. lia.
  - apply IH.
Qed.

Lemma map_fst_combine_eq {A B} (a : list A) :
  forall b : list B, length a = length b -> map fst (combine a b) = a.
Proof.
  induction a as [|x a IH]; intros [|y b] H; simpl in *; try discriminate;
    [reflexivity|]. f_equal. apply IH. lia.
Qed.

Lemma map_snd_combine_eq {A B} (a : list A) :
  forall b : list B, length a = length b -> map snd (combine a b) = b.
Proof.
  induction a as [|x a IH]; intros [|y b] H; simpl in *; try discriminate;
    [reflexivity|]. f_equal. apply IH. lia.
Qed.

Section Sections.
Variable cfg : Config.
Variable opts : Options.

Lemma goodStars_sorted st : StronglySorted le (goodStars cfg opts st).
Proof. unfold goodStars. destruct (includeReserve opts); apply np_where_sorted. Qed.

Lemma workerList_sections st goodStarsSub goodObs wl :
  workerList cfg opts st goodStarsSub goodObs = Some wl ->
  length wl = (length (goodStars cfg opts st) / nStarPerRun cfg + 1)%nat
  /\ Permutation (concat (map fst wl)) (goodStars cfg opts st)
  /\ Permutation (concat (map snd wl)) goodObs.
Proof.
  unfold workerList.
  destruct (nStarPerRun cfg =? 0)%nat; [discriminate|].
  set (gs := goodStars cfg opts st).
  set (n := (length gs / nStarPerRun cfg + 1)%nat).
  destruct (firsts (tl (array_split gs n))) as [sv|] eqn:Ef; [|discriminate].
  intros [= <-].
  set (idx := map (searchsorted (map (fun i => nth i gs O) goodStarsSub)) sv).
  assert (Hn : (0 < n)%nat) by (subst n; lia).
  assert (Hlen1 : length (array_split gs n) = n) by apply length_array_split.
  assert (Hlen2 : length (np_split goodObs idx) = n).
  { unfold np_split. rewrite length_np_split_from. subst idx.
    rewrite length_map, (length_firsts _ _ Ef).
    destruct (array_split gs n) eqn:Ea; simpl in *; lia. }
  assert (Hsv : StronglySorted le sv).
  { unfold array_split in Ef.
    destruct (map _ (seq 0 n)) as [|k ks] eqn:Es; simpl in Ef.
    - injection Ef as <-. constructor.
    - apply (firsts_sorted ks (skipn k gs) sv); [|exact Ef].
      apply StronglySorted_skipn, goodStars_sorted. }
  assert (Hidx : StronglySorted le (O :: idx)).
  { constructor.
    - subst idx. apply StronglySorted_map_mono; [|exact Hsv].
      intros v v'. apply searchsorted_mono.
    - apply Forall_forall. intros; lia. }
  split; [|split].
  - rewrite (Permutation_length (sort_by_size_perm _)).
    rewrite length_combine, Hlen1, Hlen2. lia.
  - rewrite (Permutation_map fst (sort_by_size_perm _)).
    rewrite map_fst_combine_eq by congruence.
    now rewrite concat_array_split.
  - rewrite (Permutation_map snd (sort_by_size_perm _)).
    rewrite map_snd_combine_eq by congruence.
    unfold np_split. rewrite concat_np_split_from by exact Hidx. reflexivity.
Qed.

Lemma workerList_partition st goodStarsSub goodObs wl :
  workerList cfg opts st goodStarsSub goodObs = Some wl ->
  Permutation (concat (map snd wl)) goodObs.
Proof. intros H. apply (workerList_sections _ _ _ _ H). Qed.

(** X6. In the multi-core path with a positive [nStarPerRun], when the
    list of sections can be built, the sections cut the good stars and the
    good observations into [goodStars.size // nStarPerRun + 1] pieces that
    are, up to the order in which they are run, a partition: every good
    star and every good observation is handed to exactly one worker. *)
Theorem sections_partition_stars_and_observations st goodStarsSub goodObs wl :
  (0 < nStarPerRun cfg)%nat ->
  workerList cfg opts st goodStarsSub goodObs = Some wl ->
  length wl = (length (goodStars cfg opts st) / nStarPerRun cfg + 1)%nat
  /\ Permutation (concat (map fst wl)) (goodStars cfg opts st)
  /\ Permutation (concat (map snd wl)) goodObs.
Proof. intros _. apply workerList_sections. Qed.

End Sections.

Lemma put_out (ks : list nat) :
  forall (vs : list Q) (a : nat -> Q) (k : nat),
    ~ In k ks -> put a ks vs k = a k.
Proof.
  unfold put. induction ks as [|k' ks IH]; intros [|v vs] a k Hn; simpl;
    try reflexivity.
  rewrite IH by (intros Hin; apply Hn; now right).
  apply put_one_other. intros ->. apply Hn. now left.
Qed.

Lemma put_in (g : nat -> Q) (ks : list nat) :
  forall (a : nat -> Q) (k : nat), In k ks -> put a ks (map g ks) k = g k.
Proof.
  induction ks as [|k' ks IH]; intros a k Hin; [destruct Hin|].
  destruct (in_dec Nat.eq_dec k ks) as [Hk|Hk].
  - unfold put in *. simpl. apply IH. exact Hk.
  - destruct Hin as [->|Hin]; [|contradiction].
    unfold put. simpl. fold (put (put_one a k (g k)) ks (map g ks)).
    rewrite put_out by assumption. apply put_one_same.
Qed.

Section WorkerMore.
Context {M : Libm} {L : FgcmLUT} {PM : ParsMethods} {SM : StarsMethods}.
Variable cfg : Config.
Variable opts : Options.
Variable pars : FgcmParameters.

(** The standardized magnitude of one observation. *)
#[local] Abbreviation magStdOf st o :=
  (obsMagGO cfg opts pars (catalog st) o + deltaStdGO cfg pars (catalog st) st o).

Lemma worker_obsMagStd st w :
  obsMagStd (fst (worker cfg opts pars st w)) = workerMagStd cfg opts pars st w.
Proof. unfold worker. destruct (allExposures opts); reflexivity. Qed.

Lemma workerGO_rows st w :
  workerGO cfg opts pars st w
  = map (fun o => (o, workerMagStd cfg opts pars st w o)) (snd w).
Proof. unfold workerGO, take. apply combine_map_self. Qed.

Section NoSlopes.
Hypothesis Hsed : computeSEDSlopes opts = false.

Lemma workerSED_id st w : workerSED cfg opts pars st w = st.
Proof. unfold workerSED. now rewrite Hsed. Qed.

Lemma worker_frame st w :
  catalog (fst (worker cfg opts pars st w)) = catalog st
  /\ objSEDSlope (fst (worker cfg opts pars st w)) = objSEDSlope st.
Proof.
  unfold worker, workerStore. rewrite workerSED_id.
  destruct (allExposures opts); split; reflexivity.
Qed.

Lemma workerMagStd_value st w o :
  workerMagStd cfg opts pars st w o
  = if memb o (snd w) then magStdOf st o else obsMagStd st o.
Proof.
  unfold workerMagStd. rewrite workerSED_id.
  destruct (memb o (snd w)) eqn:Hm.
  - apply memb_In in Hm.
    exact (put_in (fun o => magStdOf st o) (snd w) (obsMagStd st) o Hm).
  - apply put_out. intros Hin. apply memb_In in Hin. congruence.
Qed.

Lemma deltaStdGO_slopes cat (a b : FgcmStars) o :
  objSEDSlope a = objSEDSlope b -> deltaStdGO cfg pars cat a o = deltaStdGO cfg pars cat b o.
Proof. intros H. unfold deltaStdGO. now rewrite H. Qed.

(** The standardized magnitudes after a list of workers. *)
Lemma runWorkers_obsMagStd (wl : list (list nat * list nat)) :
  forall st acc o,
    obsMagStd (fst (fold_left
                      (fun acc w => let r := worker cfg opts pars (fst acc) w in
                                    (fst r, addArrays (snd acc) (snd r)))
                      wl (st, acc))) o
    = if memb o (concat (map snd wl)) then magStdOf st o else obsMagStd st o.
Proof.
  induction wl as [|w wl IH]; intros st acc o; [reflexivity|].
  simpl. rewrite IH.
  destruct (worker_frame st w) as [Hc Hs].
  rewrite Hc, (deltaStdGO_slopes _ _ st o Hs).
  rewrite worker_obsMagStd, workerMagStd_value.
  unfold memb. rewrite existsb_app. fold (memb o (snd w)).
  fold (memb o (concat (map snd wl))).
  destruct (memb o (snd w)), (memb o (concat (map snd wl))); reflexivity.
Qed.

End NoSlopes.
End WorkerMore.

Section CallObs.
Context {M : Libm} {L : FgcmLUT} {PM : ParsMethods} {SM : StarsMethods}.
Variable cfg : Config.

Lemma memb_perm (o : nat) (l l' : list nat) :
  Permutation l l' -> memb o l = memb o l'.
Proof.
  intros Hp. destruct (memb o l) eqn:H1, (memb o l') eqn:H2; try reflexivity.
  - apply memb_In in H1. apply (Permutation_in _ Hp) in H1.
    apply memb_In in H1. congruence.
  - apply memb_In in H2. apply (Permutation_in _ (Permutation_sym Hp)) in H2.
    apply memb_In in H2. congruence.
Qed.

Lemma finish_obsMagStd opts e pars st ps s' out :
  finish opts e pars st ps = (s', Ok out) ->
  obsMagStd (fgcmStars s') = obsMagStd st /\ catalog (fgcmStars s') = catalog st.
Proof.
  unfold finish. destruct (negb (allExposures opts)).
  - destruct (Qleb _ 0); [discriminate|]. intros [= <- _]. split; reflexivity.
  - intros [= <- _]. split; reflexivity.
Qed.

(** X8. A completed call with [computeSEDSlopes=False] and a positive
    [nStarPerRun] overwrites [obsMagStd] exactly at the matched good
    observations, with [obsMagADU + 2.5 log10(I0) + expQESys] (plus the CCD
    gray when one is passed) plus the chromatic correction; the
    standardized magnitude of every other observation is left as it
    was. *)
Theorem call_writes_obsMagStd_at_good_observations
        opts fitParams s s' out goodStarsSub goodObs cache :
  computeSEDSlopes opts = false ->
  (0 < nStarPerRun cfg)%nat ->
  matching cfg opts (engine s) (reloadedPars opts fitParams s)
           (resetStars opts (fgcmStars s)) = Ok (goodStarsSub, goodObs, cache) ->
  call cfg opts fitParams s = (s', Ok out) ->
  let pars := reloadedPars opts fitParams s in
  let st := fgcmStars s in
  forall o,
    obsMagStd (fgcmStars s') o
    = if memb o goodObs
      then obsMagGO cfg opts pars (catalog st) o
           + deltaStdGO cfg pars (catalog st) st o
      else obsMagStd st o.
Proof.
  intros Hsed Hn Hm Hcall pars st o. subst pars st.
  destruct (call_ok_inv cfg _ _ _ _ _ Hcall)
    as (gss & go & cache' & st' & ps & _ & Hm' & Hd & Hfin).
  rewrite Hm in Hm'. injection Hm' as <- <- <-.
  destruct (finish_obsMagStd _ _ _ _ _ _ _ Hfin) as [-> _].
  destruct (dispatch_ok_inv cfg _ _ _ _ _ _ _ Hd) as (wl & -> & _ & Hwl).
  unfold runWorkers.
  rewrite (runWorkers_obsMagStd cfg opts _ Hsed).
  assert (Hmem : memb o (concat (map snd wl)) = memb o goodObs).
  { unfold workerChunks in Hwl. destruct (debug opts).
    - injection Hwl as <-. simpl. now rewrite app_nil_r.
    - apply memb_perm.
      apply (workerList_partition cfg opts _ _ _ _ Hwl). }
  rewrite Hmem.
  assert (Hreset : catalog (resetStars opts (fgcmStars s)) = catalog (fgcmStars s)
                   /\ obsMagStd (resetStars opts (fgcmStars s)) = obsMagStd (fgcmStars s)
                   /\ objSEDSlope (resetStars opts (fgcmStars s)) = objSEDSlope (fgcmStars s)).
  { unfold resetStars. destruct (negb (allExposures opts)); repeat split. }
  destruct Hreset as (Hc & Ho & Hs).
  rewrite Hc, Ho. rewrite (deltaStdGO_slopes cfg _ _ _ (fgcmStars s) o Hs). reflexivity.
Qed.

End CallObs.

Lemma sum_scaled_diff {X} (a m : X -> Q) (k : Q) (l : list X) :
  sum (map (fun x => a x * (m x - k)) l)
  == sum (map (fun x => m x * a x) l) - k * sum (map a l).
Proof.
  induction l as [|x l IH]; simpl.
  - unfold sum. simpl. ring.
  - rewrite !sum_cons, IH. ring.
Qed.

Lemma weight_nonneg (e : Q) : 0 <= 1 / sq e.
Proof.
  unfold sq, Qdiv. rewrite Qmult_1_l.
  destruct (Qeq_dec (e * e) 0) as [Hz|Hnz].
  - rewrite Hz. unfold Qinv. simpl. lra.
  - apply Qlt_le_weak, Qinv_lt_0_compat.
    assert (0 <= e * e) by nra. lra.
Qed.

Section Means.
Context {M : Libm} {L : FgcmLUT} {PM : ParsMethods} {SM : StarsMethods}.
Variable cfg : Config.
Variable opts : Options.
Variable pars : FgcmParameters.

Lemma add_at_rows (c : nat * nat) (cat : StarCatalog) (h : nat -> row)
      (g : row -> Q) (l : list nat) :
  (forall o, fst (h o) = o) ->
  add_at zeros (map (fun r => objBand cat (fst r)) (map h l)) (map g (map h l)) c
  = sum (map (fun o => g (h o))
             (filter (fun o => pair_eqb c (objBand cat o)) l)).
Proof.
  intros Hh. unfold add_at. rewrite ufunc_at_fold. unfold sum, zeros.
  rewrite filter_map_comm, map_map. f_equal. f_equal.
  apply filter_ext. intros o. simpl. now rewrite Hh.
Qed.

Section Fit.
Hypothesis Hfit : allExposures opts = false.

Lemma worker_store st w :
  fst (worker cfg opts pars st w) = workerStore cfg opts pars st w.
Proof. unfold worker. now rewrite Hfit. Qed.

Lemma worker_means_are_weighted_means_aux st w c :
  let cat := catalog st in
  let before := workerSED cfg opts pars st w in
  let after := fst (worker cfg opts pars st w) in
  let obs := filter (fun o => pair_eqb c (objBand cat o)) (snd w) in
  let wt := sum (map (fun o => 1 / obsMagErr2GO cat o) obs) in
  (0 < wt ->
   objMagStdMean after c
   = sum (map (fun o => obsMagStd after o / obsMagErr2GO cat o) obs) / wt
   /\ objMagStdMeanNoChrom after c
      = sum (map (fun o => obsMagGO cfg opts pars cat o / obsMagErr2GO cat o) obs) / wt
   /\ objMagStdMeanErr after c = sqrt (1 / wt))
  /\ (wt <= 0 ->
      objMagStdMean after c = objMagStdMean before c
      /\ objMagStdMeanNoChrom after c = objMagStdMeanNoChrom before c
      /\ objMagStdMeanErr after c = objMagStdMeanErr before c).
Proof.
  intros cat before after obs wt. subst after.
  rewrite worker_store.
  assert (Hmag : obsMagStd (workerStore cfg opts pars st w)
                 = workerMagStd cfg opts pars st w) by reflexivity.
  rewrite Hmag.
  unfold workerStore, writeMeans. rewrite workerGO_rows. cbn [objMagStdMean
    objMagStdMeanNoChrom objMagStdMeanErr set_objMeans].
  unfold meanWtSum, meanTemp, meanNoChromTemp.
  rewrite !(add_at_rows c (catalog st)) by reflexivity. cbn [fst snd].
  fold cat obs wt.
  split.
  - intros Hw. replace (Qgtb wt 0) with true by (symmetry; now apply Qgtb_gt).
    repeat split.
  - intros Hw. replace (Qgtb wt 0) with false by (symmetry; now apply Qgtb_le).
    repeat split.
Qed.

(** X9. After a worker has run (in a fit call), the mean magnitude of a
    star in a band is the inverse-variance weighted mean of the
    standardized magnitudes now stored for the section's observations of
    that star and band, the non-chromatic mean is the same mean of the
    magnitudes before the chromatic correction, and the error is
    [sqrt(1 / sum of weights)]; where the weights do not sum to a positive
    number (no observation in the section) the three values are left as
    they were. *)
Theorem worker_means_are_weighted_means st w c :
  let cat := catalog st in
  let before := workerSED cfg opts pars st w in
  let after := fst (worker cfg opts pars st w) in
  let obs := filter (fun o => pair_eqb c (objBand cat o)) (snd w) in
  let wt := sum (map (fun o => 1 / obsMagErr2GO cat o) obs) in
  (0 < wt ->
   objMagStdMean after c
   = sum (map (fun o => obsMagStd after o / obsMagErr2GO cat o) obs) / wt
   /\ objMagStdMeanNoChrom after c
      = sum (map (fun o => obsMagGO cfg opts pars cat o / obsMagErr2GO cat o) obs) / wt
   /\ objMagStdMeanErr after c = sqrt (1 / wt))
  /\ (wt <= 0 ->
      objMagStdMean after c = objMagStdMean before c
      /\ objMagStdMeanNoChrom after c = objMagStdMeanNoChrom before c
      /\ objMagStdMeanErr after c = objMagStdMeanErr before c).
Proof. exact (worker_means_are_weighted_means_aux st w c). Qed.

(** X10. After a worker has run, the weighted residuals of a star in a
    band cancel: the sum over the section's observations of that star and
    band of [weight * (obsMagStd - objMagStdMean)] is zero whenever the
    weights sum to a positive number. *)
Theorem weighted_residuals_of_a_star_cancel st w c :
  let cat := catalog st in
  let after := fst (worker cfg opts pars st w) in
  let obs := filter (fun o => pair_eqb c (objBand cat o)) (snd w) in
  0 < sum (map (fun o => 1 / obsMagErr2GO cat o) obs) ->
  sum (map (fun o => 1 / obsMagErr2GO cat o
                     * (obsMagStd after o - objMagStdMean after c)) obs) == 0.
Proof.
  intros cat after obs Hw.
  destruct (worker_means_are_weighted_means_aux st w c) as [Hpos _].
  destruct (Hpos Hw) as (Hmean & _ & _). fold cat after obs in Hmean.
  rewrite Hmean, sum_scaled_diff.
  set (W := sum (map (fun o => 1 / obsMagErr2GO cat o) obs)) in *.
  assert (HT : sum (map (fun o => obsMagStd after o * (1 / obsMagErr2GO cat o)) obs)
               == sum (map (fun o => obsMagStd after o / obsMagErr2GO cat o) obs)).
  { apply sum_map_ext. intros o _. unfold Qdiv. ring. }
  rewrite HT. field. lra.
Qed.

End Fit.
End Means.

Section Unobserved.
Context {M : Libm} {L : FgcmLUT} {PM : ParsMethods} {SM : StarsMethods}.
Variable cfg : Config.
Variable opts : Options.
Variable pars : FgcmParameters.
Hypothesis Hsed : computeSEDSlopes opts = false.

Lemma worker_leaves_unobserved st w c :
  (forall o, In o (snd w) -> objBand (catalog st) o <> c) ->
  meansAt (fst (worker cfg opts pars st w)) c = meansAt st c.
Proof.
  intros Hno. unfold worker, workerStore. rewrite (workerSED_id cfg opts pars Hsed).
  destruct (allExposures opts); [reflexivity|].
  cbn [fst]. unfold writeMeans, meansAt.
  cbn [objMagStdMean objMagStdMeanNoChrom objMagStdMeanErr set_objMeans set_obsMagStd
       set_volatile].
  assert (Hw : meanWtSum (catalog st) (workerGO cfg opts pars st w) c = 0).
  { unfold meanWtSum, add_at. rewrite ufunc_at_untouched; [reflexivity|].
    rewrite workerGO_rows, map_map. cbn [fst]. intros Hin.
    apply in_map_iff in Hin. destruct Hin as (o & Ho & Hin).
    exact (Hno o Hin Ho). }
  rewrite Hw. reflexivity.
Qed.

Lemma runWorkers_leave_unobserved (wl : list (list nat * list nat)) c :
  forall st acc,
    (forall o, In o (concat (map snd wl)) -> objBand (catalog st) o <> c) ->
    meansAt (fst (fold_left
                    (fun acc w => let r := worker cfg opts pars (fst acc) w in
                                  (fst r, addArrays (snd acc) (snd r)))
                    wl (st, acc))) c
    = meansAt st c.
Proof.
  induction wl as [|w wl IH]; intros st acc Hno; [reflexivity|].
  simpl. rewrite IH.
  - apply worker_leaves_unobserved. intros o Ho. apply Hno. simpl.
    apply in_or_app. now left.
  - destruct (worker_frame cfg opts pars Hsed st w) as [Hc _]. rewrite Hc.
    intros o Ho. apply Hno. simpl. apply in_or_app. now right.
Qed.

End Unobserved.

Section CallMeans.
Context {M : Libm} {L : FgcmLUT} {PM : ParsMethods} {SM : StarsMethods}.
Variable cfg : Config.

Lemma finish_means opts e pars st ps s' out c :
  finish opts e pars st ps = (s', Ok out) ->
  meansAt (fgcmStars s') c = meansAt st c.
Proof.
  unfold finish. destruct (negb (allExposures opts)).
  - destruct (Qleb _ 0); [discriminate|]. now intros [= <- _].
  - now intros [= <- _].
Qed.

(** X11. After a completed fit call ([allExposures=False],
    [computeSEDSlopes=False], positive [nStarPerRun]) a star that has no
    matched good observation in a band holds the reset value 99 in the
    three mean arrays for that band. *)
Theorem unobserved_star_holds_the_reset_value
        opts fitParams s s' out goodStarsSub goodObs cache c :
  allExposures opts = false ->
  computeSEDSlopes opts = false ->
  (0 < nStarPerRun cfg)%nat ->
  matching cfg opts (engine s) (reloadedPars opts fitParams s)
           (resetStars opts (fgcmStars s)) = Ok (goodStarsSub, goodObs, cache) ->
  call cfg opts fitParams s = (s', Ok out) ->
  (forall o, In o goodObs -> objBand (catalog (fgcmStars s)) o <> c) ->
  objMagStdMean (fgcmStars s') c = 99
  /\ objMagStdMeanNoChrom (fgcmStars s') c = 99
  /\ objMagStdMeanErr (fgcmStars s') c = 99.
Proof.
  intros Hfit Hsed Hn Hm Hcall Hno.
  destruct (call_ok_inv cfg _ _ _ _ _ Hcall)
    as (gss & go & cache' & st' & ps & _ & Hm' & Hd & Hfin).
  rewrite Hm in Hm'. injection Hm' as <- <- <-.
  pose proof (finish_means _ _ _ _ _ _ _ c Hfin) as Hf.
  destruct (dispatch_ok_inv cfg _ _ _ _ _ _ _ Hd) as (wl & Hst & _ & Hwl).
  rewrite Hst in Hf. unfold runWorkers in Hf.
  assert (Hcat : catalog (resetStars opts (fgcmStars s)) = catalog (fgcmStars s)).
  { unfold resetStars. now destruct (negb (allExposures opts)). }
  rewrite (runWorkers_leave_unobserved cfg opts _ Hsed) in Hf.
  - unfold resetStars in Hf. rewrite Hfit in Hf. cbn in Hf.
    unfold meansAt in Hf. injection Hf as -> -> ->. auto.
  - rewrite Hcat. intros o Ho. apply Hno.
    unfold workerChunks in Hwl. destruct (debug opts).
    + injection Hwl as <-. simpl in Ho. now rewrite app_nil_r in Ho.
    + eapply Permutation_in; [|exact Ho].
      apply (workerList_partition cfg opts _ _ _ _ Hwl).
Qed.

(** X12. The chi-squared a fit call returns is never negative, and with
    [computeDerivatives=True] the number of parameters it counts as
    fitted is at most [nFitPars].  The parameter container is assumed to
    lay the active slices out inside the fit-parameter vector. *)
Theorem returned_chisq_is_not_negative opts fitParams s s' out :
  allExposures opts = false ->
  (computeDerivatives opts = true -> validLayout (reloadedPars opts fitParams s)) ->
  call cfg opts fitParams s = (s', Ok out) ->
  0 <= fitChisq out
  /\ (computeDerivatives opts = true ->
      (nActualFitPars (engine s')
       <= nFitPars (layout (reloadedPars opts fitParams s)))%nat).
Proof.
  intros Hfit Hlay Hcall.
  destruct (call_ok_inv cfg _ _ _ _ _ Hcall)
    as (gss & go & cache & st' & ps & _ & Hm & Hd & Hfin).
  destruct (dispatch_ok_inv cfg _ _ _ _ _ _ _ Hd) as (wl & _ & Hps & Hwl).
  revert Hfin. unfold finish. rewrite Hfit. simpl.
  destruct (Qleb _ 0) eqn:Hle; [discriminate|].
  apply Qleb_gt in Hle. intros [= <- <-]. simpl. split.
  - apply Qle_shift_div_l; [exact Hle|]. rewrite Qmult_0_l.
    rewrite Hps, (partialSums_slot cfg opts), (traceSlot_chisq cfg opts _ Hfit Hlay).
    unfold traceChisq. apply sum_nonneg. intros x Hx.
    apply in_map_iff in Hx. destruct Hx as (run & <- & _).
    unfold weightedChisq. apply sum_nonneg. intros y Hy.
    apply in_map_iff in Hy. destruct Hy as ([wgt d] & <- & Hin).
    unfold fitTerms in Hin. apply in_map_iff in Hin.
    destruct Hin as (r & [= <- <-] & _). cbn [fst snd].
    pose proof (weight_nonneg (obsMagADUModelErr (catalog (fst run)) (fst r))) as Hw.
    unfold obsWeightGO, obsMagErr2GO, sq in *. nra.
  - intros Hder. unfold actualFitPars. rewrite Hder.
    unfold countTouched, np_where.
    etransitivity; [apply filter_length_le|]. now rewrite length_seq.
Qed.

End CallMeans.

Section SectionsCriterion.
Variable cfg : Config.
Variable opts : Options.

Lemma firsts_some (sizes : list nat) :
  forall l : list nat,
    Forall (fun k => 1 <= k)%nat sizes -> (list_sum sizes <= length l)%nat ->
    exists sv, firsts (array_split_aux l sizes) = Some sv.
Proof.
  induction sizes as [|k ks IH]; intros l Hpos Hsum; simpl.
  - now exists [].
  - apply Forall_cons_iff in Hpos. destruct Hpos as [Hk Hks]. simpl in Hsum.
    destruct (IH (skipn k l) Hks) as [sv Hsv]; [rewrite length_skipn; lia|].
    rewrite Hsv. destruct l as [|x l]; [simpl in Hsum; lia|].
    destruct k as [|k]; [lia|]. simpl. now eexists.
Qed.

Lemma firsts_none (sizes : list nat) :
  forall l : list nat, In O sizes -> firsts (array_split_aux l sizes) = None.
Proof.
  induction sizes as [|k ks IH]; intros l Hin; [destruct Hin|]. simpl.
  destruct Hin as [->|Hin].
  - reflexivity.
  - rewrite (IH _ Hin). now destruct (firstn k l).
Qed.

(** X7. The multi-core path needs [nStarPerRun] of at least 2: with a
    positive [nStarPerRun] and at least one good star, the list of
    sections cannot be built (the last section of stars is empty and
    [goodStarsList[i][0]] raises [IndexError]) exactly when [nStarPerRun]
    is 1. *)
Theorem sections_need_two_stars_per_run st goodStarsSub goodObs :
  (0 < nStarPerRun cfg)%nat ->
  goodStars cfg opts st <> [] ->
  (workerList cfg opts st goodStarsSub goodObs = None <-> nStarPerRun cfg = 1%nat).
Proof.
  intros Hn Hgs. unfold workerList.
  destruct (Nat.eqb_spec (nStarPerRun cfg) 0) as [H0|_]; [lia|].
  set (gs := goodStars cfg opts st) in *.
  set (len := length gs).
  assert (Hlen : (0 < len)%nat).
  { subst len. destruct gs; [contradiction|simpl; lia]. }
  set (n := (len / nStarPerRun cfg + 1)%nat).
  unfold array_split. fold len.
  replace (seq 0 n) with (O :: seq 1 (len / nStarPerRun cfg))
    by (subst n; rewrite Nat.add_1_r; reflexivity).
  cbn [map array_split_aux tl].
  set (f := fun i => if (i <? len mod n)%nat then S (len / n) else (len / n)%nat).
  split.
  - intros Hnone.
    destruct (Nat.eq_dec (nStarPerRun cfg) 1) as [|Hne]; [assumption|exfalso].
    assert (Hle : (n <= len)%nat).
    { subst n. pose proof (Nat.Div0.mul_div_le len (nStarPerRun cfg)). nia. }
    assert (Hq : (1 <= len / n)%nat).
    { apply Nat.div_le_lower_bound; lia. }
    destruct (firsts_some (map f (seq 1 (len / nStarPerRun cfg)))
                          (skipn (f O) gs)) as [sv Hsv].
    + apply Forall_forall. intros k Hk. apply in_map_iff in Hk.
      destruct Hk as (i & <- & _). unfold f. destruct (i <? len mod n)%nat; lia.
    + rewrite length_skipn. fold len.
      pose proof (sum_section_sizes (len / n) (len mod n) n 0) as Hs.
      replace (seq 0 n) with (O :: seq 1 (len / nStarPerRun cfg)) in Hs
        by (subst n; rewrite Nat.add_1_r; reflexivity).
      change (f O + list_sum (map f (seq 1 (len / nStarPerRun cfg)))
              = n * (len / n) + (Nat.min (0 + n) (len mod n) - Nat.min 0 (len mod n)))%nat
        in Hs.
      pose proof (Nat.div_mod_eq len n).
      assert (Hn0 : n <> O) by (subst n; lia).
      pose proof (Nat.mod_upper_bound len n Hn0). lia.
    + change (f O) with (if (0 <? len mod n)%nat then S (len / n) else (len / n)%nat)
        in Hsv.
      rewrite Hsv in Hnone. discriminate.
  - intros H1. rewrite firsts_none; [reflexivity|].
    apply in_map_iff. exists len. split.
    + unfold f. subst n. rewrite H1, Nat.div_1_r.
      rewrite Nat.mod_small, Nat.div_small by lia.
      now rewrite Nat.ltb_irrefl.
    + rewrite H1, Nat.div_1_r. apply in_seq. lia.
Qed.

End SectionsCriterion.

(** *** The theorems on the example catalog *)

Section OnExamples.
Import Examples.

Lemma exOrphan_raises :
  snd (exCall exFit exOrphanState) = Raise StrangeFirstMatch.
Proof. vm_compute. reflexivity. Qed.

Lemma failed_call_has_reset_the_means_witness :
  let s' := fst (exCall exFit exOrphanState) in
  fgcmPars s' = reloadedPars (PM:=exParsMethods) exFit exFitParams exOrphanState
  /\ (allExposures exFit = false ->
      forall c, objMagStdMean (fgcmStars s') c = 99
                /\ objMagStdMeanNoChrom (fgcmStars s') c = 99
                /\ objMagStdMeanErr (fgcmStars s') c = 99)
  /\ catalog (fgcmStars s') = catalog (fgcmStars exOrphanState)
  /\ obsMagStd (fgcmStars s') = obsMagStd (fgcmStars exOrphanState)
  /\ objSEDSlope (fgcmStars s') = objSEDSlope (fgcmStars exOrphanState)
  /\ magStdComputed (fgcmStars s') = magStdComputed (fgcmStars exOrphanState)
  /\ allMagStdComputed (fgcmStars s') = allMagStdComputed (fgcmStars exOrphanState).
Proof.
  apply (@failed_call_has_reset_the_means exLibm exLUT exParsMethods
           exStarsMethods exConfig exFit exFitParams exOrphanState
           StrangeFirstMatch exOrphan_raises); discriminate.
Defined.

Lemma no_matched_observation_fails_at_the_match_witness :
  (let err := if Nat.eqb (nStarObs (catalog (fgcmStars exLonelyState))) 0
              then EmptyMatch else IndexError in
   snd (exCall exFit exLonelyState) = Raise err
   /\ isOwnValueError err = false
   /\ callTrace (M:=exLibm) (L:=exLUT) (PM:=exParsMethods) (SM:=exStarsMethods)
                exConfig exFit exFitParams exLonelyState = [])
  /\ (let err := if Nat.eqb (nStarObs (catalog (fgcmStars exEmptyTableState))) 0
                 then EmptyMatch else IndexError in
      snd (exCall exFit exEmptyTableState) = Raise err
      /\ isOwnValueError err = false
      /\ callTrace (M:=exLibm) (L:=exLUT) (PM:=exParsMethods) (SM:=exStarsMethods)
                   exConfig exFit exFitParams exEmptyTableState = []).
Proof.
  split.
  - apply (@no_matched_observation_fails_at_the_match exLibm exLUT exParsMethods
             exStarsMethods exConfig exFit exFitParams exLonelyState).
    + reflexivity.
    + vm_compute. discriminate.
    + reflexivity.
    + intros o Ho. vm_compute. intros [H|[]]. discriminate.
  - apply (@no_matched_observation_fails_at_the_match exLibm exLUT exParsMethods
             exStarsMethods exConfig exFit exFitParams exEmptyTableState).
    + reflexivity.
    + vm_compute. discriminate.
    + reflexivity.
    + intros o Ho. exfalso. revert Ho. vm_compute. lia.
Defined.

Lemma exMatching_result :
  matching exConfig exFit (engine exState)
             (reloadedPars (PM:=exParsMethods) exFit exFitParams exState)
             (resetStars exFit (fgcmStars exState))
  = Ok (exGoodStarsSub, exGoodObs, None).
Proof. vm_compute. reflexivity. Qed.

Lemma exSections_built :
  workerList exConfig exFit exReset exGoodStarsSub exGoodObs = Some exSections.
Proof. vm_compute. reflexivity. Qed.

Lemma sections_partition_stars_and_observations_witness :
  length exSections = (length (goodStars exConfig exFit exReset) / nStarPerRun exConfig + 1)%nat
  /\ Permutation (concat (map fst exSections)) (goodStars exConfig exFit exReset)
  /\ Permutation (concat (map snd exSections)) exGoodObs.
Proof.
  apply (sections_partition_stars_and_observations exConfig exFit exReset
           exGoodStarsSub exGoodObs exSections).
  - vm_compute. lia.
  - exact exSections_built.
Defined.

Lemma sections_need_two_stars_per_run_witness :
  workerList exConfig exFit exReset exGoodStarsSub exGoodObs = None
  <-> nStarPerRun exConfig = 1%nat.
Proof.
  apply (sections_need_two_stars_per_run exConfig exFit exReset
           exGoodStarsSub exGoodObs).
  - vm_compute. lia.
  - vm_compute. discriminate.
Defined.

Lemma call_writes_obsMagStd_at_good_observations_witness :
  let pars := reloadedPars (PM:=exParsMethods) exFit exFitParams exState in
  let st := fgcmStars exState in
  obsMagStd (fgcmStars exAfterFit) 0%nat
  = (if memb 0%nat exGoodObs
     then obsMagGO (M:=exLibm) (L:=exLUT) exConfig exFit pars (catalog st) 0%nat
          + deltaStdGO (M:=exLibm) (L:=exLUT) exConfig pars (catalog st) st 0%nat
     else obsMagStd st 0%nat)
  /\ obsMagStd (fgcmStars exAfterFit) 16%nat
     = (if memb 16%nat exGoodObs
        then obsMagGO (M:=exLibm) (L:=exLUT) exConfig exFit pars (catalog st) 16%nat
             + deltaStdGO (M:=exLibm) (L:=exLUT) exConfig pars (catalog st) st 16%nat
        else obsMagStd st 16%nat).
Proof.
  assert (Hlen : (0 < nStarPerRun exConfig)%nat) by (vm_compute; lia).
  split.
  - exact (@call_writes_obsMagStd_at_good_observations exLibm exLUT exParsMethods
             exStarsMethods exConfig exFit exFitParams exState exAfterFit exFitOut
             exGoodStarsSub exGoodObs None eq_refl Hlen exMatching_result
             exFit_call 0%nat).
  - exact (@call_writes_obsMagStd_at_good_observations exLibm exLUT exParsMethods
             exStarsMethods exConfig exFit exFitParams exState exAfterFit exFitOut
             exGoodStarsSub exGoodObs None eq_refl Hlen exMatching_result
             exFit_call 16%nat).
Defined.

Lemma unobserved_star_holds_the_reset_value_witness :
  objMagStdMean (fgcmStars exAfterFit) (0%nat, 1%nat) = 99
  /\ objMagStdMeanNoChrom (fgcmStars exAfterFit) (0%nat, 1%nat) = 99
  /\ objMagStdMeanErr (fgcmStars exAfterFit) (0%nat, 1%nat) = 99.
Proof.
  apply (@unobserved_star_holds_the_reset_value exLibm exLUT exParsMethods
           exStarsMethods exConfig exFit exFitParams exState exAfterFit exFitOut
           exGoodStarsSub exGoodObs None (0%nat, 1%nat) eq_refl eq_refl).
  - vm_compute. lia.
  - exact exMatching_result.
  - exact exFit_call.
  - intros o _ H. discriminate H.
Defined.

Lemma returned_chisq_is_not_negative_witness :
  0 <= fitChisq exFitOut
  /\ (computeDerivatives exFit = true ->
      (nActualFitPars (engine exAfterFit)
       <= nFitPars (layout (reloadedPars (PM:=exParsMethods) exFit exFitParams exState)))%nat).
Proof.
  exact (@returned_chisq_is_not_negative exLibm exLUT exParsMethods exStarsMethods
           exConfig exFit exFitParams exState exAfterFit exFitOut
           eq_refl (fun _ => exReloaded_valid) exFit_call).
Defined.

Lemma worker_means_are_weighted_means_witness :
  let c := (0%nat, 0%nat) in
  let cat := catalog exReset in
  let before := workerSED (SM:=exStarsMethods) (M:=exLibm) (L:=exLUT)
                          exConfig exFit exReloaded exReset exSection in
  let after := fst (worker (M:=exLibm) (L:=exLUT) (PM:=exParsMethods)
                           (SM:=exStarsMethods)
                           exConfig exFit exReloaded exReset exSection) in
  let obs := filter (fun o => pair_eqb c (objBand cat o)) (snd exSection) in
  let wt := sum (map (fun o => 1 / obsMagErr2GO cat o) obs) in
  (0 < wt ->
   objMagStdMean after c
   = sum (map (fun o => obsMagStd after o / obsMagErr2GO cat o) obs) / wt
   /\ objMagStdMeanNoChrom after c
      = sum (map (fun o => obsMagGO (M:=exLibm) (L:=exLUT) exConfig exFit exReloaded cat o
                           / obsMagErr2GO cat o) obs) / wt
   /\ objMagStdMeanErr after c = exSqrt (1 / wt))
  /\ (wt <= 0 ->
      objMagStdMean after c = objMagStdMean before c
      /\ objMagStdMeanNoChrom after c = objMagStdMeanNoChrom before c
      /\ objMagStdMeanErr after c = objMagStdMeanErr before c).
Proof.
  exact (@worker_means_are_weighted_means exLibm exLUT exParsMethods
           exStarsMethods exConfig exFit exReloaded eq_refl exReset exSection
           (0%nat, 0%nat)).
Defined.

Lemma weighted_residuals_of_a_star_cancel_witness :
  let c := (0%nat, 0%nat) in
  let cat := catalog exReset in
  let after := fst (worker (M:=exLibm) (L:=exLUT) (PM:=exParsMethods)
                           (SM:=exStarsMethods)
                           exConfig exFit exReloaded exReset exSection) in
  let obs := filter (fun o => pair_eqb c (objBand cat o)) (snd exSection) in
  sum (map (fun o => 1 / obsMagErr2GO cat o
                     * (obsMagStd after o - objMagStdMean after c)) obs) == 0.
Proof.
  apply (@weighted_residuals_of_a_star_cancel exLibm exLUT exParsMethods
           exStarsMethods exConfig exFit exReloaded eq_refl exReset exSection
           (0%nat, 0%nat)).
  vm_compute. reflexivity.
Defined.

End OnExamples.

End ChisqMore.

(** ** Sorting and moments *)

Module SortFacts.
Import SigFgcm ChisqFacts.

Lemma insert_perm (x : Q) (l : list Q) : Permutation (insert x l) (x :: l).
Proof.
  induction l as [|y l IH]; simpl; [reflexivity|].
  destruct (Qle_bool x y); [reflexivity|].
  rewrite IH. apply perm_swap.
Qed.

Lemma sort_perm (l : list Q) : Permutation (sort l) l.
Proof.
  unfold sort. induction l as [|x l IH]; simpl; [reflexivity|].
  rewrite insert_perm. now constructor.
Qed.

Lemma length_sort (l : list Q) : length (sort l) = length l.
Proof. apply Permutation_length, sort_perm. Qed.

Lemma insert_sorted (x : Q) (l : list Q) :
  StronglySorted Qle l -> StronglySorted Qle (insert x l).
Proof.
  induction l as [|y l IH]; intros Hs; simpl.
  - repeat constructor.
  - apply StronglySorted_inv in Hs. destruct Hs as [Hl Hall].
    destruct (Qle_bool x y) eqn:E.
    + apply Qle_bool_iff in E. constructor.
      * now constructor.
      * constructor; [exact E|]. eapply Forall_impl; [|exact Hall].
        intros z Hz. lra.
    + assert (Hyx : y <= x).
      { destruct (Qlt_le_dec y x) as [H|H]; [lra|].
        apply Qle_bool_iff in H. congruence. }
      constructor; [now apply IH|].
      apply Forall_forall. intros z Hz.
      apply (Permutation_in _ (insert_perm x l)) in Hz.
      destruct Hz as [<-|Hz]; [exact Hyx|].
      rewrite Forall_forall in Hall. now apply Hall.
Qed.

Lemma sort_sorted (l : list Q) : StronglySorted Qle (sort l).
Proof.
  unfold sort. induction l as [|x l IH]; simpl; [constructor|].
  now apply insert_sorted.
Qed.

Lemma nth_sorted (l : list Q) :
  StronglySorted Qle l ->
  forall i j, (i <= j)%nat -> (j < length l)%nat -> nth i l 0 <= nth j l 0.
Proof.
  induction 1 as [|x l Hs IH Hall]; intros i j Hij Hj; [simpl in Hj; lia|].
  destruct i as [|i], j as [|j]; simpl in *; try lia.
  - lra.
  - rewrite Forall_forall in Hall. apply Hall. apply nth_In. lia.
  - apply IH; lia.
Qed.

Lemma last_is_nth (l : list Q) : last l 0 = nth (length l - 1) l 0.
Proof.
  induction l as [|x l IH]; [reflexivity|].
  destruct l as [|y l]; [reflexivity|].
  change (last (x :: y :: l) 0) with (last (y :: l) 0). rewrite IH.
  simpl. now rewrite Nat.sub_0_r.
Qed.

Lemma sorted_bounds (l : list Q) (x : Q) :
  StronglySorted Qle l -> In x l -> nth 0 l 0 <= x /\ x <= last l 0.
Proof.
  intros Hs Hin. apply (In_nth _ _ 0) in Hin. destruct Hin as (k & Hk & <-).
  rewrite last_is_nth. split; apply nth_sorted; try assumption; lia.
Qed.

(** The values at 0, 1/4, 3/4 and the end of a sorted list. *)
Lemma sorted_quartiles (l : list Q) :
  StronglySorted Qle l -> l <> [] ->
  nth 0 l 0 <= nth (1 * length l / 4) l 0
  /\ nth (1 * length l / 4) l 0 <= nth (3 * length l / 4) l 0
  /\ nth (3 * length l / 4) l 0 <= last l 0.
Proof.
  intros Hs Hne.
  assert (Hlen : (0 < length l)%nat) by (destruct l; [contradiction|simpl; lia]).
  assert (H3 : (3 * length l / 4 < length l)%nat)
    by (apply Nat.Div0.div_lt_upper_bound; lia).
  assert (H13 : (1 * length l / 4 <= 3 * length l / 4)%nat)
    by (apply Nat.Div0.div_le_mono; lia).
  rewrite last_is_nth. repeat split; apply nth_sorted; try assumption; lia.
Qed.

Lemma sq_nonneg (a : Q) : 0 <= sq a.
Proof. unfold sq. destruct (Qlt_le_dec a 0); nra. Qed.

(** A weighted sum of squared deviations, expanded. *)
Lemma sum_weighted_deviations {X} (w f : X -> Q) (t : Q) (l : list X) :
  sum (map (fun x => w x * sq (f x - t)) l)
  == sum (map (fun x => w x * sq (f x)) l)
     - 2 * t * sum (map (fun x => w x * f x) l)
     + t * t * sum (map w l).
Proof.
  induction l as [|x l IH]; simpl.
  - unfold sum. simpl. ring.
  - rewrite !sum_cons, IH. unfold sq. ring.
Qed.

(** With non-negative weights of positive sum, the weighted mean of the
    squares is at least the square of the weighted mean. *)
Lemma weighted_variance_nonneg {X} (w f : X -> Q) (l : list X) :
  (forall x, In x l -> 0 <= w x) ->
  0 < sum (map w l) ->
  0 <= sum (map (fun x => w x * sq (f x)) l) / sum (map w l)
       - sq (sum (map (fun x => w x * f x) l) / sum (map w l)).
Proof.
  intros Hw HW.
  set (W := sum (map w l)) in *.
  set (S1 := sum (map (fun x => w x * f x) l)).
  set (S2 := sum (map (fun x => w x * sq (f x)) l)).
  assert (Hdev : 0 <= sum (map (fun x => w x * sq (f x - S1 / W)) l)).
  { apply sum_nonneg. intros y Hy. apply in_map_iff in Hy.
    destruct Hy as (x & <- & Hx). specialize (Hw x Hx).
    apply Qmult_le_0_compat; [exact Hw|apply sq_nonneg]. }
  rewrite sum_weighted_deviations in Hdev. fold W S1 S2 in Hdev.
  assert (Hi : 0 < / W) by now apply Qinv_lt_0_compat.
  assert (Heq : S2 / W - sq (S1 / W)
                == (S2 - 2 * (S1 / W) * S1 + S1 / W * (S1 / W) * W) * / W).
  { unfold sq. field. lra. }
  rewrite Heq. apply Qmult_le_0_compat; lra.
Qed.

Lemma sum_ones {X} (l : list X) :
  sum (map (fun _ => 1) l) == inject_Z (Z.of_nat (length l)).
Proof.
  induction l as [|x l IH]; [reflexivity|].
  cbn [map length]. rewrite sum_cons, IH, Nat2Z.inj_succ, <- Z.add_1_l, inject_Z_plus.
  reflexivity.
Qed.

(** The argument of the square root of an unweighted RMS. *)
Lemma variance_nonneg {X} (f : X -> Q) (l : list X) :
  (0 < length l)%nat ->
  0 <= sum (map (fun x => sq (f x)) l) / inject_Z (Z.of_nat (length l))
       - sq (sum (map f l) / inject_Z (Z.of_nat (length l))).
Proof.
  intros Hn.
  assert (Hpos : 0 < inject_Z (Z.of_nat (length l))).
  { change 0 with (inject_Z 0). rewrite <- Zlt_Qlt. lia. }
  assert (Hsum : 0 < sum (map (fun _ : X => 1) l)) by now rewrite sum_ones.
  assert (Hone : forall x : X, In x l -> 0 <= 1) by (intros; lra).
  pose proof (weighted_variance_nonneg (fun _ => 1) f l Hone Hsum) as H.
  assert (H1 : sum (map (fun x => 1 * sq (f x)) l) == sum (map (fun x => sq (f x)) l))
    by (apply sum_map_ext; intros; ring).
  assert (H2 : sum (map (fun x => 1 * f x) l) == sum (map f l))
    by (apply sum_map_ext; intros; ring).
  unfold sq at 2 in H. unfold sq at 2. rewrite H1, H2, sum_ones in H. exact H.
Qed.

End SortFacts.

(** ** Exposure grays of the initial selection and of the colour split *)

Module ExpGrayFacts.
Import ExpGray ChisqFacts SortFacts.

Section Facts.
Context {M : Libm}.
Variable cfg : Config.
Variable st : FgcmStars.
Variable obsIndex : list nat.

#[local] Abbreviation EG := (EGray st obsIndex).

(** A field that [accumulate] updates with [ufunc.at] holds the fold
    over the selected observations of the exposure. *)
Lemma accumulate_field {V} (proj : ExpSums -> nat -> V) (op : V -> V -> V)
      (g : nat -> V) :
  (forall s sel, proj (accumulate st obsIndex s sel)
                 = ufunc_at op (proj s) (map (expOf st) sel) (map g sel)) ->
  forall (s : ExpSums) (sel : list nat) (e : nat),
    proj (accumulate st obsIndex s sel) e
    = fold_left op (map g (onExposure st e sel)) (proj s e).
Proof. intros Hacc s sel e. now rewrite Hacc, ufunc_at_fold. Qed.

Lemma sums_fold_accumulate_field {V} (proj : ExpSums -> nat -> V) (op : V -> V -> V)
      (g : nat -> V) :
  (forall s sel, proj (accumulate st obsIndex s sel)
                 = ufunc_at op (proj s) (map (expOf st) sel) (map g sel)) ->
  forall (ebs : list nat) (s : ExpSums) (e : nat),
    proj (fold_left (fun s eb => accumulate st obsIndex s (extraBandObs st eb)) ebs s) e
    = fold_left op (map g (onExposure st e (flat_map (extraBandObs st) ebs)))
                (proj s e).
Proof.
  intros Hacc. induction ebs as [|eb ebs IH]; intros s e; simpl; [reflexivity|].
  rewrite IH, (accumulate_field proj op g Hacc).
  unfold onExposure. rewrite filter_app, map_app, fold_left_app. reflexivity.
Qed.

Lemma initialSums_field {V} (proj : ExpSums -> nat -> V) (op : V -> V -> V)
      (g : nat -> V) (e : nat) :
  (forall s sel, proj (accumulate st obsIndex s sel)
                 = ufunc_at op (proj s) (map (expOf st) sel) (map g sel)) ->
  proj (initialSums st obsIndex) e
  = fold_left op (map g (onExposure st e (initialObs st))) (proj sums0 e).
Proof.
  intros Hacc. unfold initialSums, initialObs.
  rewrite (sums_fold_accumulate_field proj op g Hacc), (accumulate_field proj op g Hacc).
  unfold onExposure. rewrite filter_app, map_app, fold_left_app. reflexivity.
Qed.

Lemma count_fold_add_ones {X} (l : list X) (n : nat) :
  fold_left Nat.add (map (fun _ => 1%nat) l) n = (n + length l)%nat.
Proof.
  revert n. induction l as [|x l IH]; intros n; simpl; [lia|].
  rewrite IH. lia.
Qed.

Lemma initial_count e :
  sNGood (initialSums st obsIndex) e = length (onExposure st e (initialObs st)).
Proof.
  rewrite (initialSums_field sNGood Nat.add (fun _ => 1%nat) e) by reflexivity.
  now rewrite count_fold_add_ones.
Qed.

Lemma initial_sum e :
  sGray (initialSums st obsIndex) e = sum (map EG (onExposure st e (initialObs st))).
Proof. now rewrite (initialSums_field sGray Qplus EG e). Qed.

Lemma initial_sum_sq e :
  sGraySq (initialSums st obsIndex) e
  = sum (map (fun o => sq (EG o)) (onExposure st e (initialObs st))).
Proof. now rewrite (initialSums_field sGraySq Qplus (fun o => sq (EG o)) e). Qed.

Lemma initial_result a :
  computeExpGrayForInitialSelection st obsIndex = Ok a ->
  a = {| expGrayForInitialSelection := initialGray st obsIndex;
         expGrayRMSForInitialSelection := initialGrayRMS st obsIndex;
         expNGoodStarForInitialSelection := initialNGood st obsIndex |}.
Proof.
  unfold computeExpGrayForInitialSelection.
  destruct (magStdComputed st); simpl; [|discriminate].
  destruct (esutil_match _ _ _); [|discriminate].
  destruct (esutil_match_in _ _ _); [|discriminate].
  now intros [= <-].
Qed.


(** *** The colour split *)

Lemma split_field {V} (proj : ExpSums -> nat -> V) (op : V -> V -> V)
      (g : nat -> V) (c e : nat) :
  (forall s sel, proj (accumulate st obsIndex s sel)
                 = ufunc_at op (proj s) (map (expOf st) sel) (map g sel)) ->
  proj (splitSums cfg st obsIndex c) e
  = fold_left op (map g (onExposure st e (useObs cfg st c))) (proj sums0 e).
Proof. intros Hacc. unfold splitSums. now rewrite (accumulate_field proj op g Hacc). Qed.

Lemma split_count c e :
  sNGood (splitSums cfg st obsIndex c) e = length (onExposure st e (useObs cfg st c)).
Proof.
  rewrite (split_field sNGood Nat.add (fun _ => 1%nat) c e) by reflexivity.
  now rewrite count_fold_add_ones.
Qed.

Lemma split_result a :
  computeExpGrayColorSplit cfg st obsIndex = Ok a ->
  a = {| expGrayColorSplit := splitGray cfg st obsIndex;
         expGrayRMSColorSplit := splitGrayRMS cfg st obsIndex;
         expGrayNGoodStarsColorSplit := splitNGood cfg st obsIndex |}.
Proof.
  unfold computeExpGrayColorSplit.
  destruct (magStdComputed st); simpl; [|discriminate].
  destruct (esutil_match _ _ _); [|discriminate].
  destruct (goodObs st); [discriminate|].
  destruct (esutil_match_in _ _ _); [|discriminate].
  now intros [= <-].
Qed.


Lemma in_useObs c o :
  In o (useObs cfg st c)
  <-> In o (goodObs st)
      /\ gmiCutLow cfg st c < gmi cfg st o /\ gmi cfg st o < gmiCutHigh cfg st c.
Proof.
  unfold useObs. rewrite filter_In, andb_true_iff, Qgtb_gt, Qltb_lt. tauto.
Qed.

Lemma gmi_in_sorted o :
  In o (goodObs st) -> In (gmi cfg st o) (gmiSorted cfg st).
Proof.
  intros Hin. unfold gmiSorted.
  apply (Permutation_in _ (Permutation_sym (sort_perm _))).
  now apply in_map.
Qed.

Lemma gmiSorted_facts o :
  In o (goodObs st) ->
  nth 0 (gmiSorted cfg st) 0 <= gmi cfg st o
  /\ gmi cfg st o <= last (gmiSorted cfg st) 0
  /\ nth 0 (gmiSorted cfg st) 0 <= quarter cfg st 1
  /\ quarter cfg st 1 <= quarter cfg st 3
  /\ quarter cfg st 3 <= last (gmiSorted cfg st) 0.
Proof.
  intros Hgo. pose proof (gmi_in_sorted o Hgo) as Hin.
  assert (Hs : StronglySorted Qle (gmiSorted cfg st)) by apply sort_sorted.
  assert (Hne : gmiSorted cfg st <> []) by (intros E; rewrite E in Hin; destruct Hin).
  destruct (sorted_bounds _ _ Hs Hin) as [H1 H2].
  destruct (sorted_quartiles _ Hs Hne) as (H3 & H4 & H5).
  unfold quarter. auto.
Qed.

(** X15. The three colour cuts of [computeExpGrayColorSplit] are open
    intervals between the sorted colours at 0, 1/4, 3/4 and the end: no
    observation is used in two cuts, and an observation whose colour
    equals the smallest colour, the largest colour or one of the two
    quartile colours is used in none. *)
Theorem color_cuts_are_disjoint_and_open o :
  (forall c c', (c < 3)%nat -> (c' < 3)%nat ->
                In o (useObs cfg st c) -> In o (useObs cfg st c') -> c = c')
  /\ (forall c, (c < 3)%nat -> In o (useObs cfg st c) ->
                nth 0 (gmiSorted cfg st) 0 < gmi cfg st o
                /\ gmi cfg st o < last (gmiSorted cfg st) 0
                /\ ~ gmi cfg st o == quarter cfg st 1
                /\ ~ gmi cfg st o == quarter cfg st 3).
Proof.
  assert (Hcut : forall c, (c < 3)%nat -> In o (useObs cfg st c) ->
            In o (goodObs st)
            /\ ((c = 0%nat /\ nth 0 (gmiSorted cfg st) 0 < gmi cfg st o
                           /\ gmi cfg st o < quarter cfg st 1)
                \/ (c = 1%nat /\ quarter cfg st 1 < gmi cfg st o
                                /\ gmi cfg st o < quarter cfg st 3)
                \/ (c = 2%nat /\ quarter cfg st 3 < gmi cfg st o
                                /\ gmi cfg st o < last (gmiSorted cfg st) 0))).
  { intros c Hc Hin. apply in_useObs in Hin. destruct Hin as (Hgo & Hlo & Hhi).
    split; [exact Hgo|].
    destruct c as [|[|[|c]]]; try lia; simpl in Hlo, Hhi; auto 10. }
  split.
  - intros c c' Hc Hc' Hin Hin'.
    destruct (Hcut c Hc Hin) as [Hgo Hc1]. destruct (Hcut c' Hc' Hin') as [_ Hc2].
    destruct (gmiSorted_facts o Hgo) as (_ & _ & _ & Hq & _).
    destruct Hc1 as [(-> & ? & ?)|[(-> & ? & ?)|(-> & ? & ?)]];
      destruct Hc2 as [(-> & ? & ?)|[(-> & ? & ?)|(-> & ? & ?)]];
      try reflexivity; exfalso; lra.
  - intros c Hc Hin.
    destruct (Hcut c Hc Hin) as [Hgo Hc1].
    destruct (gmiSorted_facts o Hgo) as (Hmin & Hmax & H1 & H2 & H3).
    destruct Hc1 as [(-> & ? & ?)|[(-> & ? & ?)|(-> & ? & ?)]];
      repeat split; try lra.
Qed.

End Facts.
(** *** On the example *)

Import Examples.

Lemma exSplit_runs :
  computeExpGrayColorSplit (M:=exLibm) exExpGrayConfig exSigStars (seq 0 4)
  = Ok exSplitArrays.
Proof. reflexivity. Qed.


End ExpGrayFacts.

(** ** More on the gray residuals *)

Module GrayMore.
Import Gray GrayFacts ChisqFacts SortFacts.

Section Facts.
Context {M : Libm}.
Variable cfg : Config.
Variable onlyObsErr : bool.
Variable st : FgcmStars.
Variable pars : FgcmParameters.

(** X16. Every CCD that enters the exposure aggregation of
    [computeCCDAndExpGray] holds a measured gray, never the sentinel: with
    a non-positive illegal value, a good CCD has more than two
    contributing stars, positive total weight and positive RMS argument,
    and its gray, error and RMS are the weighted statistics of its
    cell. *)
Theorem good_ccds_hold_legal_values (g : GrayArrays) (p : FgcmParameters)
        (c : nat * nat) :
  computeCCDAndExpGray cfg onlyObsErr st pars = Ok (g, p) ->
  illegalValue cfg <= 0 ->
  In c (goodCCD cfg onlyObsErr st pars) ->
  (2 < length (inCell cfg onlyObsErr st c))%nat
  /\ 0 < totalWeight cfg onlyObsErr st c
  /\ 0 < rmsArgument cfg onlyObsErr st c
  /\ ccdGray g c = weightedMean cfg onlyObsErr st c
  /\ ccdGrayErr g c = sqrt (1 / totalWeight cfg onlyObsErr st c)
  /\ ccdGrayRMS g c = sqrt (rmsArgument cfg onlyObsErr st c).
Proof.
  intros Hrun Hill Hin. apply (computed_arrays cfg onlyObsErr st pars) in Hrun.
  subst g. unfold grayArrays. cbn [ccdGray ccdGrayErr ccdGrayRMS].
  apply (goodCCD_iff cfg onlyObsErr st pars) in Hin.
  destruct Hin as (_ & _ & _ & Hpos & _).
  assert (Hbad : badCCD cfg onlyObsErr st c = false).
  { destruct (badCCD cfg onlyObsErr st c) eqn:E; [|reflexivity].
    unfold ccdGrayErr' in Hpos. rewrite E in Hpos. lra. }
  assert (Hgd : gdCCD cfg onlyObsErr st c = true).
  { destruct (gdCCD cfg onlyObsErr st c) eqn:E; [reflexivity|].
    unfold ccdGrayErr' in Hpos. rewrite Hbad, E in Hpos. lra. }
  pose proof Hgd as Hgd'. unfold gdCCD in Hgd'.
  rewrite (sNGoodStars_total cfg onlyObsErr st), (sGrayWt_total cfg onlyObsErr st) in Hgd'.
  rewrite !andb_true_iff, Nat.ltb_lt, !Qgtb_gt in Hgd'.
  destruct Hgd' as [[Hn Hw] _].
  pose proof Hbad as Hbad'. unfold badCCD in Hbad'.
  apply orb_false_iff in Hbad'. destruct Hbad' as [_ Harg].
  apply Qleb_gt in Harg.
  rewrite (gdCCD_tempRMS2 cfg onlyObsErr st c Hgd) in Harg.
  repeat split; try assumption.
  - unfold ccdGray', ccdGrayDiv. rewrite Hbad, Hgd.
    now rewrite (sGray_total cfg onlyObsErr st), (sGrayWt_total cfg onlyObsErr st).
  - unfold ccdGrayErr'. rewrite Hbad, Hgd.
    now rewrite (sGrayWt_total cfg onlyObsErr st).
  - unfold ccdGrayRMS'. rewrite Hbad, (gdCCD_tempRMS2 cfg onlyObsErr st c Hgd).
    replace (Qgtb (rmsArgument cfg onlyObsErr st c) 0) with true
      by (symmetry; now apply Qgtb_gt). reflexivity.
Qed.

(** X17. What [computeCCDAndExpGray] writes to the parameter container:
    [compExpGray] receives the exposure gray of every exposure, sentinel
    included, and [compNGoodStarPerExp] the star counts; [compVarGray]
    receives the squared RMS only for exposures with more than two good
    CCDs, so that an exposure with fewer than three keeps its previous
    variance next to a sentinel gray; nothing else of the container is
    changed. *)
Theorem gray_results_written_to_parameters (g : GrayArrays) (p : FgcmParameters) :
  computeCCDAndExpGray cfg onlyObsErr st pars = Ok (g, p) ->
  compExpGray (comp p) = expGray g
  /\ compNGoodStarPerExp (comp p) = expNGoodStars g
  /\ (forall e,
        let n := length (goodCCDsOf cfg onlyObsErr st pars e) in
        ((2 < n)%nat -> compVarGray (comp p) e = sq (expGrayRMS g e))
        /\ ((n < 3)%nat ->
            compVarGray (comp p) e = compVarGray (comp pars) e
            /\ compExpGray (comp p) e = illegalValue cfg))
  /\ compSigFgcm (comp p) = compSigFgcm (comp pars)
  /\ (nExp p, nCCD p, fitBandIndex p, layout p, modes p, exps p)
     = (nExp pars, nCCD pars, fitBandIndex pars, layout pars, modes pars, exps pars).
Proof.
  intros Hrun.
  destruct (computed_result cfg onlyObsErr st pars Hrun) as [-> ->].
  simpl. repeat split.
  - intros Hn. unfold gdExp. rewrite (expNGoodCCDs_length cfg onlyObsErr st pars).
    replace (2 <? _)%nat with true by (symmetry; now apply Nat.ltb_lt). reflexivity.
  - unfold gdExp. rewrite (expNGoodCCDs_length cfg onlyObsErr st pars).
    replace (2 <? _)%nat with false by (symmetry; apply Nat.ltb_ge; lia). reflexivity.
  - unfold expGray', badExp. rewrite (expNGoodCCDs_length cfg onlyObsErr st pars).
    replace (_ <=? 2)%nat with true by (symmetry; apply Nat.leb_le; lia). reflexivity.
Qed.

End Facts.

Section ObsErr.
Variable cfg : Config.
Variable st : FgcmStars.

(** X18. With [onlyObsErr=True] the weights are squares of inverse
    errors: the total weight of a cell is never negative and, when it is
    positive, the quantity under the square root of the CCD RMS is never
    negative. *)
Theorem observation_errors_give_nonnegative_moments (c : nat * nat) :
  0 <= totalWeight cfg true st c
  /\ (0 < totalWeight cfg true st c -> 0 <= rmsArgument cfg true st c).
Proof.
  assert (Hw : forall o, 0 <= 1 / EGrayErr2 true st o).
  { intros o. unfold EGrayErr2. apply ChisqMore.weight_nonneg. }
  split.
  - unfold totalWeight. apply sum_nonneg. intros x Hx.
    apply in_map_iff in Hx. destruct Hx as (o & <- & _). apply Hw.
  - intros Hpos. unfold rmsArgument, weightedMeanSquare, weightedMean.
    unfold totalWeight in *.
    pose proof (weighted_variance_nonneg (fun o => 1 / EGrayErr2 true st o)
                  (EGray st) (inCell cfg true st c) (fun o _ => Hw o) Hpos) as H.
    assert (H1 : sum (map (fun o => 1 / EGrayErr2 true st o * sq (EGray st o))
                          (inCell cfg true st c))
                 == sum (map (fun o => sq (EGray st o) / EGrayErr2 true st o)
                             (inCell cfg true st c))).
    { apply sum_map_ext. intros o _. unfold Qdiv. ring. }
    assert (H2 : sum (map (fun o => 1 / EGrayErr2 true st o * EGray st o)
                          (inCell cfg true st c))
                 == sum (map (fun o => EGray st o / EGrayErr2 true st o)
                             (inCell cfg true st c))).
    { apply sum_map_ext. intros o _. unfold Qdiv. ring. }
    unfold sq at 2 in H. unfold sq at 2. rewrite H1, H2 in H. exact H.
Qed.

End ObsErr.
(** *** On the example *)

Import Examples.

Lemma good_ccds_hold_legal_values_witness :
  let g := grayArrays (M:=exLibm) exGrayConfig false exGrayStars exPars in
  let c := (0%nat, 0%nat) in
  (2 < length (inCell exGrayConfig false exGrayStars c))%nat
  /\ 0 < totalWeight exGrayConfig false exGrayStars c
  /\ 0 < rmsArgument exGrayConfig false exGrayStars c
  /\ ccdGray g c = weightedMean exGrayConfig false exGrayStars c
  /\ ccdGrayErr g c = exSqrt (1 / totalWeight exGrayConfig false exGrayStars c)
  /\ ccdGrayRMS g c = exSqrt (rmsArgument exGrayConfig false exGrayStars c).
Proof.
  apply (@good_ccds_hold_legal_values exLibm exGrayConfig false exGrayStars
           exPars _ _ (0%nat, 0%nat) exGray_runs).
  - vm_compute. discriminate.
  - vm_compute. left. reflexivity.
Defined.

Lemma gray_results_written_to_parameters_witness :
  let g := grayArrays (M:=exLibm) exGrayConfig false exGrayStars exPars in
  let p := parsAfter (M:=exLibm) exGrayConfig false exGrayStars exPars in
  compExpGray (comp p) = expGray g
  /\ compNGoodStarPerExp (comp p) = expNGoodStars g
  /\ (forall e,
        let n := length (goodCCDsOf (M:=exLibm) exGrayConfig false exGrayStars
                                    exPars e) in
        ((2 < n)%nat -> compVarGray (comp p) e = sq (expGrayRMS g e))
        /\ ((n < 3)%nat ->
            compVarGray (comp p) e = compVarGray (comp exPars) e
            /\ compExpGray (comp p) e = illegalValue exGrayConfig))
  /\ compSigFgcm (comp p) = compSigFgcm (comp exPars)
  /\ (nExp p, nCCD p, fitBandIndex p, layout p, modes p, exps p)
     = (nExp exPars, nCCD exPars, fitBandIndex exPars, layout exPars,
        modes exPars, exps exPars).
Proof.
  exact (@gray_results_written_to_parameters exLibm exGrayConfig false
           exGrayStars exPars _ _ exGray_runs).
Defined.

End GrayMore.

(** ** More on the repeatability *)

Module SigFgcmMore.
Import SigFgcm SigFgcmFacts SortFacts.

Section Facts.
Context {M : Libm} {H : HistoGauss}.
Variable cfg : Config.
Variable reserved : bool.
Variable save : bool.
Variable st : FgcmStars.
Variable pars : FgcmParameters.

#[local] Abbreviation use := (sigUse cfg reserved st pars).

(** The value computed for one band and one colour cut. *)
#[local] Abbreviation cutValue b c :=
  (branchValue (chooseBranch (fittedWidth (map (EGray st) (use b c)))
                             (map (EGrayErr2 st) (use b c)))).

Lemma bandBody_saved b s :
  saved (bandBody cfg reserved save st pars s b)
  = match use b 0 with
    | [] => saved s
    | _ :: _ => if save then put_one (saved s) b (cutValue b 0) else saved s
    end.
Proof.
  unfold bandBody. cbn [seq fold_left].
  rewrite !cutBody_saved. cbn [Nat.eqb]. rewrite !andb_false_r.
  assert (Hskip : forall (X : Type) (l : list nat) (a : X),
             match l with [] => a | _ :: _ => a end = a)
    by (intros X l a; now destruct l).
  rewrite !Hskip. destruct (use b 0); [reflexivity|].
  now rewrite andb_true_r.
Qed.

Lemma bands_saved n :
  forall s j,
    saved (fold_left (bandBody cfg reserved save st pars) (seq 0 n) s) j
    = match use j 0 with
      | [] => saved s j
      | _ :: _ => if save && (j <? n)%nat then cutValue j 0 else saved s j
      end.
Proof.
  induction n as [|n IH]; intros s j.
  - simpl. rewrite andb_false_r. now destruct (use j 0).
  - rewrite seq_S, fold_left_app. cbn [fold_left Nat.add].
    rewrite bandBody_saved.
    destruct (Nat.eq_dec j n) as [->|Hne].
    + destruct (use n 0) eqn:E.
      * rewrite IH, E. reflexivity.
      * replace (n <? S n)%nat with true by (symmetry; apply Nat.ltb_lt; lia).
        rewrite andb_true_r. destruct save.
        -- apply put_one_same.
        -- rewrite IH, E. reflexivity.
    + assert (Hj : saved (fold_left (bandBody cfg reserved save st pars) (seq 0 n) s) j
                   = match use j 0 with
                     | [] => saved s j
                     | _ :: _ => if save && (j <? S n)%nat then cutValue j 0
                                 else saved s j
                     end).
      { rewrite IH. destruct (use j 0); [reflexivity|].
        replace (j <? S n)%nat with (j <? n)%nat; [reflexivity|].
        destruct (Nat.ltb_spec j n), (Nat.ltb_spec j (S n)); try reflexivity; lia. }
      destruct (use n 0); [exact Hj|].
      destruct save; [|exact Hj].
      rewrite put_one_other by exact Hne. exact Hj.
Qed.

(** X19. When [computeSigFgcm] completes, it has written to
    [fgcmPars.compSigFgcm] only with [save=True], only for the bands
    whose all-colours selection is not empty, and then the value computed
    for the all-colours cut; the three colour-split cuts never reach the
    parameter container, and nothing else of the container is changed. *)
Theorem sigFgcm_saves_the_all_colours_value doPlots p :
  computeSigFgcm cfg reserved save st pars doPlots = (p, None) ->
  (exists sig, completedRun cfg reserved save st pars = Ok (sig, p))
  /\ (forall b,
      compSigFgcm (comp p) b
      = match use b 0 with
        | [] => compSigFgcm (comp pars) b
        | _ :: _ => if save && (b <? nBands (catalog st))%nat
                    then cutValue b 0
                    else compSigFgcm (comp pars) b
        end)
  /\ (save = false -> compSigFgcm (comp p) = compSigFgcm (comp pars))
  /\ (compExpGray (comp p), compVarGray (comp p), compNGoodStarPerExp (comp p))
     = (compExpGray (comp pars), compVarGray (comp pars),
        compNGoodStarPerExp (comp pars))
  /\ (nExp p, nCCD p, fitBandIndex p, layout p, modes p, exps p)
     = (nExp pars, nCCD pars, fitBandIndex pars, layout pars, modes pars, exps pars).
Proof.
  unfold computeSigFgcm, run, completedRun.
  destruct (negb (magStdComputed st)); [discriminate|].
  destruct (esutil_match _ _ _) as [m|]; [|discriminate].
  destruct (goodObs cfg reserved st pars) as [|o l]; [discriminate|].
  destruct (bandsWithPlots cfg reserved save st pars doPlots
              (seq 0 (nBands (catalog st))) false (init pars)) as [s' res] eqn:El.
  cbn [fst snd]. intros [= <- ->].
  apply bandsWithPlots_completed in El. subst s'. unfold withSaved.
  cbn [comp set_comp compSigFgcm compExpGray compVarGray
            compNGoodStarPerExp nExp nCCD fitBandIndex layout modes exps].
  split; [eexists; reflexivity|].
  split; [|split; [|split; reflexivity]].
  - intros b. rewrite bands_saved. reflexivity.
  - intros Hs.
    assert (Hext : forall n s,
               saved (fold_left (bandBody cfg reserved save st pars) (seq 0 n) s)
               = saved s).
    { induction n as [|n IH]; intros s; [reflexivity|].
      rewrite seq_S, fold_left_app. cbn [fold_left Nat.add].
      rewrite bandBody_saved. destruct (use n 0); [apply IH|].
      etransitivity; [|apply (IH s)]. rewrite Hs. reflexivity. }
    apply Hext.
Qed.

(** X20. [computeSigFgcm] reads the name of the plot file at the end of
    every band, and the name is assigned only while plotting a colour cut
    that is not empty.  With at least one band, the call therefore
    completes exactly when [doPlots] is set and some colour cut of the
    first band is not empty; otherwise it ends with an
    [UnboundLocalError] after the first band, having written at most the
    value of the first band. *)
Theorem sigFgcm_needs_a_plot_in_the_first_band doPlots :
  magStdComputed st = true ->
  goodObs cfg reserved st pars <> [] ->
  (0 < nBands (catalog st))%nat ->
  let r := computeSigFgcm cfg reserved save st pars doPlots in
  (snd r = None
   <-> doPlots = true /\ exists c, (c < 4)%nat /\ use 0 c <> [])
  /\ (snd r <> None ->
      snd r = Some ExtraNameUnbound
      /\ forall b,
          compSigFgcm (comp (fst r)) b
          = match b, use 0 0 with
            | O, _ :: _ => if save then cutValue 0 0
                           else compSigFgcm (comp pars) 0
            | _, _ => compSigFgcm (comp pars) b
            end).
Proof.
  intros Hmag Hgo Hn r. subst r. unfold computeSigFgcm.
  rewrite run_reaches_the_loop by assumption.
  destruct (nBands (catalog st)) as [|n]; [lia|].
  cbn [seq]. rewrite bandsWithPlots_first. rewrite <- plotted_iff.
  destruct (plotted cfg reserved st pars doPlots 0); cbn [fst snd].
  - split; [tauto|]. intros Hne. contradiction.
  - split; [split; intros; discriminate|]. intros _. split; [reflexivity|].
    intros b. unfold withSaved. cbn [comp set_comp compSigFgcm].
    rewrite bandBody_saved. cbn [saved init].
    destruct b as [|b].
    + destruct (use 0 0); [reflexivity|]. destruct save; [|reflexivity].
      apply put_one_same.
    + destruct (use 0 0); [reflexivity|]. destruct save; [|reflexivity].
      apply put_one_other. discriminate.
Qed.

(** *** The colour cuts *)

Lemma in_sigUse b c o :
  In o (use b c)
  <-> In o (goodObs cfg reserved st pars)
      /\ eligible cfg st b o = true
      /\ gmiCutLow cfg reserved st pars c < gmi cfg st o
      /\ gmi cfg st o < gmiCutHigh cfg reserved st pars c.
Proof.
  unfold sigUse. rewrite filter_In. fold (eligible cfg st b o).
  rewrite !andb_true_iff, Qgtb_gt, Qltb_lt. tauto.
Qed.

Lemma sig_gmiSorted_facts o :
  In o (goodObs cfg reserved st pars) ->
  nth 0 (gmiSorted cfg reserved st pars) 0 <= gmi cfg st o
  /\ gmi cfg st o <= last (gmiSorted cfg reserved st pars) 0
  /\ nth 0 (gmiSorted cfg reserved st pars) 0 <= quarter cfg reserved st pars 1
  /\ quarter cfg reserved st pars 1 <= quarter cfg reserved st pars 3
  /\ quarter cfg reserved st pars 3 <= last (gmiSorted cfg reserved st pars) 0.
Proof.
  intros Hgo.
  assert (Hin : In (gmi cfg st o) (gmiSorted cfg reserved st pars)).
  { unfold gmiSorted.
    apply (Permutation_in _ (Permutation_sym (sort_perm _))). now apply in_map. }
  assert (Hs : StronglySorted Qle (gmiSorted cfg reserved st pars)) by apply sort_sorted.
  assert (Hne : gmiSorted cfg reserved st pars <> [])
    by (intros E; rewrite E in Hin; destruct Hin).
  destruct (sorted_bounds _ _ Hs Hin) as [H1 H2].
  destruct (sorted_quartiles _ Hs Hne) as (H3 & H4 & H5).
  unfold quarter. auto.
Qed.

(** X21. The four colour cuts of [computeSigFgcm] are open intervals of
    the sorted colours: the "All" cut leaves out the observations whose
    colour equals the smallest or the largest colour, each of the cuts
    Blue25, Middle50 and Red25 selects a part of the "All" selection, and
    no observation is selected by two of these three. *)
Theorem sigFgcm_colour_cuts b o :
  (forall c, (c < 4)%nat -> In o (use b c) ->
             nth 0 (gmiSorted cfg reserved st pars) 0 < gmi cfg st o
             /\ gmi cfg st o < last (gmiSorted cfg reserved st pars) 0)
  /\ (forall c, (1 <= c < 4)%nat -> In o (use b c) -> In o (use b 0))
  /\ (forall c c', (1 <= c < 4)%nat -> (1 <= c' < 4)%nat ->
                   In o (use b c) -> In o (use b c') -> c = c').
Proof.
  assert (Hcut : forall c, (c < 4)%nat -> In o (use b c) ->
            In o (goodObs cfg reserved st pars) /\ eligible cfg st b o = true
            /\ ((c = 0%nat
                 /\ nth 0 (gmiSorted cfg reserved st pars) 0 < gmi cfg st o
                 /\ gmi cfg st o < last (gmiSorted cfg reserved st pars) 0)
                \/ (c = 1%nat
                    /\ nth 0 (gmiSorted cfg reserved st pars) 0 < gmi cfg st o
                    /\ gmi cfg st o < quarter cfg reserved st pars 1)
                \/ (c = 2%nat
                    /\ quarter cfg reserved st pars 1 < gmi cfg st o
                    /\ gmi cfg st o < quarter cfg reserved st pars 3)
                \/ (c = 3%nat
                    /\ quarter cfg reserved st pars 3 < gmi cfg st o
                    /\ gmi cfg st o < last (gmiSorted cfg reserved st pars) 0))).
  { intros c Hc Hin. apply in_sigUse in Hin.
    destruct Hin as (Hgo & Hel & Hlo & Hhi). split; [exact Hgo|]. split; [exact Hel|].
    destruct c as [|[|[|[|c]]]]; try lia; simpl in Hlo, Hhi; auto 10. }
  split; [|split].
  - intros c Hc Hin. destruct (Hcut c Hc Hin) as (Hgo & _ & Hc1).
    destruct (sig_gmiSorted_facts o Hgo) as (Hmin & Hmax & H1 & H2 & H3).
    destruct Hc1 as [(-> & ? & ?)|[(-> & ? & ?)|[(-> & ? & ?)|(-> & ? & ?)]]];
      split; lra.
  - intros c Hc Hin. destruct (Hcut c ltac:(lia) Hin) as (Hgo & Hel & Hc1).
    destruct (sig_gmiSorted_facts o Hgo) as (Hmin & Hmax & H1 & H2 & H3).
    apply in_sigUse. split; [exact Hgo|]. split; [exact Hel|]. simpl.
    destruct Hc1 as [(-> & ? & ?)|[(-> & ? & ?)|[(-> & ? & ?)|(-> & ? & ?)]]];
      split; lra.
  - intros c c' Hc Hc' Hin Hin'.
    destruct (Hcut c ltac:(lia) Hin) as (Hgo & _ & Hc1).
    destruct (Hcut c' ltac:(lia) Hin') as (_ & _ & Hc2).
    destruct (sig_gmiSorted_facts o Hgo) as (_ & _ & _ & Hq & _).
    destruct Hc1 as [(-> & ? & ?)|[(-> & ? & ?)|[(-> & ? & ?)|(-> & ? & ?)]]];
      destruct Hc2 as [(-> & ? & ?)|[(-> & ? & ?)|[(-> & ? & ?)|(-> & ? & ?)]]];
      try reflexivity; try lia; exfalso; lra.
Qed.

End Facts.
(** *** On the example *)

Import Examples.

Lemma exSig_completes :
  computeSigFgcm (M:=exLibm) (H:=exHistoGauss) exSigConfig false true
                 exSigStars exPars true
  = (exSigAfter, None).
Proof.
  apply injective_projections; [reflexivity|]. vm_compute. reflexivity.
Qed.

Lemma sigFgcm_saves_the_all_colours_value_witness :
  let p := exSigAfter in
  (exists sig, completedRun (M:=exLibm) (H:=exHistoGauss) exSigConfig false
                            true exSigStars exPars = Ok (sig, p))
  /\ (forall b,
      compSigFgcm (comp p) b
      = match sigUse exSigConfig false exSigStars exPars b 0 with
        | [] => compSigFgcm (comp exPars) b
        | _ :: _ =>
            if true && (b <? nBands (catalog exSigStars))%nat
            then branchValue (M:=exLibm)
                   (chooseBranch
                      (fittedWidth (H:=exHistoGauss)
                         (map (EGray exSigStars)
                              (sigUse exSigConfig false exSigStars exPars b 0)))
                      (map (EGrayErr2 exSigStars)
                           (sigUse exSigConfig false exSigStars exPars b 0)))
            else compSigFgcm (comp exPars) b
        end)
  /\ (true = false -> compSigFgcm (comp p) = compSigFgcm (comp exPars))
  /\ (compExpGray (comp p), compVarGray (comp p), compNGoodStarPerExp (comp p))
     = (compExpGray (comp exPars), compVarGray (comp exPars),
        compNGoodStarPerExp (comp exPars))
  /\ (nExp p, nCCD p, fitBandIndex p, layout p, modes p, exps p)
     = (nExp exPars, nCCD exPars, fitBandIndex exPars, layout exPars,
        modes exPars, exps exPars).
Proof.
  exact (@sigFgcm_saves_the_all_colours_value exLibm exHistoGauss exSigConfig
           false true exSigStars exPars true exSigAfter exSig_completes).
Defined.

Lemma sigFgcm_needs_a_plot_in_the_first_band_witness :
  let r := computeSigFgcm (M:=exLibm) (H:=exHistoGauss) exSigConfig
             false true exSigStars exPars false in
  (snd r = None
   <-> false = true
       /\ exists c, (c < 4)%nat
                    /\ sigUse exSigConfig false exSigStars exPars 0 c <> [])
  /\ (snd r <> None ->
      snd r = Some ExtraNameUnbound
      /\ forall b,
          compSigFgcm (comp (fst r)) b
          = match b, sigUse exSigConfig false exSigStars exPars 0 0 with
            | O, _ :: _ =>
                if true
                then branchValue (M:=exLibm)
                       (chooseBranch
                          (fittedWidth (H:=exHistoGauss)
                             (map (EGray exSigStars)
                                  (sigUse exSigConfig false exSigStars exPars 0 0)))
                          (map (EGrayErr2 exSigStars)
                               (sigUse exSigConfig false exSigStars exPars 0 0)))
                else compSigFgcm (comp exPars) 0
            | _, _ => compSigFgcm (comp exPars) b
            end).
Proof.
  apply (@sigFgcm_needs_a_plot_in_the_first_band exLibm exHistoGauss
           exSigConfig false true exSigStars exPars false).
  - reflexivity.
  - vm_compute. discriminate.
  - vm_compute. lia.
Defined.

End SigFgcmMore.

(** ** Aperture corrections *)

Module ApertureFacts.
Import SigFgcm ApertureCorrection SortFacts.

Lemma insertBy_perm key e l : Permutation (insertBy key e l) (e :: l).
Proof.
  induction l as [|e' l IH]; simpl; [reflexivity|].
  destruct (Qle_bool (key e) (key e')); [reflexivity|].
  rewrite IH. apply perm_swap.
Qed.

Lemma orderBy_perm key l : Permutation (orderBy key l) l.
Proof.
  unfold orderBy. induction l as [|e l IH]; simpl; [reflexivity|].
  rewrite insertBy_perm. now constructor.
Qed.

Lemma map_insertBy key e l :
  map key (insertBy key e l) = insert (key e) (map key l).
Proof.
  induction l as [|e' l IH]; simpl; [reflexivity|].
  destruct (Qle_bool (key e) (key e')); simpl; [reflexivity|now rewrite IH].
Qed.

(** The keys of the ordered indices are the sorted keys. *)
Lemma map_orderBy key l : map key (orderBy key l) = sort (map key l).
Proof.
  unfold orderBy, sort. induction l as [|e l IH]; simpl; [reflexivity|].
  now rewrite map_insertBy, IH.
Qed.

Lemma key_nth (key : nat -> Q) (l : list nat) k :
  key (nth k l O) = nth k (map key l) (key O).
Proof. symmetry. apply map_nth. Qed.

Lemma nth_ordered (key : nat -> Q) l i j :
  (i <= j)%nat -> (j < length l)%nat ->
  key (nth i (orderBy key l) O) <= key (nth j (orderBy key l) O).
Proof.
  intros Hij Hj. rewrite !key_nth, map_orderBy.
  assert (Hlen : length (sort (map key l)) = length l)
    by now rewrite length_sort, length_map.
  rewrite (nth_indep _ (key O) 0), (nth_indep _ (key O) 0 (n:=j)) by lia.
  apply nth_sorted; [apply sort_sorted|exact Hij|lia].
Qed.

Section Facts.
Context {M : Libm} {F : Fitting}.
Variable cfg : Config.
Variable pars : FgcmParameters.
Variable expGray : nat -> Q.

(** What the loop never writes. *)
Definition sameInputs (a b : AperPars) : Prop :=
  nBands a = nBands b /\ expBandIndex a = expBandIndex b
  /\ expSeeingVariable a = expSeeingVariable b.

Lemma sameInputs_refl a : sameInputs a a.
Proof. repeat split. Qed.

Lemma sameInputs_trans a b c : sameInputs a b -> sameInputs b c -> sameInputs a c.
Proof. intros (H1 & H2 & H3) (H4 & H5 & H6). repeat split; congruence. Qed.

Lemma sameInputs_use a b i :
  sameInputs a b ->
  bandUse cfg pars a i = bandUse cfg pars b i
  /\ seeing a = seeing b.
Proof.
  intros (H1 & H2 & H3).
  assert (Hs : seeing a = seeing b) by (unfold seeing; now rewrite H3).
  split; [|exact Hs].
  unfold bandUse, bandExposures. now rewrite Hs, H2, H3.
Qed.

Lemma sameInputs_values a b i :
  sameInputs a b ->
  bandRangeLow cfg pars a i = bandRangeLow cfg pars b i
  /\ bandRangeHigh cfg pars a i = bandRangeHigh cfg pars b i
  /\ bandPivot cfg pars a i = bandPivot cfg pars b i.
Proof.
  intros Hab. destruct (sameInputs_use a b i Hab) as [Hu Hs].
  unfold bandRangeLow, bandRangeHigh, bandPivot. now rewrite Hu, Hs.
Qed.

(** The fit of band [i] reads the range and the pivot of band [i]
    only. *)
Lemma bandSlope_local a b temp i :
  sameInputs a b ->
  compAperCorrRange a (0%nat, i) = compAperCorrRange b (0%nat, i) ->
  compAperCorrRange a (1%nat, i) = compAperCorrRange b (1%nat, i) ->
  compAperCorrPivot a i = compAperCorrPivot b i ->
  goodBins cfg pars a temp i = goodBins cfg pars b temp i
  /\ bandFit cfg pars a temp i = bandFit cfg pars b temp i
  /\ bandSlope cfg pars a temp i = bandSlope cfg pars b temp i.
Proof.
  intros Hab H0 H1 Hp. destruct (sameInputs_use a b i Hab) as [Hu Hs].
  assert (Hg : goodBins cfg pars a temp i = goodBins cfg pars b temp i)
    by (unfold goodBins; now rewrite Hu, Hs, H0, H1).
  assert (Hf : bandFit cfg pars a temp i = bandFit cfg pars b temp i)
    by (unfold bandFit; now rewrite Hg, Hp).
  split; [exact Hg|]. split; [exact Hf|].
  unfold bandSlope. now rewrite Hg, Hf.
Qed.

(** What a completed step leaves for its band. *)
Definition written (a0 : AperPars) (temp : nat -> Q) (i : nat) (a : AperPars) : Prop :=
  bandUse cfg pars a0 i <> []
  /\ compAperCorrRange a (0%nat, i) = bandRangeLow cfg pars a0 i
  /\ compAperCorrRange a (1%nat, i) = bandRangeHigh cfg pars a0 i
  /\ compAperCorrPivot a i = bandPivot cfg pars a0 i
  /\ (compAperCorrSlope a i, compAperCorrSlopeErr a i) = bandSlope cfg pars a temp i.

Lemma pair_neq (k k' i j : nat) : j <> i -> (k, j) <> (k', i).
Proof. intros H E. injection E as _ E. contradiction. Qed.

Lemma bandStep_ok temp a i a' :
  bandStep cfg pars temp a i = Ok a' ->
  sameInputs a a'
  /\ (forall j, j <> i -> entries a' j = entries a j)
  /\ written a temp i a'.
Proof.
  unfold bandStep. destruct (bandUse cfg pars a i) as [|e l] eqn:Eu; [discriminate|].
  intros [= <-]. split; [repeat split|]. split.
  - intros j Hj. unfold entries. cbn [compAperCorrRange compAperCorrPivot
      compAperCorrSlope compAperCorrSlopeErr].
    rewrite !(put_one_other (K:=nat)) by exact Hj.
    rewrite !(put_one_other (K:=nat * nat)) by (apply pair_neq; exact Hj).
    reflexivity.
  - unfold written. cbn [compAperCorrRange compAperCorrPivot
      compAperCorrSlope compAperCorrSlopeErr].
    rewrite !(put_one_same (K:=nat)), (put_one_same (K:=nat * nat)).
    rewrite (put_one_other (K:=nat * nat)) by discriminate.
    rewrite (put_one_same (K:=nat * nat)).
    split; [rewrite Eu; discriminate|]. repeat split.
    rewrite <- surjective_pairing.
    apply bandSlope_local; cbn [compAperCorrRange compAperCorrPivot];
      try reflexivity. repeat split.
Qed.

Lemma bandStep_raises temp a i err :
  bandStep cfg pars temp a i = Raise err ->
  err = EmptyIndex /\ bandUse cfg pars a i = [].
Proof.
  unfold bandStep. destruct (bandUse cfg pars a i); [|discriminate].
  intros [= <-]. auto.
Qed.

Lemma written_kept a0 temp i a a' :
  sameInputs a a' -> entries a' i = entries a i ->
  written a0 temp i a -> written a0 temp i a'.
Proof.
  intros Hs He (Hu & H0 & H1 & Hp & Hf). unfold entries in He.
  injection He as E0 E1 Ep Es Ee.
  unfold written. rewrite E0, E1, Ep, Es, Ee. repeat split; try assumption.
  rewrite Hf. apply bandSlope_local; [exact Hs| | |]; congruence.
Qed.

(** The loop, band by band. *)
Lemma bandLoop_spec temp (bands : list nat) :
  NoDup bands ->
  forall a,
    let r := bandLoop cfg pars temp a bands in
    sameInputs a (fst r)
    /\ (forall j, ~ In j bands -> entries (fst r) j = entries a j)
    /\ (snd r = None ->
        forall i, In i bands -> written a temp i (fst r))
    /\ (forall err, snd r = Some err ->
        err = EmptyIndex
        /\ exists done i rest,
             bands = done ++ i :: rest
             /\ bandUse cfg pars a i = []
             /\ (forall j, In j done -> written a temp j (fst r))
             /\ (forall j, In j (i :: rest) -> entries (fst r) j = entries a j)).
Proof.
  induction bands as [|i bands IH]; intros Hnd a; simpl.
  - split; [apply sameInputs_refl|]. split; [reflexivity|].
    split; [intros _ i []|discriminate].
  - apply NoDup_cons_iff in Hnd. destruct Hnd as [Hni Hnd].
    destruct (bandStep cfg pars temp a i) as [a1|err] eqn:Es.
    + destruct (bandStep_ok _ _ _ _ Es) as (Hs1 & Hk1 & Hw1).
      specialize (IH Hnd a1). cbv zeta in IH.
      destruct IH as (Hs & Hk & Hok & Hbad).
      split; [eapply sameInputs_trans; eassumption|]. split; [|split].
      * intros j Hj. rewrite Hk by tauto. apply Hk1. intros ->. tauto.
      * intros Hr k [<-|Hin].
        -- apply (written_kept a temp i a1); [exact Hs|now apply Hk|exact Hw1].
        -- specialize (Hok Hr k Hin).
           destruct Hok as (Hu & H0 & H1 & Hp & Hf).
           destruct (sameInputs_use a a1 k Hs1) as [Eu _].
           destruct (sameInputs_values a a1 k Hs1) as (E0 & E1 & Ep).
           unfold written. rewrite Eu, E0, E1, Ep. repeat split; assumption.
      * intros err Hr. destruct (Hbad err Hr) as (-> & done & k & rest & -> & Hu & Hd & Hrest).
        split; [reflexivity|].
        exists (i :: done), k, rest. split; [reflexivity|].
        destruct (sameInputs_use a a1 k Hs1) as [Eu _].
        split; [congruence|]. split.
        -- intros m [Hm|Hm].
           ++ subst m. apply (written_kept a temp i a1); [exact Hs| |exact Hw1].
              apply Hk. intros Hin. apply Hni. exact Hin.
           ++ specialize (Hd m Hm). destruct Hd as (Hu' & H0 & H1 & Hp & Hf).
              destruct (sameInputs_use a a1 m Hs1) as [Eu' _].
              destruct (sameInputs_values a a1 m Hs1) as (E0 & E1 & Ep).
              unfold written. rewrite Eu', E0, E1, Ep. repeat split; assumption.
        -- intros m Hm. rewrite (Hrest m Hm). apply Hk1. intros ->.
           apply Hni. apply in_or_app. right. exact Hm.
    + destruct (bandStep_raises _ _ _ _ Es) as [-> Hu]. cbn [fst snd].
      split; [apply sameInputs_refl|]. split; [reflexivity|].
      split; [discriminate|]. intros err [= <-]. split; [reflexivity|].
      exists [], i, bands. split; [reflexivity|]. split; [exact Hu|].
      split; [intros m []|reflexivity].
Qed.

Lemma bandUse_empty a i :
  bandUse cfg pars a i = [] <-> bandExposures cfg pars a i = [].
Proof.
  unfold bandUse. split; intros E.
  - pose proof (Permutation_length (orderBy_perm (seeing a) (bandExposures cfg pars a i))) as Hl.
    rewrite E in Hl. destruct (bandExposures cfg pars a i); [reflexivity|discriminate].
  - now rewrite E.
Qed.

Lemma completed_run a a' :
  computeApertureCorrections cfg pars expGray a = (a', None) ->
  exists remove,
    hasOldCorrection a = Some remove
    /\ sameInputs a a'
    /\ forall i, (i < nBands a)%nat ->
                 written a (expGrayTemp expGray a remove) i a'.
Proof.
  unfold computeApertureCorrections.
  destruct (hasOldCorrection a) as [remove|]; [|discriminate].
  intros Hrun. exists remove. split; [reflexivity|].
  pose proof (bandLoop_spec (expGrayTemp expGray a remove) (seq 0 (nBands a))
                            (seq_NoDup _ _) a) as Hspec.
  cbv zeta in Hspec. rewrite Hrun in Hspec. cbn [fst snd] in Hspec.
  destruct Hspec as (Hs & _ & Hok & _). split; [exact Hs|].
  intros i Hi. apply Hok; [reflexivity|]. apply in_seq. lia.
Qed.

(** X22. When [computeApertureCorrections] completes, every band has at
    least one usable exposure and its range is ordered: the lower and the
    upper end are the seeing values of the usable exposures of the band at
    ranks [int(0.02 n)] and [int(0.98 n)] of the sorted seeing, and the
    pivot is the median seeing rounded down to a multiple of 0.001. *)
Theorem completed_correction_sets_ordered_ranges ap ap' :
  computeApertureCorrections cfg pars expGray ap = (ap', None) ->
  forall i, (i < nBands ap)%nat ->
    let use := bandUse cfg pars ap i in
    let lo := nth (2 * length use / 100) use O in
    let hi := nth (98 * length use / 100) use O in
    let m := median (map (seeing ap) use) in
    use <> []
    /\ In lo (bandExposures cfg pars ap i)
    /\ In hi (bandExposures cfg pars ap i)
    /\ compAperCorrRange ap' (0%nat, i) = seeing ap lo
    /\ compAperCorrRange ap' (1%nat, i) = seeing ap hi
    /\ compAperCorrRange ap' (0%nat, i) <= compAperCorrRange ap' (1%nat, i)
    /\ compAperCorrPivot ap' i <= m
    /\ m < compAperCorrPivot ap' i + (1 # 1000).
Proof.
  intros Hrun i Hi use lo hi m.
  destruct (completed_run _ _ Hrun) as (remove & _ & _ & Hw).
  destruct (Hw i Hi) as (Hu & H0 & H1 & Hp & _). fold use in Hu.
  assert (Hlen : (0 < length use)%nat) by (destruct use; [contradiction|simpl; lia]).
  assert (H98 : (98 * length use / 100 < length use)%nat)
    by (apply Nat.Div0.div_lt_upper_bound; lia).
  assert (H2 : (2 * length use / 100 <= 98 * length use / 100)%nat)
    by (apply Nat.Div0.div_le_mono; lia).
  assert (Hin : forall k, (k < length use)%nat ->
                          In (nth k use O) (bandExposures cfg pars ap i)).
  { intros k Hk. apply (Permutation_in _ (orderBy_perm (seeing ap) _)).
    apply nth_In. exact Hk. }
  split; [exact Hu|]. split; [apply Hin; lia|]. split; [apply Hin; lia|].
  split; [exact H0|]. split; [exact H1|]. split.
  - rewrite H0, H1. unfold bandRangeLow, bandRangeHigh. cbv zeta. fold use.
    unfold use, bandUse in *.
    rewrite (Permutation_length (orderBy_perm _ _)) in *.
    apply nth_ordered; assumption.
  - rewrite Hp. unfold bandPivot. fold use m.
    pose proof (Qfloor_le (m * 1000)) as Hf1.
    pose proof (Qlt_floor (m * 1000)) as Hf2.
    rewrite inject_Z_plus in Hf2.
    set (fl := inject_Z (Qfloor (m * 1000))) in *.
    change (inject_Z 1) with 1 in Hf2.
    split.
    + apply Qle_shift_div_r; lra.
    + assert (Heq : fl / 1000 + (1 # 1000) == (fl + 1) / 1000) by field.
      rewrite Heq. apply Qlt_shift_div_l; lra.
Qed.

(** X23. When [computeApertureCorrections] completes (with a positive
    number of bins), the slope of a band is 0 with error 0 if fewer than
    three bins have a positive error, or if the variance of the fitted
    slope is negative or not finite; otherwise the slope is the fitted one
    and its error is the square root of that variance, which is not
    negative.  The bins and the fit are those of the range and the pivot
    that the container holds for the band when the call ends. *)
Theorem aperture_slope_and_its_fallbacks ap ap' remove :
  (0 < aperCorrFitNBins cfg)%nat ->
  computeApertureCorrections cfg pars expGray ap = (ap', None) ->
  hasOldCorrection ap = Some remove ->
  forall i, (i < nBands ap)%nat ->
    let temp := expGrayTemp expGray ap remove in
    let bins := goodBins cfg pars ap' temp i in
    ((length bins < 3)%nat ->
     compAperCorrSlope ap' i = 0 /\ compAperCorrSlopeErr ap' i = 0)
    /\ ((3 <= length bins)%nat ->
        match bandFit cfg pars ap' temp i with
        | (slope, Finite v) =>
            (v < 0 -> compAperCorrSlope ap' i = 0 /\ compAperCorrSlopeErr ap' i = 0)
            /\ (0 <= v -> compAperCorrSlope ap' i = slope
                          /\ compAperCorrSlopeErr ap' i = sqrt v)
        | (_, NonFinite) =>
            compAperCorrSlope ap' i = 0 /\ compAperCorrSlopeErr ap' i = 0
        end).
Proof.
  intros _ Hrun Hrem i Hi temp bins.
  destruct (completed_run _ _ Hrun) as (remove' & Hrem' & _ & Hw).
  rewrite Hrem in Hrem'. injection Hrem' as <-.
  destruct (Hw i Hi) as (_ & _ & _ & _ & Hf). fold temp in Hf.
  unfold bandSlope in Hf. fold bins in Hf. split.
  - intros Hlt. replace (length bins <? 3)%nat with true in Hf
      by (symmetry; now apply Nat.ltb_lt).
    now injection Hf as -> ->.
  - intros Hge. replace (length bins <? 3)%nat with false in Hf
      by (symmetry; apply Nat.ltb_ge; lia).
    destruct (bandFit cfg pars ap' temp i) as [slope [v|]].
    + split.
      * intros Hv. replace (Qltb v 0) with true in Hf
          by (symmetry; now apply Qltb_lt).
        now injection Hf as -> ->.
      * intros Hv. replace (Qltb v 0) with false in Hf
          by (symmetry; now apply Qltb_ge).
        now injection Hf as -> ->.
    + now injection Hf as -> ->.
Qed.

Lemma seq_split_at (done rest : list nat) (i : nat) :
  forall a n, seq a n = done ++ i :: rest ->
              i = (a + length done)%nat
              /\ (forall j, In j (i :: rest) <-> (i <= j < a + n)%nat).
Proof.
  induction done as [|d done IH]; intros a n E.
  - destruct n as [|n]; [discriminate|]. simpl in E. injection E as <- <-.
    split; [simpl; lia|]. intros j.
    simpl. split; [intros [->|H]|intros H].
    + lia.
    + apply in_seq in H. lia.
    + destruct (Nat.eq_dec a j); [now left|right; apply in_seq; lia].
  - destruct n as [|n]; [discriminate|]. simpl in E. injection E as <- E.
    destruct (IH _ _ E) as [-> Hin]. split; [simpl; lia|].
    intros j. rewrite Hin. simpl. lia.
Qed.

(** X24. [computeApertureCorrections] fails on a band without usable
    exposure: with at least one band it completes exactly when every band
    has an unflagged exposure with a finite seeing above the illegal
    value, and otherwise ends with an [IndexError] at the first band that
    has none, leaving the entries of that band and of all later bands as
    they were; with no band at all it fails on the reduction of an empty
    array. *)
Theorem aperture_correction_needs_exposures_in_every_band ap :
  let r := computeApertureCorrections cfg pars expGray ap in
  (nBands ap = O -> r = (ap, Some EmptyReduction))
  /\ ((0 < nBands ap)%nat ->
      (snd r = None
       <-> forall i, (i < nBands ap)%nat -> bandExposures cfg pars ap i <> [])
      /\ (snd r <> None ->
          snd r = Some EmptyIndex
          /\ exists i, (i < nBands ap)%nat
                       /\ bandExposures cfg pars ap i = []
                       /\ (forall j, (j < i)%nat -> bandExposures cfg pars ap j <> [])
                       /\ (forall j, (i <= j)%nat ->
                                     entries (fst r) j = entries ap j))).
Proof.
  intros r. subst r. unfold computeApertureCorrections, hasOldCorrection. split.
  - now intros ->.
  - intros Hn. destruct (seq 0 (nBands ap)) as [|b bs] eqn:Eseq.
    { destruct (nBands ap); [lia|discriminate]. }
    rewrite <- Eseq.
    set (temp := expGrayTemp expGray ap _).
    pose proof (bandLoop_spec temp (seq 0 (nBands ap)) (seq_NoDup _ _) ap) as Hspec.
    cbv zeta in Hspec.
    destruct (bandLoop cfg pars temp ap (seq 0 (nBands ap))) as [ap' res] eqn:El.
    cbn [fst snd] in *. destruct Hspec as (Hs & Hout & Hok & Hbad).
    assert (Herr : forall err, res = Some err ->
              err = EmptyIndex
              /\ exists i, (i < nBands ap)%nat
                     /\ bandExposures cfg pars ap i = []
                     /\ (forall j, (j < i)%nat -> bandExposures cfg pars ap j <> [])
                     /\ (forall j, (i <= j)%nat -> entries ap' j = entries ap j)).
    { intros err Hr.
      destruct (Hbad err Hr) as (-> & done & i & rest & Hsplit & Hu & Hd & Hrest).
      split; [reflexivity|].
      destruct (seq_split_at done rest i 0 (nBands ap) Hsplit) as [Hi Hin].
      assert (Hlt : (i < nBands ap)%nat).
      { assert (In i (i :: rest)) by now left. apply Hin in H. lia. }
      exists i. split; [exact Hlt|]. split; [now apply bandUse_empty|]. split.
      - intros j Hj Hempty.
        assert (Hjd : In j done).
        { assert (Hjs : In j (seq 0 (nBands ap))) by (apply in_seq; lia).
          rewrite Hsplit in Hjs. apply in_app_or in Hjs.
          destruct Hjs as [H|H]; [exact H|]. apply Hin in H. lia. }
        destruct (Hd j Hjd) as (Hne & _). apply Hne. now apply bandUse_empty.
      - intros j Hj. destruct (Nat.lt_ge_cases j (nBands ap)) as [Hjn|Hjn].
        + apply Hrest. apply Hin. lia.
        + apply Hout. intros H. apply in_seq in H. lia. }
    split.
    + split.
      * intros Hr i Hi Hempty.
        destruct (Hok Hr i) as (Hne & _); [apply in_seq; lia|].
        apply Hne. now apply bandUse_empty.
      * intros Hall. destruct res as [err|]; [|reflexivity].
        destruct (Herr err eq_refl) as (_ & i & Hi & Hempty & _).
        exfalso. exact (Hall i Hi Hempty).
    + intros Hne. destruct res as [err|]; [|contradiction].
      destruct (Herr err eq_refl) as (-> & Hex). split; [reflexivity|exact Hex].
Qed.

End Facts.
(** *** On the example *)

Import Examples.

Lemma exAper_runs :
  computeApertureCorrections (M:=exLibm) (F:=exFitting) exAperConfig
                             exAperExposures exExpGray exAperPars
  = (exAperAfter, None).
Proof.
  apply injective_projections; [reflexivity|]. vm_compute. reflexivity.
Qed.

Lemma completed_correction_sets_ordered_ranges_witness :
  let ap := exAperPars in
  let ap' := exAperAfter in
  let use := bandUse exAperConfig exAperExposures ap 0 in
  let lo := nth (2 * length use / 100) use O in
  let hi := nth (98 * length use / 100) use O in
  let m := median (map (seeing ap) use) in
  use <> []
  /\ In lo (bandExposures exAperConfig exAperExposures ap 0)
  /\ In hi (bandExposures exAperConfig exAperExposures ap 0)
  /\ compAperCorrRange ap' (0%nat, 0%nat) = seeing ap lo
  /\ compAperCorrRange ap' (1%nat, 0%nat) = seeing ap hi
  /\ compAperCorrRange ap' (0%nat, 0%nat) <= compAperCorrRange ap' (1%nat, 0%nat)
  /\ compAperCorrPivot ap' 0 <= m
  /\ m < compAperCorrPivot ap' 0 + (1 # 1000).
Proof.
  apply (@completed_correction_sets_ordered_ranges exLibm exFitting
           exAperConfig exAperExposures exExpGray exAperPars exAperAfter
           exAper_runs 0%nat).
  vm_compute. lia.
Defined.

Lemma aperture_slope_and_its_fallbacks_witness :
  let ap := exAperPars in
  let ap' := exAperAfter in
  let temp := expGrayTemp exExpGray ap false in
  let bins := goodBins (F:=exFitting) exAperConfig exAperExposures ap' temp 0 in
  ((length bins < 3)%nat ->
   compAperCorrSlope ap' 0 = 0 /\ compAperCorrSlopeErr ap' 0 = 0)
  /\ ((3 <= length bins)%nat ->
      match bandFit (M:=exLibm) (F:=exFitting) exAperConfig exAperExposures
                    ap' temp 0 with
      | (slope, Finite v) =>
          (v < 0 -> compAperCorrSlope ap' 0 = 0 /\ compAperCorrSlopeErr ap' 0 = 0)
          /\ (0 <= v -> compAperCorrSlope ap' 0 = slope
                        /\ compAperCorrSlopeErr ap' 0 = exSqrt v)
      | (_, NonFinite) =>
          compAperCorrSlope ap' 0 = 0 /\ compAperCorrSlopeErr ap' 0 = 0
      end).
Proof.
  apply (@aperture_slope_and_its_fallbacks exLibm exFitting exAperConfig
           exAperExposures exExpGray exAperPars exAperAfter false).
  - vm_compute. lia.
  - exact exAper_runs.
  - vm_compute. reflexivity.
  - vm_compute. lia.
Defined.

End ApertureFacts.

(** ** The gradient outside the active parameter slices *)

Module ChisqGradient.
Import Chisq ChisqFacts.

Section Inactive.
Context {M : Libm} {L : FgcmLUT} {PM : ParsMethods} {SM : StarsMethods}.
Variable cfg : Config.
Variable opts : Options.
Variable pars : FgcmParameters.

Hypothesis Hfit : allExposures opts = false.
Hypothesis Hder : computeDerivatives opts = true.
Hypothesis Hvalid : validLayout pars.

Lemma sum_zeros {X} (f : X -> Q) (l : list X) :
  (forall x, In x l -> f x == 0) -> sum (map f l) == 0.
Proof.
  induction l as [|x l IH]; intros H; [reflexivity|].
  cbn [map]. rewrite sum_cons, H by now left.
  rewrite IH by (intros y Hy; apply H; now right). reflexivity.
Qed.

(** Neither the derivative nor the touch counter of a parameter outside
    the slices is written by a worker. *)
Lemma worker_outside_slices st w i :
  (i < nFitPars (layout pars))%nat ->
  (forall sl, In sl (o3Slice pars :: otherSlices pars) -> ~ inSlice i sl) ->
  snd (worker cfg opts pars st w) i = 0
  /\ snd (worker cfg opts pars st w) (nFitPars (layout pars) + i)%nat = 0.
Proof.
  intros Hi Hout. rewrite (worker_array cfg opts pars Hfit).
  unfold partialArray. rewrite Hder.
  assert (Hfits : forall sl, In sl (o3Slice pars :: otherSlices pars) ->
                             (fst sl + snd sl <= nFitPars (layout pars))%nat).
  { destruct Hvalid as (_ & Hall & _). rewrite Forall_forall in Hall. exact Hall. }
  assert (Hzero : forall cat mM GO j,
             (j < 2 * nFitPars (layout pars))%nat ->
             partialArray0 opts pars cat mM GO j = 0).
  { intros cat mM GO j Hj. unfold partialArray0, nSums. rewrite Hder.
    rewrite !put_one_other by lia. reflexivity. }
  split.
  - rewrite (proj1 (derivatives_within cfg opts pars _ _ _ _ _ Hvalid)).
    + apply Hzero. lia.
    + intros sl Hin. split; [now apply Hout|].
      unfold inSlice. cbn [fst snd]. lia.
  - rewrite (proj1 (derivatives_within cfg opts pars _ _ _ _ _ Hvalid)).
    + apply Hzero. lia.
    + intros sl Hin. pose proof (Hfits sl Hin) as Hf.
      pose proof (Hout sl Hin) as Hn. unfold inSlice in *. cbn [fst snd].
      split; lia.
Qed.

Lemma runWorkers_outside_slices st wl i :
  (i < nFitPars (layout pars))%nat ->
  (forall sl, In sl (o3Slice pars :: otherSlices pars) -> ~ inSlice i sl) ->
  snd (runWorkers cfg opts pars st wl) i == 0
  /\ traceTouch cfg opts pars (workerTrace cfg opts pars st wl) i == 0.
Proof.
  intros Hi Hout. split.
  - rewrite partialSums_slot. unfold traceSlot. apply sum_zeros.
    intros run _. now rewrite (proj1 (worker_outside_slices _ _ i Hi Hout)).
  - unfold traceTouch, traceSlot. apply sum_zeros.
    intros run _. now rewrite (proj2 (worker_outside_slices _ _ i Hi Hout)).
Qed.

End Inactive.

Section CallGradient.
Context {M : Libm} {L : FgcmLUT} {PM : ParsMethods} {SM : StarsMethods}.
Variable cfg : Config.

(** X25. A fit parameter that lies in none of the slices the derivative
    blocks of the worker write (for instance a nightly PWV intercept when
    the retrieved PWV is used) gets a zero entry in the gradient a fit
    call returns, and its touch counter stays zero, so that it is not
    counted among the fitted parameters. *)
Theorem inactive_parameters_get_no_gradient opts fitParams s s' out g i :
  allExposures opts = false ->
  computeDerivatives opts = true ->
  validLayout (reloadedPars opts fitParams s) ->
  call cfg opts fitParams s = (s', Ok out) ->
  dChisqdP out = Some g ->
  (i < nFitPars (layout (reloadedPars opts fitParams s)))%nat ->
  (forall sl, In sl (o3Slice (reloadedPars opts fitParams s)
                     :: otherSlices (reloadedPars opts fitParams s)) ->
              ~ inSlice i sl) ->
  nth i g 0 == 0
  /\ traceTouch cfg opts (reloadedPars opts fitParams s)
                (callTrace cfg opts fitParams s) i == 0.
Proof.
  intros Hall Hder Hvalid Hcall Hg Hi Hout.
  destruct (call_ok_inv cfg _ _ _ _ _ Hcall)
    as (gss & go & cache & st' & ps & _ & Hm & Hd & Hfin).
  destruct (dispatch_ok_inv cfg _ _ _ _ _ _ _ Hd) as (wl & _ & Hps & Hwl).
  set (pars := reloadedPars opts fitParams s) in *.
  assert (Htr : callTrace cfg opts fitParams s
                = workerTrace cfg opts pars (resetStars opts (fgcmStars s)) wl).
  { unfold callTrace. fold pars. now rewrite Hm, Hwl. }
  destruct (runWorkers_outside_slices cfg opts pars Hall Hder Hvalid
              (resetStars opts (fgcmStars s)) wl i Hi Hout) as [Hz Ht].
  split; [|now rewrite Htr].
  revert Hfin. unfold finish. rewrite Hall, Hder. cbn [negb].
  destruct (Qleb _ 0) eqn:Hle; [discriminate|].
  intros [= _ <-]. cbn [dChisqdP] in Hg. injection Hg as <-.
  rewrite nth_map_seq by exact Hi. rewrite Hps, Hz.
  unfold Qdiv. ring.
Qed.

End CallGradient.

(** *** On the example *)

Import Examples.

Lemma exRetrieved_valid :
  validLayout (reloadedPars (PM:=exParsMethods) exFit (repeat 0 16) exRetrievedState).
Proof.
  split; [vm_compute; lia|]. split.
  - cbn. repeat constructor; cbn; lia.
  - split; intros e.
    + change (e mod 2 < 2)%nat. apply Nat.mod_upper_bound. discriminate.
    + change (0 < 1)%nat. lia.
Qed.

Lemma exRetrieved_call :
  call (M:=exLibm) (L:=exLUT) (PM:=exParsMethods) (SM:=exStarsMethods)
       exConfig exFit (repeat 0 16) exRetrievedState
  = (fst exRetrievedCall, Ok (exOutput (snd exRetrievedCall))).
Proof.
  unfold exRetrievedCall.
  destruct (call exConfig exFit (repeat 0 16) exRetrievedState) as [s' r] eqn:E.
  destruct r as [out|err]; [reflexivity|].
  apply (f_equal snd) in E. vm_compute in E. discriminate.
Qed.

Lemma exRetrieved_gradient :
  dChisqdP (exOutput (snd exRetrievedCall)) = Some exRetrievedGradient.
Proof.
  unfold exRetrievedGradient.
  destruct (dChisqdP (exOutput (snd exRetrievedCall))) eqn:E; [reflexivity|].
  vm_compute in E. discriminate.
Qed.

Lemma inactive_parameters_get_no_gradient_witness :
  nth 4 exRetrievedGradient 0 == 0
  /\ traceTouch (M:=exLibm) (L:=exLUT) (PM:=exParsMethods) (SM:=exStarsMethods)
                exConfig exFit
                (reloadedPars (PM:=exParsMethods) exFit (repeat 0 16)
                              exRetrievedState)
                (callTrace (M:=exLibm) (L:=exLUT) (PM:=exParsMethods)
                           (SM:=exStarsMethods) exConfig exFit (repeat 0 16)
                           exRetrievedState) 4 == 0.
Proof.
  apply (@inactive_parameters_get_no_gradient exLibm exLUT exParsMethods
           exStarsMethods exConfig exFit (repeat 0 16) exRetrievedState
           (fst exRetrievedCall) (exOutput (snd exRetrievedCall))
           exRetrievedGradient 4%nat
           eq_refl eq_refl exRetrieved_valid exRetrieved_call
           exRetrieved_gradient).
  - vm_compute. lia.
  - intros sl Hin. unfold inSlice. vm_compute in Hin.
    repeat (destruct Hin as [<-|Hin]; [cbn [fst snd]; lia|]). destruct Hin.
Defined.

End ChisqGradient.
